(** * The service side of gRPC Python: call life cycle of [grpc/_server.py]

    A shallow embedding of [third_party/grpc/src/python/grpcio/grpc/_server.py].
    Every function of the module that reads or writes an [_RPCState] is a
    computation in a small state-and-exception monad over the call's world:
    the [_RPCState] object, the cygrpc call it belongs to (the batches started
    on it) and the events the serving thread will deliver while the worker
    thread does not hold [state.condition]: while it sleeps in
    [condition.wait()], and between two blocks [with state.condition:]. *)

From Stdlib Require Import ZArith String.
From stdpp Require Import base decidable option list sets gmap strings relations.

Local Open Scope string_scope.
Local Open Scope list_scope.

(** ** Constants of the module *)

Definition _SHUTDOWN_TAG : string := "shutdown".
Definition _REQUEST_CALL_TAG : string := "request_call".

Definition _RECEIVE_CLOSE_ON_SERVER_TOKEN : string := "receive_close_on_server".
Definition _SEND_INITIAL_METADATA_TOKEN : string := "send_initial_metadata".
Definition _RECEIVE_MESSAGE_TOKEN : string := "receive_message".
Definition _SEND_MESSAGE_TOKEN : string := "send_message".
Definition _SEND_INITIAL_METADATA_AND_SEND_MESSAGE_TOKEN : string :=
  "send_initial_metadata * send_message".
Definition _SEND_STATUS_FROM_SERVER_TOKEN : string := "send_status_from_server".
Definition _SEND_INITIAL_METADATA_AND_SEND_STATUS_FROM_SERVER_TOKEN : string :=
  "send_initial_metadata * send_status_from_server".

(** [_OPEN], [_CLOSED], [_CANCELLED]: the three values of [state.client],
    always compared with [is]. *)
Inductive ClientState := _OPEN | _CLOSED | _CANCELLED.

Global Instance ClientState_eq_dec : EqDecision ClientState.
Proof. solve_decision. Defined.

Definition _EMPTY_FLAGS : Z := 0%Z.

(** The quotation mark of the format strings. *)
Definition double_quote : string := String (Ascii.ascii_of_nat 34) EmptyString.

(** ** Values handled by the module *)

(** Python [str] and [bytes] values. *)
Definition text := string.
Definition bytes := string.

(** An application-level message (a deserialized request, a response). *)
Definition Message := string.
Definition Metadata := list (string * string).
(** A zero-argument callable registered with [add_callback], by name. *)
Definition Callback := string.

(** [grpc.StatusCode]: the members the module names, and all the others. *)
Inductive StatusCode := OK | UNKNOWN | other_StatusCode (name : string).

Global Instance StatusCode_eq_dec : EqDecision StatusCode.
Proof. solve_decision. Defined.

(** [cygrpc.StatusCode]: the members the module names, and all the others. *)
Inductive cygrpc_StatusCode :=
  | ok | unknown | internal | unimplemented | resource_exhausted
  | other_cygrpc_StatusCode (name : string).

Global Instance cygrpc_StatusCode_eq_dec : EqDecision cygrpc_StatusCode.
Proof. solve_decision. Defined.

(** Python exception objects.  [RpcError] and [Exception] objects are created
    by the module and compared by identity, so they carry their address. *)
Inductive Exn :=
  | KeyError (key : string)
  | ValueError (msg : string)
  | TypeError (msg : string)
  | StopIteration
  | RpcError (addr : nat)
  | Exception (addr : nat)
  | ApplicationError (addr : nat) (msg : string).

Global Instance Exn_eq_dec : EqDecision Exn.
Proof. solve_decision. Defined.

(** [str(exception)], as used by [format]. *)
Definition str_of_exn (e : Exn) : text :=
  match e with
  | KeyError key => "'" +:+ key +:+ "'"
  | ValueError msg | TypeError msg | ApplicationError _ msg => msg
  | StopIteration | RpcError _ | Exception _ => ""
  end.

(** A request deserializer or response serializer as [_common.deserialize]
    and [_common.serialize] present it: [None] when the codec fails. *)
Definition Deserializer := bytes -> option Message.
Definition Serializer := Message -> option bytes.

(** ** cygrpc operations, tags and events *)

Inductive Operation :=
  | SendInitialMetadataOperation (initial_metadata : option Metadata) (flags : Z)
  | SendStatusFromServerOperation
      (trailing_metadata : option Metadata) (code : cygrpc_StatusCode)
      (details : bytes) (flags : Z)
  | ReceiveMessageOperation (flags : Z)
  | SendMessageOperation (message : bytes) (flags : Z)
  | ReceiveCloseOnServerOperation (flags : Z).

(** The tags handed to [start_server_batch]: the closures built by the
    functions of the same names, with the values they capture. *)
Inductive Tag :=
  | _send_status_from_server (token : string)
  | _receive_close_on_server
  | _receive_message (request_deserializer : Deserializer)
  | _send_initial_metadata
  | _send_message (token : string)
  | _reject_rpc_tag.

(** A completed batch as the completion queue reports it: the tag, and what
    [batch_operations[0].cancelled()] and [batch_operations[0].message()]
    answer. *)
Record Event := mkEvent {
  tag : Tag;
  op_cancelled : bool;
  op_message : option bytes;
}.

Definition Batch : Type := list Operation * Tag.

(** The cygrpc call object of one RPC. *)
Record Call := mkCall {
  batches : list Batch;      (* every start_server_batch, oldest first *)
  cancel_calls : nat;        (* number of call.cancel() *)
}.

(** ** [_RPCState] *)

Record RPCState := mkRPCState {
  due : gset string;
  request : option Message;
  client : ClientState;
  initial_metadata_allowed : bool;
  disable_next_compression : bool;
  trailing_metadata : option Metadata;
  code : option StatusCode;
  details : option bytes;
  statused : bool;
  rpc_errors : list Exn;
  callbacks : option (list Callback);
  abortion : option Exn;
}.

(** [_RPCState.__init__] *)
Definition _RPCState : RPCState :=
  {| due := ∅; request := None; client := _OPEN;
     initial_metadata_allowed := true; disable_next_compression := false;
     trailing_metadata := None; code := None; details := None;
     statused := false; rpc_errors := []; callbacks := Some [];
     abortion := None |}.

Definition set_due (v : gset string) (s : RPCState) : RPCState :=
  mkRPCState v (request s) (client s) (initial_metadata_allowed s)
    (disable_next_compression s) (trailing_metadata s) (code s) (details s)
    (statused s) (rpc_errors s) (callbacks s) (abortion s).
Definition set_request (v : option Message) (s : RPCState) : RPCState :=
  mkRPCState (due s) v (client s) (initial_metadata_allowed s)
    (disable_next_compression s) (trailing_metadata s) (code s) (details s)
    (statused s) (rpc_errors s) (callbacks s) (abortion s).
Definition set_client (v : ClientState) (s : RPCState) : RPCState :=
  mkRPCState (due s) (request s) v (initial_metadata_allowed s)
    (disable_next_compression s) (trailing_metadata s) (code s) (details s)
    (statused s) (rpc_errors s) (callbacks s) (abortion s).
Definition set_initial_metadata_allowed (v : bool) (s : RPCState) : RPCState :=
  mkRPCState (due s) (request s) (client s) v
    (disable_next_compression s) (trailing_metadata s) (code s) (details s)
    (statused s) (rpc_errors s) (callbacks s) (abortion s).
Definition set_disable_next_compression (v : bool) (s : RPCState) : RPCState :=
  mkRPCState (due s) (request s) (client s) (initial_metadata_allowed s)
    v (trailing_metadata s) (code s) (details s)
    (statused s) (rpc_errors s) (callbacks s) (abortion s).
Definition set_trailing_metadata (v : option Metadata) (s : RPCState) : RPCState :=
  mkRPCState (due s) (request s) (client s) (initial_metadata_allowed s)
    (disable_next_compression s) v (code s) (details s)
    (statused s) (rpc_errors s) (callbacks s) (abortion s).
Definition set_code (v : option StatusCode) (s : RPCState) : RPCState :=
  mkRPCState (due s) (request s) (client s) (initial_metadata_allowed s)
    (disable_next_compression s) (trailing_metadata s) v (details s)
    (statused s) (rpc_errors s) (callbacks s) (abortion s).
Definition set_details (v : option bytes) (s : RPCState) : RPCState :=
  mkRPCState (due s) (request s) (client s) (initial_metadata_allowed s)
    (disable_next_compression s) (trailing_metadata s) (code s) v
    (statused s) (rpc_errors s) (callbacks s) (abortion s).
Definition set_statused (v : bool) (s : RPCState) : RPCState :=
  mkRPCState (due s) (request s) (client s) (initial_metadata_allowed s)
    (disable_next_compression s) (trailing_metadata s) (code s) (details s)
    v (rpc_errors s) (callbacks s) (abortion s).
Definition set_rpc_errors (v : list Exn) (s : RPCState) : RPCState :=
  mkRPCState (due s) (request s) (client s) (initial_metadata_allowed s)
    (disable_next_compression s) (trailing_metadata s) (code s) (details s)
    (statused s) v (callbacks s) (abortion s).
Definition set_callbacks (v : option (list Callback)) (s : RPCState) : RPCState :=
  mkRPCState (due s) (request s) (client s) (initial_metadata_allowed s)
    (disable_next_compression s) (trailing_metadata s) (code s) (details s)
    (statused s) (rpc_errors s) v (abortion s).
Definition set_abortion (v : option Exn) (s : RPCState) : RPCState :=
  mkRPCState (due s) (request s) (client s) (initial_metadata_allowed s)
    (disable_next_compression s) (trailing_metadata s) (code s) (details s)
    (statused s) (rpc_errors s) (callbacks s) v.

(** ** The world of one call *)

(** What a behaviour is invoked on: the request message of a unary request,
    or the [_RequestIterator] of a streaming one. *)
Inductive Argument :=
  | ArgMessage (request : Message)
  | ArgRequestIterator (request_deserializer : Deserializer).

Record World := mkWorld {
  st : RPCState;                (* the _RPCState object *)
  addr_of_state : nat;          (* its identity *)
  the_call : Call;              (* rpc_event.call *)
  next_addr : nat;              (* next free address for a new object *)
  env : list (list Event);      (* events the serving thread handles each
                                   time the worker will let go of the lock:
                                   in a condition.wait(), or between two
                                   blocks under the lock *)
  fired : list Callback;        (* callbacks the serving thread has called *)
  invoked : list Argument;      (* arguments the behaviour was invoked on *)
}.

Definition with_st (f : RPCState -> RPCState) (w : World) : World :=
  mkWorld (f (st w)) (addr_of_state w) (the_call w) (next_addr w) (env w)
    (fired w) (invoked w).
Definition with_call (f : Call -> Call) (w : World) : World :=
  mkWorld (st w) (addr_of_state w) (f (the_call w)) (next_addr w) (env w)
    (fired w) (invoked w).
Definition with_env (v : list (list Event)) (w : World) : World :=
  mkWorld (st w) (addr_of_state w) (the_call w) (next_addr w) v
    (fired w) (invoked w).

(** ** The monad: state, Python exceptions, and blocking for ever *)

Inductive Res (A : Type) :=
  | Ok (a : A)
  | Raise (e : Exn)
  | Blocked.
Arguments Ok {A} a.
Arguments Raise {A} e.
Arguments Blocked {A}.

Definition M (A : Type) : Type := World -> Res A * World.

Definition ret {A} (a : A) : M A := fun w => (Ok a, w).
Definition raise {A} (e : Exn) : M A := fun w => (Raise e, w).
Definition bind {A B} (m : M A) (k : A -> M B) : M B :=
  fun w =>
    match m w with
    | (Ok a, w') => k a w'
    | (Raise e, w') => (Raise e, w')
    | (Blocked, w') => (Blocked, w')
    end.

Notation "x <- m ;; k" := (bind m (fun x => k))
  (at level 20, m at level 99, k at level 200, only parsing).
Notation "m >> k" := (bind m (fun _ => k))
  (at level 100, k at level 200, right associativity, only parsing).

(** [try: m except Exception as exception: h exception] *)
Definition try_except {A} (m : M A) (h : Exn -> M A) : M A :=
  fun w =>
    match m w with
    | (Raise e, w') => h e w'
    | r => r
    end.

Definition get {A} (f : RPCState -> A) : M A := fun w => (Ok (f (st w)), w).
Definition modify (f : RPCState -> RPCState) : M unit :=
  fun w => (Ok tt, with_st f w).

(** [call.start_server_batch(operations, tag)] *)
Definition start_server_batch (operations : list Operation) (t : Tag) : M unit :=
  fun w =>
    (Ok tt,
     with_call (fun c => mkCall (batches c ++ [(operations, t)]) (cancel_calls c)) w).

(** [state.due.add(token)] and [state.due.remove(token)] *)
Definition due_add (token : string) : M unit :=
  modify (fun s => set_due ({[token]} ∪ due s) s).
Definition due_remove (token : string) : M unit :=
  fun w =>
    if decide (token ∈ due (st w))
    then modify (fun s => set_due (due s ∖ {[token]}) s) w
    else (Raise (KeyError token), w).

(** [Exception()] and [grpc.RpcError()]: a new object. *)
Definition new_Exception : M Exn :=
  fun w =>
    (Ok (Exception (next_addr w)),
     mkWorld (st w) (addr_of_state w) (the_call w) (S (next_addr w)) (env w)
       (fired w) (invoked w)).
Definition new_RpcError : M Exn :=
  fun w =>
    (Ok (RpcError (next_addr w)),
     mkWorld (st w) (addr_of_state w) (the_call w) (S (next_addr w)) (env w)
       (fired w) (invoked w)).

(** ** Application code *)

(** What a behaviour can call on its [context], and [next] on the request
    iterator of a streaming request. *)
Inductive CtxCall :=
  | ctx_is_active
  | ctx_cancel
  | ctx_add_callback (callback : Callback)
  | ctx_disable_next_message_compression
  | ctx_send_initial_metadata (initial_metadata : option Metadata)
  | ctx_set_trailing_metadata (a_trailing_metadata : option Metadata)
  | ctx_abort (a_code : StatusCode) (a_details : text)
  | ctx_set_code (a_code : StatusCode)
  | ctx_set_details (a_details : text)
  | iterator_next.

Inductive CtxVal :=
  | VNone
  | VBool (b : bool)
  | VMessage (m : Message).

(** Application code is a black box that returns, raises, or calls the
    context and goes on from what the call returned or raised. *)
Inductive Script (A : Type) :=
  | Return (a : A)
  | Throw (e : Exn)
  | Do (c : CtxCall) (k : Res CtxVal -> Script A).
Arguments Return {A} a.
Arguments Throw {A} e.
Arguments Do {A} c k.

(** A response iterator: what [next] on it does. *)
Inductive Generator :=
  | GenStop
  | GenYield (response : Message) (rest : Generator)
  | GenThrow (e : Exn)
  | GenDo (c : CtxCall) (k : Res CtxVal -> Generator).

Definition UnaryBehavior : Type := Argument -> Script Message.
Definition StreamBehavior : Type := Argument -> Script Generator.

(** ** Method handlers *)

Record MethodHandler := mkMethodHandler {
  request_streaming : bool;
  response_streaming : bool;
  request_deserializer : Deserializer;
  response_serializer : Serializer;
  unary_unary : UnaryBehavior;
  unary_stream : StreamBehavior;
  stream_unary : UnaryBehavior;
  stream_stream : StreamBehavior;
}.

(** ** What the module imports *)

(** The helpers of [grpc._common] the module calls, and how Python prints a
    [bytes] value in [format].  Their code is not part of this development:
    they are parameters of everything below. *)
Class grpc_common := {
  encode : text -> bytes;
  decode : bytes -> text;
  STATUS_CODE_TO_CYGRPC_STATUS_CODE : StatusCode -> option cygrpc_StatusCode;
  str_of_bytes : bytes -> text;
}.

(** The new-call event [rpc_event] of one RPC: [rpc_event.success],
    [rpc_event.call_details.method] and [rpc_event.invocation_metadata]. *)
Record RpcEvent := mkRpcEvent {
  success : bool;
  method : option bytes;
  invocation_metadata : Metadata;
}.

Section Server.
Context {common : grpc_common}.

(** [format] of [rpc_event.call_details.method] *)
Definition format_method (m : option bytes) : text :=
  match m with
  | Some b => str_of_bytes b
  | None => "None"
  end.

Definition _application_code (a_code : StatusCode) : cygrpc_StatusCode :=
  match STATUS_CODE_TO_CYGRPC_STATUS_CODE a_code with
  | None => unknown
  | Some cygrpc_code => cygrpc_code
  end.

Definition _completion_code (state : RPCState) : cygrpc_StatusCode :=
  match code state with
  | None => ok
  | Some c => _application_code c
  end.

Definition _abortion_code (state : RPCState) (a_code : cygrpc_StatusCode)
  : cygrpc_StatusCode :=
  match code state with
  | None => a_code
  | Some c => _application_code c
  end.

Definition _details (state : RPCState) : bytes :=
  match details state with
  | None => ""
  | Some d => d
  end.

Definition _raise_rpc_error {A} : M A :=
  rpc_error <- new_RpcError ;;
  modify (fun s => set_rpc_errors (rpc_errors s ++ [rpc_error]) s) >>
  raise rpc_error.

(** What a completion continuation returns: [(state, callbacks)] or
    [(None, ())].  The state is returned by reference: its address. *)
Definition Finish : Type := option nat * option (list Callback).

Definition the_state : M nat := fun w => (Ok (addr_of_state w), w).

Definition _possibly_finish_call (token : string) : M Finish :=
  due_remove token >>
  state <- get id ;;
  if (bool_decide (client state = _CANCELLED) || statused state)
     && bool_decide (due state = ∅)
  then
    let callbacks_ := callbacks state in
    modify (set_callbacks None) >>
    self <- the_state ;;
    ret (Some self, callbacks_)
  else ret (None, Some []).

(** The closure [send_status_from_server] built by [_send_status_from_server]. *)
Definition send_status_from_server (token : string) (unused_event : Event)
  : M Finish :=
  _possibly_finish_call token.

Definition _abort (a_code : cygrpc_StatusCode) (a_details : bytes) : M unit :=
  state <- get id ;;
  if bool_decide (client state ≠ _CANCELLED) then
    let effective_code := _abortion_code state a_code in
    let effective_details :=
      match details state with None => a_details | Some d => d end in
    let '(operations, token) :=
      if initial_metadata_allowed state then
        ([SendInitialMetadataOperation None _EMPTY_FLAGS;
          SendStatusFromServerOperation
            (trailing_metadata state) effective_code effective_details
            _EMPTY_FLAGS],
         _SEND_INITIAL_METADATA_AND_SEND_STATUS_FROM_SERVER_TOKEN)
      else
        ([SendStatusFromServerOperation
            (trailing_metadata state) effective_code effective_details
            _EMPTY_FLAGS],
         _SEND_STATUS_FROM_SERVER_TOKEN) in
    start_server_batch operations (_send_status_from_server token) >>
    modify (set_statused true) >>
    due_add token
  else ret tt.

(** [state.condition.notify_all()]: who wakes up, and when, is decided by [env]. *)
Definition notify_all : M unit := ret tt.

(** The closure [receive_close_on_server]. *)
Definition receive_close_on_server (receive_close_on_server_event : Event)
  : M Finish :=
  state <- get id ;;
  (if op_cancelled receive_close_on_server_event then
     modify (set_client _CANCELLED)
   else if bool_decide (client state = _OPEN) then
     modify (set_client _CLOSED)
   else ret tt) >>
  notify_all >>
  _possibly_finish_call _RECEIVE_CLOSE_ON_SERVER_TOKEN.

(** The closure [receive_message]. *)
Definition receive_message (request_deserializer : Deserializer)
    (receive_message_event : Event) : M Finish :=
  match op_message receive_message_event with
  | None =>
      state <- get id ;;
      (if bool_decide (client state = _OPEN) then modify (set_client _CLOSED)
       else ret tt) >>
      notify_all >>
      _possibly_finish_call _RECEIVE_MESSAGE_TOKEN
  | Some serialized_request =>
      (match request_deserializer serialized_request with
       | None => _abort internal "Exception deserializing request!"
       | Some request_ => modify (set_request (Some request_))
       end) >>
      notify_all >>
      _possibly_finish_call _RECEIVE_MESSAGE_TOKEN
  end.

(** The closure [send_initial_metadata]. *)
Definition send_initial_metadata (unused_event : Event) : M Finish :=
  _possibly_finish_call _SEND_INITIAL_METADATA_TOKEN.

(** The closure [send_message]. *)
Definition send_message (token : string) (unused_event : Event) : M Finish :=
  notify_all >>
  _possibly_finish_call token.

(** [event.tag(event)] *)
Definition call_tag (event : Event) : M Finish :=
  match tag event with
  | _send_status_from_server token => send_status_from_server token event
  | _receive_close_on_server => receive_close_on_server event
  | _receive_message request_deserializer =>
      receive_message request_deserializer event
  | _send_initial_metadata => send_initial_metadata event
  | _send_message token => send_message token event
  | _reject_rpc_tag => self <- the_state ;; ret (Some self, Some [])
  end.

(** One event of the call in [_serve]: the continuation runs, then its
    callbacks are called ([for callback in callbacks] raises on [None]). *)
Definition fire (cbs : list Callback) : M unit :=
  fun w =>
    (Ok tt,
     mkWorld (st w) (addr_of_state w) (the_call w) (next_addr w) (env w)
       (fired w ++ cbs) (invoked w)).

Definition serve_event (event : Event) : M (option nat) :=
  r <- call_tag event ;;
  match r.2 with
  | None => raise (TypeError "'NoneType' object is not iterable")
  | Some cbs => fire cbs >> ret r.1
  end.

(** The serving thread handles events one after the other; an exception
    leaves [_serve], and no later event is handled. *)
Fixpoint serve_events (events : list Event) (w : World) : World :=
  match events with
  | [] => w
  | event :: rest =>
      match serve_event event w with
      | (Ok _, w') => serve_events rest w'
      | (_, w') => with_env [] w'
      end
  end.

(** [state.condition.wait()]: the lock is released, the serving thread handles
    the next events, the caller wakes up.  With no event left, nobody wakes it. *)
Definition wait : M unit :=
  fun w =>
    match env w with
    | [] => (Blocked, w)
    | events :: rest => (Ok tt, serve_events events (with_env rest w))
    end.

(** Between two blocks [with state.condition:] the worker does not hold the
    lock: the serving thread handles the next events there, if there are
    any, and the worker goes on in any case. *)
Definition released : M unit :=
  fun w =>
    match env w with
    | [] => (Ok tt, w)
    | events :: rest => (Ok tt, serve_events events (with_env rest w))
    end.

(** ** [_Context]: what application code can do to the call *)

Definition Context_is_active : M bool :=
  state <- get id ;;
  ret (bool_decide (client state ≠ _CANCELLED) && negb (statused state)).

Definition Context_cancel : M unit :=
  fun w =>
    (Ok tt, with_call (fun c => mkCall (batches c) (S (cancel_calls c))) w).

Definition Context_add_callback (callback : Callback) : M bool :=
  state <- get id ;;
  match callbacks state with
  | None => ret false
  | Some cbs => modify (set_callbacks (Some (cbs ++ [callback]))) >> ret true
  end.

Definition Context_disable_next_message_compression : M unit :=
  modify (set_disable_next_compression true).

Definition Context_send_initial_metadata (initial_metadata : option Metadata)
  : M unit :=
  state <- get id ;;
  if bool_decide (client state = _CANCELLED) then _raise_rpc_error
  else if initial_metadata_allowed state then
    let operation := SendInitialMetadataOperation initial_metadata _EMPTY_FLAGS in
    start_server_batch [operation] _send_initial_metadata >>
    modify (set_initial_metadata_allowed false) >>
    due_add _SEND_INITIAL_METADATA_TOKEN
  else raise (ValueError "Initial metadata no longer allowed!").

Definition Context_set_trailing_metadata (a_trailing_metadata : option Metadata)
  : M unit :=
  modify (set_trailing_metadata a_trailing_metadata).

Definition Context_abort {A} (a_code : StatusCode) (a_details : text) : M A :=
  let '(a_code, a_details) :=
    if bool_decide (a_code = OK) then (UNKNOWN, "") else (a_code, a_details) in
  modify (set_code (Some a_code)) >>
  modify (set_details (Some (encode a_details))) >>
  exception <- new_Exception ;;
  modify (set_abortion (Some exception)) >>
  (state <- get id ;;
   match abortion state with
   | Some e => raise e
   | None => raise (TypeError "exceptions must derive from BaseException")
   end).

Definition Context_set_code (a_code : StatusCode) : M unit :=
  modify (set_code (Some a_code)).

Definition Context_set_details (a_details : text) : M unit :=
  modify (set_details (Some (encode a_details))).

(** ** [_RequestIterator] *)

Definition RequestIterator_raise_or_start_receive_message
    (request_deserializer : Deserializer) : M unit :=
  state <- get id ;;
  if bool_decide (client state = _CANCELLED) then _raise_rpc_error
  else if bool_decide (client state = _CLOSED) || statused state then
    raise StopIteration
  else
    start_server_batch [ReceiveMessageOperation _EMPTY_FLAGS]
      (_receive_message request_deserializer) >>
    due_add _RECEIVE_MESSAGE_TOKEN.

Definition RequestIterator_look_for_request : M (option Message) :=
  state <- get id ;;
  if bool_decide (client state = _CANCELLED) then _raise_rpc_error
  else if bool_decide (request state = None)
          && bool_decide (_RECEIVE_MESSAGE_TOKEN ∉ due state) then
    raise StopIteration
  else
    let request_ := request state in
    modify (set_request None) >>
    ret request_.

(** [while True: condition.wait(); ...]: one round per wake-up.  Every
    round consumes one entry of [env], so [fuel_of w] rounds are enough. *)
Definition fuel_of (w : World) : nat := S (length (env w)).

Definition while_True {A} (body : M (option A)) : nat -> M A :=
  fix loop (fuel : nat) : M A :=
    match fuel with
    | O => fun w => (Blocked, w)
    | S fuel' =>
        wait >>
        r <- body ;;
        match r with
        | Some a => ret a
        | None => loop fuel'
        end
    end.

Definition wait_until {A} (body : M (option A)) : M A :=
  fun w => while_True body (fuel_of w) w.

Definition RequestIterator_next (request_deserializer : Deserializer)
  : M Message :=
  RequestIterator_raise_or_start_receive_message request_deserializer >>
  wait_until RequestIterator_look_for_request.

(** ** Request assembly of a unary request *)

(** The body of the [while True] of [unary_request], after [wait()]:
    [Some r] when it returns [r]. *)
Definition unary_request_look (rpc_event : RpcEvent)
  : M (option (option Message)) :=
  state <- get id ;;
  match request state with
  | None =>
      if bool_decide (client state = _CLOSED) then
        let a_details :=
          double_quote +:+ format_method (method rpc_event)
            +:+ double_quote +:+ " requires exactly one request message." in
        _abort unimplemented (encode a_details) >>
        ret (Some None)
      else if bool_decide (client state = _CANCELLED) then
        ret (Some None)
      else ret None
  | Some request_ =>
      modify (set_request None) >>
      ret (Some (Some request_))
  end.

(** The closure [unary_request] built by [_unary_request]. *)
Definition unary_request (rpc_event : RpcEvent)
    (request_deserializer : Deserializer) : M (option Message) :=
  state <- get id ;;
  if bool_decide (client state = _CANCELLED) || statused state then ret None
  else
    start_server_batch [ReceiveMessageOperation _EMPTY_FLAGS]
      (_receive_message request_deserializer) >>
    due_add _RECEIVE_MESSAGE_TOKEN >>
    wait_until (unary_request_look rpc_event).

Definition ctx_call (request_deserializer : Deserializer) (c : CtxCall)
  : M CtxVal :=
  match c with
  | ctx_is_active => b <- Context_is_active ;; ret (VBool b)
  | ctx_cancel => Context_cancel >> ret VNone
  | ctx_add_callback callback =>
      b <- Context_add_callback callback ;; ret (VBool b)
  | ctx_disable_next_message_compression =>
      Context_disable_next_message_compression >> ret VNone
  | ctx_send_initial_metadata initial_metadata =>
      Context_send_initial_metadata initial_metadata >> ret VNone
  | ctx_set_trailing_metadata a_trailing_metadata =>
      Context_set_trailing_metadata a_trailing_metadata >> ret VNone
  | ctx_abort a_code a_details => Context_abort a_code a_details
  | ctx_set_code a_code => Context_set_code a_code >> ret VNone
  | ctx_set_details a_details => Context_set_details a_details >> ret VNone
  | iterator_next =>
      m <- RequestIterator_next request_deserializer ;; ret (VMessage m)
  end.

(** Application code runs without the lock; every method of the context
    takes it. *)
Fixpoint run_script {A} (request_deserializer : Deserializer) (s : Script A)
  : M A :=
  match s with
  | Return a => ret a
  | Throw e => raise e
  | Do c k =>
      fun w =>
        match (released >> ctx_call request_deserializer c) w with
        | (Blocked, w') => (Blocked, w')
        | (r, w') => run_script request_deserializer (k r) w'
        end
  end.

(** [next(response_iterator)]: the response and the iterator afterwards. *)
Fixpoint next (request_deserializer : Deserializer) (g : Generator)
  : M (Message * Generator) :=
  match g with
  | GenStop => raise StopIteration
  | GenYield response rest => ret (response, rest)
  | GenThrow e => raise e
  | GenDo c k =>
      fun w =>
        match (released >> ctx_call request_deserializer c) w with
        | (Blocked, w') => (Blocked, w')
        | (r, w') => next request_deserializer (k r) w'
        end
  end.

(** ** The handler invocation engine *)

Definition record_invocation (argument : Argument) : M unit :=
  fun w =>
    (Ok tt,
     mkWorld (st w) (addr_of_state w) (the_call w) (next_addr w) (env w)
       (fired w) (invoked w ++ [argument])).

(** The [except Exception] clause shared by [_call_behavior] and
    [_take_response_from_response_iterator]: what it does under the lock,
    which it takes after the exception has been raised. *)
Definition abort_on_exception (what : text) (exception : Exn) : M unit :=
  state <- get id ;;
  if bool_decide (abortion state = Some exception) then
    _abort unknown "RPC Aborted"
  else if bool_decide (exception ∉ rpc_errors state) then
    let a_details := what +:+ str_of_exn exception in
    _abort unknown (encode a_details)
  else ret tt.

Definition _call_behavior {R} (behavior : Argument -> Script R)
    (argument : Argument) (request_deserializer : Deserializer)
  : M (option R * bool) :=
  try_except
    (record_invocation argument >>
     r <- run_script request_deserializer (behavior argument) ;;
     ret (Some r, true))
    (fun exception =>
       released >>
       abort_on_exception "Exception calling application: " exception >>
       ret (None, false)).

Definition _take_response_from_response_iterator
    (request_deserializer : Deserializer) (response_iterator : Generator)
  : M (option (Message * Generator) * bool) :=
  try_except
    (r <- next request_deserializer response_iterator ;; ret (Some r, true))
    (fun exception =>
       match exception with
       | StopIteration => ret (None, true)
       | _ =>
           released >>
           abort_on_exception "Exception iterating responses: " exception >>
           ret (None, false)
       end).

Definition _serialize_response (response : Message)
    (response_serializer : Serializer) : M (option bytes) :=
  match response_serializer response with
  | None =>
      released >> _abort internal "Failed to serialize response!" >> ret None
  | Some serialized_response => ret (Some serialized_response)
  end.

(** The body of the [while True] of [_send_response], after [wait()]. *)
Definition _send_response_look (token : string) : M (option bool) :=
  state <- get id ;;
  if bool_decide (token ∉ due state) then
    ret (Some (bool_decide (client state ≠ _CANCELLED) && negb (statused state)))
  else ret None.

Definition _send_response (serialized_response : bytes) : M bool :=
  state <- get id ;;
  if bool_decide (client state = _CANCELLED) || statused state then ret false
  else
    p <- (if initial_metadata_allowed state then
            modify (set_initial_metadata_allowed false) >>
            ret ([SendInitialMetadataOperation None _EMPTY_FLAGS;
                  SendMessageOperation serialized_response _EMPTY_FLAGS],
                 _SEND_INITIAL_METADATA_AND_SEND_MESSAGE_TOKEN)
          else
            ret ([SendMessageOperation serialized_response _EMPTY_FLAGS],
                 _SEND_MESSAGE_TOKEN)) ;;
    let '(operations, token) := p in
    start_server_batch operations (_send_message token) >>
    due_add token >>
    wait_until (_send_response_look token).

Definition _status (serialized_response : option bytes) : M unit :=
  state <- get id ;;
  if bool_decide (client state ≠ _CANCELLED) then
    let a_code := _completion_code state in
    let a_details := _details state in
    let operations :=
      [SendStatusFromServerOperation
         (trailing_metadata state) a_code a_details _EMPTY_FLAGS]
      ++ (if initial_metadata_allowed state
          then [SendInitialMetadataOperation None _EMPTY_FLAGS] else [])
      ++ (match serialized_response with
          | Some r => [SendMessageOperation r _EMPTY_FLAGS]
          | None => []
          end) in
    start_server_batch operations
      (_send_status_from_server _SEND_STATUS_FROM_SERVER_TOKEN) >>
    modify (set_statused true) >>
    due_add _SEND_STATUS_FROM_SERVER_TOKEN
  else ret tt.

(** The functions that run in the pool take the lock anew for every step:
    the argument thunk, the context calls of the behaviour, the [except]
    clause, [_abort], [_status] and [_send_response]. *)
Definition _unary_response_in_pool (behavior : UnaryBehavior)
    (argument_thunk : M (option Argument))
    (request_deserializer : Deserializer) (response_serializer : Serializer)
  : M unit :=
  released >>
  argument <- argument_thunk ;;
  match argument with
  | Some argument =>
      r <- _call_behavior behavior argument request_deserializer ;;
      match r with
      | (Some response, true) =>
          serialized_response <-
            _serialize_response response response_serializer ;;
          match serialized_response with
          | Some _ => released >> _status serialized_response
          | None => ret tt
          end
      | _ => ret tt
      end
  | None => ret tt
  end.

(** The [while True] of [_stream_response_in_pool]: one round per response.
    A round that goes on has sent a response and waited for it, so the
    rounds are bounded like the waits. *)
Fixpoint stream_responses (fuel : nat) (request_deserializer : Deserializer)
    (response_serializer : Serializer) (response_iterator : Generator)
  : M unit :=
  match fuel with
  | O => fun w => (Blocked, w)
  | S fuel' =>
      r <- _take_response_from_response_iterator request_deserializer
             response_iterator ;;
      match r with
      | (None, true) => released >> _status None
      | (Some (response, response_iterator'), true) =>
          serialized_response <-
            _serialize_response response response_serializer ;;
          match serialized_response with
          | Some serialized_response =>
              proceed <- (released >> _send_response serialized_response) ;;
              if proceed
              then stream_responses fuel' request_deserializer
                     response_serializer response_iterator'
              else ret tt
          | None => ret tt
          end
      | (_, false) => ret tt
      end
  end.

Definition _stream_response_in_pool (behavior : StreamBehavior)
    (argument_thunk : M (option Argument))
    (request_deserializer : Deserializer) (response_serializer : Serializer)
  : M unit :=
  released >>
  argument <- argument_thunk ;;
  match argument with
  | Some argument =>
      r <- _call_behavior behavior argument request_deserializer ;;
      match r with
      | (Some response_iterator, true) =>
          fun w =>
            stream_responses (fuel_of w) request_deserializer
              response_serializer response_iterator w
      | _ => ret tt
      end
  | None => ret tt
  end.

(** ** The worker pool *)

(** A call submitted to the pool: the state it works on and what it runs. *)
Record PoolTask := mkPoolTask {
  task_state : nat;
  task_run : M unit;
}.

(** The pool, as the tasks submitted to it; a future is the rank of its task. *)
Definition ThreadPool : Type := list PoolTask.
Definition Future : Type := nat.

Definition submit (task : PoolTask) (thread_pool : ThreadPool)
  : Future * ThreadPool :=
  (length thread_pool, thread_pool ++ [task]).

Definition _handle_unary_unary (rpc_event : RpcEvent) (state : nat)
    (method_handler : MethodHandler) (thread_pool : ThreadPool)
  : Future * ThreadPool :=
  let unary_request_ :=
    unary_request rpc_event (request_deserializer method_handler) in
  submit
    (mkPoolTask state
       (_unary_response_in_pool
          (unary_unary method_handler)
          (r <- unary_request_ ;; ret (ArgMessage <$> r))
          (request_deserializer method_handler)
          (response_serializer method_handler)))
    thread_pool.

Definition _handle_unary_stream (rpc_event : RpcEvent) (state : nat)
    (method_handler : MethodHandler) (thread_pool : ThreadPool)
  : Future * ThreadPool :=
  let unary_request_ :=
    unary_request rpc_event (request_deserializer method_handler) in
  submit
    (mkPoolTask state
       (_stream_response_in_pool
          (unary_stream method_handler)
          (r <- unary_request_ ;; ret (ArgMessage <$> r))
          (request_deserializer method_handler)
          (response_serializer method_handler)))
    thread_pool.

Definition _handle_stream_unary (rpc_event : RpcEvent) (state : nat)
    (method_handler : MethodHandler) (thread_pool : ThreadPool)
  : Future * ThreadPool :=
  let request_iterator :=
    ArgRequestIterator (request_deserializer method_handler) in
  submit
    (mkPoolTask state
       (_unary_response_in_pool
          (stream_unary method_handler)
          (ret (Some request_iterator))
          (request_deserializer method_handler)
          (response_serializer method_handler)))
    thread_pool.

Definition _handle_stream_stream (rpc_event : RpcEvent) (state : nat)
    (method_handler : MethodHandler) (thread_pool : ThreadPool)
  : Future * ThreadPool :=
  let request_iterator :=
    ArgRequestIterator (request_deserializer method_handler) in
  submit
    (mkPoolTask state
       (_stream_response_in_pool
          (stream_stream method_handler)
          (ret (Some request_iterator))
          (request_deserializer method_handler)
          (response_serializer method_handler)))
    thread_pool.

(** ** Handler lookup *)

Record HandlerCallDetails := _HandlerCallDetails {
  hcd_method : text;
  hcd_invocation_metadata : Metadata;
}.

(** [generic_handler.service(handler_call_details)]: it raises, or returns
    a method handler or [None]. *)
Definition GenericHandler : Type :=
  HandlerCallDetails -> Exn + option MethodHandler.

(** [interceptor_pipeline.execute(query_handlers, handler_call_details)] *)
Definition InterceptorPipeline : Type :=
  (HandlerCallDetails -> Exn + option MethodHandler) ->
  HandlerCallDetails -> Exn + option MethodHandler.

Fixpoint query_handlers (generic_handlers : list GenericHandler)
    (handler_call_details : HandlerCallDetails) : Exn + option MethodHandler :=
  match generic_handlers with
  | [] => inr None
  | generic_handler :: rest =>
      match generic_handler handler_call_details with
      | inl e => inl e
      | inr (Some method_handler) => inr (Some method_handler)
      | inr None => query_handlers rest handler_call_details
      end
  end.

(** [a_method] is [rpc_event.call_details.method], which [_handle_call] has
    found not to be [None]. *)
Definition _find_method_handler (a_method : bytes) (rpc_event : RpcEvent)
    (generic_handlers : list GenericHandler)
    (interceptor_pipeline : option InterceptorPipeline)
  : Exn + option MethodHandler :=
  let handler_call_details :=
    _HandlerCallDetails (decode a_method) (invocation_metadata rpc_event) in
  match interceptor_pipeline with
  | Some pipeline =>
      pipeline (query_handlers generic_handlers) handler_call_details
  | None => query_handlers generic_handlers handler_call_details
  end.

(** ** Accepting or rejecting a call *)

(** [_RPCState()] at address [addr], on the call of a new-call event. *)
Definition new_world (addr : nat) : World :=
  mkWorld _RPCState addr (mkCall [] 0) 0 [] [] [].

Definition _reject_rpc (addr : nat) (status : cygrpc_StatusCode)
    (a_details : bytes) : World :=
  let operations :=
    [SendInitialMetadataOperation None _EMPTY_FLAGS;
     ReceiveCloseOnServerOperation _EMPTY_FLAGS;
     SendStatusFromServerOperation None status a_details _EMPTY_FLAGS] in
  (start_server_batch operations _reject_rpc_tag (new_world addr)).2.

Definition _handle_with_method_handler (addr : nat) (rpc_event : RpcEvent)
    (method_handler : MethodHandler) (thread_pool : ThreadPool)
  : World * (Future * ThreadPool) :=
  let state :=
    ((start_server_batch [ReceiveCloseOnServerOperation _EMPTY_FLAGS]
        _receive_close_on_server >>
      due_add _RECEIVE_CLOSE_ON_SERVER_TOKEN) (new_world addr)).2 in
  if request_streaming method_handler then
    if response_streaming method_handler then
      (state, _handle_stream_stream rpc_event addr method_handler thread_pool)
    else
      (state, _handle_stream_unary rpc_event addr method_handler thread_pool)
  else
    if response_streaming method_handler then
      (state, _handle_unary_stream rpc_event addr method_handler thread_pool)
    else
      (state, _handle_unary_unary rpc_event addr method_handler thread_pool).

(** [_handle_call]: the state of the call and the future of its task, each
    possibly [None], and the pool afterwards.  [addr] is where a new
    [_RPCState] goes. *)
Definition _handle_call (addr : nat) (rpc_event : RpcEvent)
    (generic_handlers : list GenericHandler)
    (interceptor_pipeline : option InterceptorPipeline)
    (thread_pool : ThreadPool) (concurrency_exceeded : bool)
  : (option World * option Future) * ThreadPool :=
  if negb (success rpc_event) then ((None, None), thread_pool)
  else
    match method rpc_event with
    | Some a_method =>
        match _find_method_handler a_method rpc_event generic_handlers
                interceptor_pipeline with
        | inl exception =>
            ((Some (_reject_rpc addr unknown "Error in service handler!"),
              None), thread_pool)
        | inr None =>
            ((Some (_reject_rpc addr unimplemented "Method not found!"),
              None), thread_pool)
        | inr (Some method_handler) =>
            if concurrency_exceeded then
              ((Some (_reject_rpc addr resource_exhausted
                        "Concurrent RPC limit exceeded!"),
                None), thread_pool)
            else
              let '(state, (future, thread_pool')) :=
                _handle_with_method_handler addr rpc_event method_handler
                  thread_pool in
              ((Some state, Some future), thread_pool')
        end
    | None => ((None, None), thread_pool)
    end.

(** ** [_ServerState] and the serving loop *)

Inductive _ServerStage := STOPPED | STARTED | GRACE.

Global Instance ServerStage_eq_dec : EqDecision _ServerStage.
Proof. solve_decision. Defined.

Record ServerState := mkServerState {
  generic_handlers : list GenericHandler;
  interceptor_pipeline : option InterceptorPipeline;
  thread_pool : ThreadPool;
  stage : _ServerStage;
  shutdown_events : option (list nat);
  maximum_concurrent_rpcs : option Z;
  active_rpc_count : Z;
  rpc_states : gset nat;            (* the states, by address *)
  server_due : gset string;         (* state.due of the server *)
  heap : gmap nat World;            (* the calls behind the addresses *)
  next_state : nat;                 (* where the next _RPCState goes *)
  events_set : gset nat;            (* threading.Event objects that are set *)
  request_calls : nat;              (* number of server.request_call *)
  done_callbacks : gset Future;     (* futures with _on_call_completed added *)
}.

Definition with_server_due (v : gset string) (s : ServerState) : ServerState :=
  mkServerState (generic_handlers s) (interceptor_pipeline s) (thread_pool s)
    (stage s) (shutdown_events s) (maximum_concurrent_rpcs s)
    (active_rpc_count s) (rpc_states s) v (heap s) (next_state s)
    (events_set s) (request_calls s) (done_callbacks s).

Definition with_active_rpc_count (v : Z) (s : ServerState) : ServerState :=
  mkServerState (generic_handlers s) (interceptor_pipeline s) (thread_pool s)
    (stage s) (shutdown_events s) (maximum_concurrent_rpcs s)
    v (rpc_states s) (server_due s) (heap s) (next_state s)
    (events_set s) (request_calls s) (done_callbacks s).

Definition with_rpc_states (v : gset nat) (s : ServerState) : ServerState :=
  mkServerState (generic_handlers s) (interceptor_pipeline s) (thread_pool s)
    (stage s) (shutdown_events s) (maximum_concurrent_rpcs s)
    (active_rpc_count s) v (server_due s) (heap s) (next_state s)
    (events_set s) (request_calls s) (done_callbacks s).

(** [state.rpc_states.add(rpc_state)] for a state just created. *)
Definition add_rpc_state (w : World) (s : ServerState) : ServerState :=
  mkServerState (generic_handlers s) (interceptor_pipeline s) (thread_pool s)
    (stage s) (shutdown_events s) (maximum_concurrent_rpcs s)
    (active_rpc_count s) ({[addr_of_state w]} ∪ rpc_states s) (server_due s)
    (<[addr_of_state w := w]> (heap s)) (S (next_state s))
    (events_set s) (request_calls s) (done_callbacks s).

Definition with_thread_pool (v : ThreadPool) (s : ServerState) : ServerState :=
  mkServerState (generic_handlers s) (interceptor_pipeline s) v
    (stage s) (shutdown_events s) (maximum_concurrent_rpcs s)
    (active_rpc_count s) (rpc_states s) (server_due s) (heap s) (next_state s)
    (events_set s) (request_calls s) (done_callbacks s).

Definition add_done_callback (f : Future) (s : ServerState) : ServerState :=
  mkServerState (generic_handlers s) (interceptor_pipeline s) (thread_pool s)
    (stage s) (shutdown_events s) (maximum_concurrent_rpcs s)
    (active_rpc_count s) (rpc_states s) (server_due s) (heap s) (next_state s)
    (events_set s) (request_calls s) ({[f]} ∪ done_callbacks s).

Definition _request_call (s : ServerState) : ServerState :=
  mkServerState (generic_handlers s) (interceptor_pipeline s) (thread_pool s)
    (stage s) (shutdown_events s) (maximum_concurrent_rpcs s)
    (active_rpc_count s) (rpc_states s) ({[_REQUEST_CALL_TAG]} ∪ server_due s)
    (heap s) (next_state s) (events_set s) (S (request_calls s))
    (done_callbacks s).

Definition _stop_serving (s : ServerState) : Exn + (ServerState * bool) :=
  if bool_decide (rpc_states s = ∅) && bool_decide (server_due s = ∅) then
    match shutdown_events s with
    | None => inl (TypeError "'NoneType' object is not iterable")
    | Some events =>
        inr (mkServerState (generic_handlers s) (interceptor_pipeline s)
               (thread_pool s) STOPPED (shutdown_events s)
               (maximum_concurrent_rpcs s) (active_rpc_count s) (rpc_states s)
               (server_due s) (heap s) (next_state s)
               (list_to_set events ∪ events_set s) (request_calls s)
               (done_callbacks s),
             true)
    end
  else inr (s, false).

Definition _on_call_completed (s : ServerState) : ServerState :=
  with_active_rpc_count (active_rpc_count s - 1)%Z s.

(** The value of [concurrency_exceeded] in [_serve]. *)
Definition concurrency_exceeded_of (s : ServerState) : bool :=
  match maximum_concurrent_rpcs s with
  | None => false
  | Some maximum => bool_decide (maximum ≤ active_rpc_count s)%Z
  end.

(** One round of [_serve] on an event whose tag is [_REQUEST_CALL_TAG]: the
    state afterwards and whether [_serve] returns. *)
Definition serve_request_call (event : RpcEvent) (s : ServerState)
  : Exn + (ServerState * bool) :=
  if decide (_REQUEST_CALL_TAG ∈ server_due s) then
    let s := with_server_due (server_due s ∖ {[_REQUEST_CALL_TAG]}) s in
    let concurrency_exceeded := concurrency_exceeded_of s in
    let '((rpc_state, rpc_future), thread_pool') :=
      _handle_call (next_state s) event (generic_handlers s)
        (interceptor_pipeline s) (thread_pool s) concurrency_exceeded in
    let s := with_thread_pool thread_pool' s in
    let s := match rpc_state with
             | Some w => add_rpc_state w s
             | None => s
             end in
    let s := match rpc_future with
             | Some future =>
                 add_done_callback future
                   (with_active_rpc_count (active_rpc_count s + 1)%Z s)
             | None => s
             end in
    if bool_decide (stage s = STARTED) then inr (_request_call s, false)
    else _stop_serving s
  else inl (KeyError _REQUEST_CALL_TAG).

End Server.

(** * Observations *)

(** ** What was sent *)

Definition status_of (op : Operation) : option (cygrpc_StatusCode * bytes) :=
  match op with
  | SendStatusFromServerOperation _ a_code a_details _ => Some (a_code, a_details)
  | _ => None
  end.

(** The statuses of the send-status operations started on the call, oldest
    first. *)
Definition statuses (w : World) : list (cygrpc_StatusCode * bytes) :=
  flat_map (fun b : Batch => omap status_of b.1) (batches (the_call w)).

(** The world an operation leaves. *)
Definition exec {A} (m : M A) (w : World) : World := (m w).2.

Definition is_Raise {A} (r : Res A) : bool :=
  match r with
  | Raise _ => true
  | _ => false
  end.

(** [s] occurs in [t]. *)
Definition occurs_in (s t : string) : Prop :=
  exists before after, t = before +:+ s +:+ after.

(** ** How a call's state may change *)

(** The moves of [state.client]. *)
Inductive client_step : ClientState -> ClientState -> Prop :=
  | step_close : client_step _OPEN _CLOSED
  | step_cancel_open : client_step _OPEN _CANCELLED
  | step_cancel_closed : client_step _CLOSED _CANCELLED.

Definition client_moves (c c' : ClientState) : Prop :=
  c = c' \/ client_step c c'.

(** What every operation of the module respects, between the world it starts
    in and the world it leaves. *)
Record evolves (w w' : World) : Prop := mk_evolves {
  evolves_client : client_moves (client (st w)) (client (st w'));
  evolves_statused : statused (st w) = true -> statused (st w') = true;
  evolves_initial_metadata :
    initial_metadata_allowed (st w) = false ->
    initial_metadata_allowed (st w') = false;
  evolves_callbacks : callbacks (st w) = None -> callbacks (st w') = None;
  evolves_env : length (env w') <= length (env w);
  evolves_addr : addr_of_state w' = addr_of_state w;
  evolves_batches : batches (the_call w) `prefix_of` batches (the_call w');
  evolves_invoked : invoked w `prefix_of` invoked w';
}.

Definition preserves {A} (m : M A) : Prop := forall w, evolves w (exec m w).

(** A script that does not catch what a context call raises. *)
Definition unwinding {A} (k : Res CtxVal -> Script A) : Prop :=
  forall e, k (Raise e) = Throw e.

(** ** The operations of the module on a call *)

Section Operations.
Context {common : grpc_common}.

(** The two argument thunks the pool is given: [unary_request], and
    [lambda: request_iterator]. *)
Inductive Thunk :=
  | thunk_unary_request (rpc_event : RpcEvent) (request_deserializer : Deserializer)
  | thunk_request_iterator (request_deserializer : Deserializer).

Definition run_thunk (t : Thunk) : M (option Argument) :=
  match t with
  | thunk_unary_request rpc_event request_deserializer =>
      r <- unary_request rpc_event request_deserializer ;;
      ret (ArgMessage <$> r)
  | thunk_request_iterator request_deserializer =>
      ret (Some (ArgRequestIterator request_deserializer))
  end.

Inductive Op :=
  | op_raise_rpc_error
  | op_possibly_finish_call (token : string)
  | op_abort (a_code : cygrpc_StatusCode) (a_details : bytes)
  | op_call_tag (event : Event)
  | op_serve_event (event : Event)
  | op_wait
  | op_ctx_call (request_deserializer : Deserializer) (c : CtxCall)
  | op_raise_or_start_receive_message (request_deserializer : Deserializer)
  | op_look_for_request
  | op_unary_request (rpc_event : RpcEvent) (request_deserializer : Deserializer)
  | op_call_unary_behavior (behavior : UnaryBehavior) (argument : Argument)
      (request_deserializer : Deserializer)
  | op_call_stream_behavior (behavior : StreamBehavior) (argument : Argument)
      (request_deserializer : Deserializer)
  | op_take_response (request_deserializer : Deserializer)
      (response_iterator : Generator)
  | op_serialize_response (response : Message) (response_serializer : Serializer)
  | op_send_response (serialized_response : bytes)
  | op_status (serialized_response : option bytes)
  | op_unary_response_in_pool (behavior : UnaryBehavior) (t : Thunk)
      (request_deserializer : Deserializer) (response_serializer : Serializer)
  | op_stream_response_in_pool (behavior : StreamBehavior) (t : Thunk)
      (request_deserializer : Deserializer) (response_serializer : Serializer).

Definition run_op (op : Op) : World -> World :=
  match op with
  | op_raise_rpc_error => exec (@_raise_rpc_error unit)
  | op_possibly_finish_call token => exec (_possibly_finish_call token)
  | op_abort a_code a_details => exec (_abort a_code a_details)
  | op_call_tag event => exec (call_tag event)
  | op_serve_event event => exec (serve_event event)
  | op_wait => exec wait
  | op_ctx_call request_deserializer c => exec (ctx_call request_deserializer c)
  | op_raise_or_start_receive_message request_deserializer =>
      exec (RequestIterator_raise_or_start_receive_message request_deserializer)
  | op_look_for_request => exec RequestIterator_look_for_request
  | op_unary_request rpc_event request_deserializer =>
      exec (unary_request rpc_event request_deserializer)
  | op_call_unary_behavior behavior argument request_deserializer =>
      exec (_call_behavior behavior argument request_deserializer)
  | op_call_stream_behavior behavior argument request_deserializer =>
      exec (_call_behavior behavior argument request_deserializer)
  | op_take_response request_deserializer response_iterator =>
      exec (_take_response_from_response_iterator request_deserializer
              response_iterator)
  | op_serialize_response response response_serializer =>
      exec (_serialize_response response response_serializer)
  | op_send_response serialized_response =>
      exec (_send_response serialized_response)
  | op_status serialized_response => exec (_status serialized_response)
  | op_unary_response_in_pool behavior t request_deserializer
      response_serializer =>
      exec (_unary_response_in_pool behavior (run_thunk t)
              request_deserializer response_serializer)
  | op_stream_response_in_pool behavior t request_deserializer
      response_serializer =>
      exec (_stream_response_in_pool behavior (run_thunk t)
              request_deserializer response_serializer)
  end.

(** The text of the status details of a unary request without a message. *)
Definition exactly_one_request_message (rpc_event : RpcEvent) : text :=
  double_quote +:+ format_method (method rpc_event)
    +:+ double_quote +:+ " requires exactly one request message.".

(** Any run of operations on the call, in any order. *)
Definition run_ops (ops : list Op) (w : World) : World :=
  foldl (fun w op => run_op op w) w ops.

(** [n] wake-ups of a thread that does nothing in between. *)
Fixpoint waits (n : nat) : M unit :=
  match n with
  | O => ret tt
  | S n' => wait >> waits n'
  end.

End Operations.

(** ** Sequencing application code *)

(** [s] and then, on what it returns, [k]. *)
Fixpoint script_bind {A B} (s : Script A) (k : A -> Script B) : Script B :=
  match s with
  | Return a => k a
  | Throw e => Throw e
  | Do c k' => Do c (fun r => script_bind (k' r) k)
  end.

(** * Sample values *)

(** An instance of what the module imports, for examples: text is already
    bytes (as a Python 2 [str]), and the table keeps the names. *)
Definition sample_common : grpc_common :=
  {| encode := fun s => s;
     decode := fun b => b;
     STATUS_CODE_TO_CYGRPC_STATUS_CODE := fun c =>
       match c with
       | OK => Some ok
       | UNKNOWN => Some unknown
       | other_StatusCode "INTERNAL" => Some internal
       | other_StatusCode "UNIMPLEMENTED" => Some unimplemented
       | other_StatusCode "RESOURCE_EXHAUSTED" => Some resource_exhausted
       | other_StatusCode _ => None
       end;
     str_of_bytes := fun b => b |}.

(** A call whose status has been sent and is the only operation due. *)
Definition sample_statused_world : World :=
  with_st
    (fun s => set_statused true (set_due {[_SEND_STATUS_FROM_SERVER_TOKEN]} s))
    (new_world 7).

(** A new-call event for a method, and a registry with one unary-unary
    handler that echoes its request. *)
Definition sample_rpc_event : RpcEvent :=
  mkRpcEvent true (Some "/pkg.Service/Method") [].

Definition echo_handler : MethodHandler :=
  mkMethodHandler false false (fun b => Some b) (fun m => Some m)
    (fun argument =>
       match argument with
       | ArgMessage request_ => Return request_
       | ArgRequestIterator _ => Throw (TypeError "not a message")
       end)
    (fun _ => Return GenStop)
    (fun _ => Return "")
    (fun _ => Return GenStop).

Definition echo_generic_handler : GenericHandler :=
  fun _ => inr (Some echo_handler).

(** A handler lookup that raises. *)
Definition failing_generic_handler : GenericHandler :=
  fun _ => inl (ApplicationError 0 "lookup failed").

(** A started server with one call requested and [active] calls running. *)
Definition sample_server (maximum : option Z) (active : Z) : ServerState :=
  mkServerState [echo_generic_handler] None [] STARTED None maximum active
    ∅ {[_REQUEST_CALL_TAG]} ∅ 0 ∅ 1 ∅.

(** A stream-unary handler whose request deserializer fails on every
    message, and whose behaviour reads the requests to their end and then
    answers. *)
Definition read_to_end : Script Message :=
  Do iterator_next
    (fun r =>
       match r with
       | Ok _ => Return "one request"
       | Raise StopIteration => Return "no request"
       | Raise e => Throw e
       | Blocked => Return ""
       end).

Definition garbled_handler : MethodHandler :=
  mkMethodHandler true false (fun _ => None) (fun m => Some m)
    (fun _ => Return "")
    (fun _ => Return GenStop)
    (fun _ => read_to_end)
    (fun _ => Return GenStop).

(** The receive of that call completes with a message. *)
Definition garbled_message_event : Event :=
  mkEvent (_receive_message (request_deserializer garbled_handler)) false
    (Some "garbled").





(** A behaviour that aborts with the success code. *)
Definition abort_with_OK : UnaryBehavior :=
  fun _ =>
    script_bind (Return tt)
      (fun _ =>
         Do (ctx_abort OK "all is well")
           (fun r =>
              match r with
              | Raise e => Throw e
              | _ => Return ""
              end)).

(** A new unary call whose receive completes with no message: the peer has
    closed. *)
Definition closed_without_message {common : grpc_common} : World :=
  with_env [[mkEvent (_receive_message (request_deserializer echo_handler))
               false None]]
    (_handle_with_method_handler 0 sample_rpc_event echo_handler []).1.

(** The same call when its task runs in the pool: the serving thread has
    nothing to do before the task starts. *)
Definition closed_without_message_in_pool {common : grpc_common} : World :=
  with_env ([] :: env closed_without_message) closed_without_message.

(** * The life cycle of the server *)

Definition with_stage (v : _ServerStage) (s : ServerState) : ServerState :=
  mkServerState (generic_handlers s) (interceptor_pipeline s) (thread_pool s)
    v (shutdown_events s) (maximum_concurrent_rpcs s)
    (active_rpc_count s) (rpc_states s) (server_due s) (heap s) (next_state s)
    (events_set s) (request_calls s) (done_callbacks s).

Definition with_shutdown_events (v : option (list nat)) (s : ServerState)
  : ServerState :=
  mkServerState (generic_handlers s) (interceptor_pipeline s) (thread_pool s)
    (stage s) v (maximum_concurrent_rpcs s)
    (active_rpc_count s) (rpc_states s) (server_due s) (heap s) (next_state s)
    (events_set s) (request_calls s) (done_callbacks s).

Definition with_events_set (v : gset nat) (s : ServerState) : ServerState :=
  mkServerState (generic_handlers s) (interceptor_pipeline s) (thread_pool s)
    (stage s) (shutdown_events s) (maximum_concurrent_rpcs s)
    (active_rpc_count s) (rpc_states s) (server_due s) (heap s) (next_state s)
    v (request_calls s) (done_callbacks s).

Definition with_generic_handlers (v : list GenericHandler) (s : ServerState)
  : ServerState :=
  mkServerState v (interceptor_pipeline s) (thread_pool s)
    (stage s) (shutdown_events s) (maximum_concurrent_rpcs s)
    (active_rpc_count s) (rpc_states s) (server_due s) (heap s) (next_state s)
    (events_set s) (request_calls s) (done_callbacks s).

(** The state object [w] as it is after a continuation has run on it. *)
Definition store (w : World) (s : ServerState) : ServerState :=
  mkServerState (generic_handlers s) (interceptor_pipeline s) (thread_pool s)
    (stage s) (shutdown_events s) (maximum_concurrent_rpcs s)
    (active_rpc_count s) (rpc_states s) (server_due s)
    (<[addr_of_state w := w]> (heap s)) (next_state s)
    (events_set s) (request_calls s) (done_callbacks s).

(** [_ServerState.__init__] *)
Definition _ServerState (a_generic_handlers : list GenericHandler)
    (a_interceptor_pipeline : option InterceptorPipeline)
    (a_maximum_concurrent_rpcs : option Z) : ServerState :=
  mkServerState a_generic_handlers a_interceptor_pipeline [] STOPPED None
    a_maximum_concurrent_rpcs 0 ∅ ∅ ∅ 0 ∅ 0 ∅.

Definition _add_generic_handlers (a_generic_handlers : list GenericHandler)
    (s : ServerState) : ServerState :=
  with_generic_handlers (generic_handlers s ++ a_generic_handlers) s.

(** [shutdown_events.append] on [None] *)
Inductive AttributeError := attribute_error (msg : string).

Section Lifecycle.
Context {common : grpc_common}.

(** The duration given to [stop]: the module only hands it on. *)
Variable Duration : Type.

(** The server with what stands behind its state: the cygrpc server, the
    [threading.Event] objects and the threads. *)
Record Process := mkProcess {
  server_state : ServerState;
  next_event : nat;                       (* where the next Event goes *)
  starts : nat;                           (* number of server.start() *)
  shutdowns : nat;                        (* number of server.shutdown(...) *)
  all_calls_cancelled : nat;              (* number of server.cancel_all_calls() *)
  grace_threads : list (nat * Duration);  (* cancel_all_calls_after_grace: the
                                             event waited on, and how long *)
  serving_threads : nat;                  (* threads started on _serve *)
}.

Definition with_server_state (v : ServerState) (p : Process) : Process :=
  mkProcess v (next_event p) (starts p) (shutdowns p) (all_calls_cancelled p)
    (grace_threads p) (serving_threads p).

(** [Server.__init__] *)
Definition Server (a_generic_handlers : list GenericHandler)
    (a_interceptor_pipeline : option InterceptorPipeline)
    (a_maximum_concurrent_rpcs : option Z) : Process :=
  mkProcess
    (_ServerState a_generic_handlers a_interceptor_pipeline
       a_maximum_concurrent_rpcs)
    0 0 0 0 [] 0.

Definition _start (p : Process) : Exn + Process :=
  let s := server_state p in
  if bool_decide (stage s <> STOPPED) then
    inl (ValueError "Cannot start already-started server!")
  else
    inr (mkProcess (_request_call (with_stage STARTED s))
           (next_event p) (S (starts p)) (shutdowns p) (all_calls_cancelled p)
           (grace_threads p) (S (serving_threads p))).

(** [_stop]: the event it returns, and whether it has waited for that event
    before returning. *)
Definition _stop (grace : option Duration) (p : Process)
  : AttributeError + (Process * (nat * bool)) :=
  let s := server_state p in
  if bool_decide (stage s = STOPPED) then
    let shutdown_event := next_event p in
    inr (mkProcess (with_events_set ({[shutdown_event]} ∪ events_set s) s)
           (S (next_event p)) (starts p) (shutdowns p) (all_calls_cancelled p)
           (grace_threads p) (serving_threads p),
         (shutdown_event, false))
  else
    let p :=
      if bool_decide (stage s = STARTED) then
        mkProcess
          (with_server_due ({[_SHUTDOWN_TAG]} ∪ server_due s)
             (with_shutdown_events (Some []) (with_stage GRACE s)))
          (next_event p) (starts p) (S (shutdowns p)) (all_calls_cancelled p)
          (grace_threads p) (serving_threads p)
      else p in
    let s := server_state p in
    let shutdown_event := next_event p in
    match shutdown_events s with
    | None =>
        inl (attribute_error "'NoneType' object has no attribute 'append'")
    | Some events =>
        let s := with_shutdown_events (Some (events ++ [shutdown_event])) s in
        match grace with
        | None =>
            inr (mkProcess s (S (next_event p)) (starts p) (shutdowns p)
                   (S (all_calls_cancelled p)) (grace_threads p)
                   (serving_threads p),
                 (shutdown_event, true))
        | Some duration =>
            inr (mkProcess s (S (next_event p)) (starts p) (shutdowns p)
                   (all_calls_cancelled p)
                   (grace_threads p ++ [(shutdown_event, duration)])
                   (serving_threads p),
                 (shutdown_event, false))
        end
    end.

(** The end of [cancel_all_calls_after_grace], after its wait. *)
Definition cancel_all_calls_after_grace (p : Process) : Process :=
  mkProcess (server_state p) (next_event p) (starts p) (shutdowns p)
    (S (all_calls_cancelled p)) (grace_threads p) (serving_threads p).

(** One round of [_serve] on an event whose tag is [_SHUTDOWN_TAG]. *)
Definition serve_shutdown (s : ServerState) : Exn + (ServerState * bool) :=
  if decide (_SHUTDOWN_TAG ∈ server_due s) then
    _stop_serving (with_server_due (server_due s ∖ {[_SHUTDOWN_TAG]}) s)
  else inl (KeyError _SHUTDOWN_TAG).

(** One round of [_serve] on an event of a call: [w] is the state its tag
    closes over.  The continuation runs, the callbacks are called, and a state
    that is returned leaves [rpc_states]. *)
Definition serve_call_event (event : Event) (w : World) (s : ServerState)
  : Exn + (ServerState * bool) :=
  match serve_event event w with
  | (Ok rpc_state, w') =>
      let s := store w' s in
      match rpc_state with
      | Some a =>
          if decide (a ∈ rpc_states s) then
            _stop_serving (with_rpc_states (rpc_states s ∖ {[a]}) s)
          else inl (KeyError "rpc_state")
      | None => inr (s, false)
      end
  | (Raise e, w') => inl e
  | (Blocked, w') => inr (store w' s, false)
  end.

(** What happens to the server: calls of its methods and rounds of [_serve]. *)
Inductive ServerOp :=
  | op_start
  | op_stop (grace : option Duration)
  | op_cancel_all_calls_after_grace
  | op_add_generic_rpc_handlers (a_generic_handlers : list GenericHandler)
  | op_serve_shutdown
  | op_serve_request_call (rpc_event : RpcEvent)
  | op_serve_call_event (event : Event) (w : World)
  | op_on_call_completed.

(** An operation that raises ends the run: [None]. *)
Definition run_server_op (op : ServerOp) (p : Process) : option Process :=
  match op with
  | op_start =>
      match _start p with inr p' => Some p' | inl _ => None end
  | op_stop grace =>
      match _stop grace p with inr (p', _) => Some p' | inl _ => None end
  | op_cancel_all_calls_after_grace => Some (cancel_all_calls_after_grace p)
  | op_add_generic_rpc_handlers a_generic_handlers =>
      Some (with_server_state
              (_add_generic_handlers a_generic_handlers (server_state p)) p)
  | op_serve_shutdown =>
      match serve_shutdown (server_state p) with
      | inr (s', _) => Some (with_server_state s' p)
      | inl _ => None
      end
  | op_serve_request_call rpc_event =>
      match serve_request_call rpc_event (server_state p) with
      | inr (s', _) => Some (with_server_state s' p)
      | inl _ => None
      end
  | op_serve_call_event event w =>
      match serve_call_event event w (server_state p) with
      | inr (s', _) => Some (with_server_state s' p)
      | inl _ => None
      end
  | op_on_call_completed =>
      Some (with_server_state (_on_call_completed (server_state p)) p)
  end.

Fixpoint run_server_ops (ops : list ServerOp) (p : Process) : option Process :=
  match ops with
  | [] => Some p
  | op :: rest =>
      match run_server_op op p with
      | Some p' => run_server_ops rest p'
      | None => None
      end
  end.

(** The moves of [state.stage]. *)
Inductive stage_step : _ServerStage -> _ServerStage -> Prop :=
  | step_start : stage_step STOPPED STARTED
  | step_stop : stage_step STARTED GRACE
  | step_stopped : stage_step GRACE STOPPED.

(** What holds of a server whatever has happened to it. *)
Record lifecycle (p : Process) : Prop := mk_lifecycle {
  lifecycle_accepting :
    stage (server_state p) = STARTED ->
    _REQUEST_CALL_TAG ∈ server_due (server_state p)
    /\ _SHUTDOWN_TAG ∉ server_due (server_state p);
  lifecycle_idle :
    stage (server_state p) = STOPPED -> server_due (server_state p) = ∅;
  lifecycle_stopping :
    stage (server_state p) = GRACE ->
    exists events,
      shutdown_events (server_state p) = Some events /\ events <> [];
  lifecycle_stopped :
    stage (server_state p) = STOPPED ->
    forall events,
      shutdown_events (server_state p) = Some events ->
      forall event, event ∈ events -> event ∈ events_set (server_state p);
  lifecycle_shutdowns :
    starts p
    = if bool_decide (stage (server_state p) = STARTED)
      then S (shutdowns p) else shutdowns p;
}.

(** The event of a [stop] is set, or waits in [shutdown_events] of a server
    in its grace. *)
Definition pending_or_set (event : nat) (p : Process) : Prop :=
  event ∈ events_set (server_state p)
  \/ (stage (server_state p) = GRACE
      /\ exists events,
          shutdown_events (server_state p) = Some events /\ event ∈ events).

End Lifecycle.

Arguments server_state {Duration}.
Arguments next_event {Duration}.
Arguments starts {Duration}.
Arguments shutdowns {Duration}.
Arguments all_calls_cancelled {Duration}.
Arguments grace_threads {Duration}.
Arguments serving_threads {Duration}.
Arguments with_server_state {Duration}.
Arguments _start {Duration}.
Arguments _stop {Duration}.
Arguments cancel_all_calls_after_grace {Duration}.
Arguments run_server_op {common Duration}.
Arguments run_server_ops {common Duration}.
Arguments lifecycle {Duration}.
Arguments pending_or_set {Duration}.
Arguments op_start {Duration}.
Arguments op_stop {Duration}.
Arguments op_cancel_all_calls_after_grace {Duration}.
Arguments op_add_generic_rpc_handlers {Duration}.
Arguments op_serve_shutdown {Duration}.
Arguments op_serve_request_call {Duration}.
Arguments op_serve_call_event {Duration}.
Arguments op_on_call_completed {Duration}.

(** * More observations of a call *)

Definition message_of (op : Operation) : option bytes :=
  match op with
  | SendMessageOperation a_message _ => Some a_message
  | _ => None
  end.

(** The messages of the send-message operations started on the call, oldest
    first. *)
Definition messages (w : World) : list bytes :=
  flat_map (fun b : Batch => omap message_of b.1) (batches (the_call w)).


(** The token under which [_send_response] sends in a given state. *)
Definition send_response_token (state : RPCState) : string :=
  if initial_metadata_allowed state
  then _SEND_INITIAL_METADATA_AND_SEND_MESSAGE_TOKEN
  else _SEND_MESSAGE_TOKEN.

(** What the module lets application code see when it raises: the end of
    the requests, or an error it has recorded for a cancelled client. *)
Definition raised_by_module (r : Exn) (w : World) : Prop :=
  r = StopIteration
  \/ (r ∈ rpc_errors (st w) /\ client (st w) = _CANCELLED).

(** * The completion callbacks *)

(** How the callbacks registered on a call and the callbacks called by the
    serving thread move from one world to a later one. *)
Record callbacks_run (w w' : World) : Prop := mk_callbacks_run {
  run_retired :
    callbacks (st w) = None ->
    callbacks (st w') = None /\ fired w' = fired w;
  run_registered :
    forall cbs cbs',
      callbacks (st w) = Some cbs -> callbacks (st w') = Some cbs' ->
      cbs `prefix_of` cbs' /\ fired w' = fired w;
  run_at_retirement :
    forall cbs,
      callbacks (st w) = Some cbs -> callbacks (st w') = None ->
      exists more, fired w' = fired w ++ cbs ++ more;
}.

Definition fires_once {A} (m : M A) : Prop :=
  forall w, callbacks_run w (exec m w).

(** The operations that are whole steps of a thread.  The continuation of an
    event is one only together with the calls of the callbacks it returns,
    as [_serve] runs it: [op_serve_event]. *)
Definition whole_step (op : Op) : bool :=
  match op with
  | op_possibly_finish_call _ | op_call_tag _ => false
  | _ => true
  end.

(** The callbacks of a call that were registered and have not been called,
    after those that have been called: what the call has been asked to call,
    oldest first. *)
Definition ledger (w : World) : list Callback :=
  fired w ++ default [] (callbacks (st w)).

Definition keeps_ledger {A} (m : M A) : Prop :=
  forall w, ledger (exec m w) = ledger w.

Section Accepted.
Context {common : grpc_common}.

(** The callback that a context call registers: the one for which
    [add_callback] returns [True]. *)
Definition accepted_call (c : CtxCall) (w : World) : list Callback :=
  match c with
  | ctx_add_callback callback =>
      match Context_add_callback callback w with
      | (Ok true, _) => [callback]
      | _ => []
      end
  | _ => []
  end.

(** The callbacks registered by the context calls of application code, as
    [run_script] and [next] run it. *)
Fixpoint accepted_script {A} (request_deserializer : Deserializer)
    (s : Script A) (w : World) : list Callback :=
  match s with
  | Do c k =>
      let w1 := exec released w in
      accepted_call c w1
      ++ match ctx_call request_deserializer c w1 with
         | (Blocked, _) => []
         | (r, w2) => accepted_script request_deserializer (k r) w2
         end
  | _ => []
  end.

Fixpoint accepted_next (request_deserializer : Deserializer) (g : Generator)
    (w : World) : list Callback :=
  match g with
  | GenDo c k =>
      let w1 := exec released w in
      accepted_call c w1
      ++ match ctx_call request_deserializer c w1 with
         | (Blocked, _) => []
         | (r, w2) => accepted_next request_deserializer (k r) w2
         end
  | _ => []
  end.

(** The callbacks registered in one operation. *)
Definition accepted_by (op : Op) (w : World) : list Callback :=
  match op with
  | op_ctx_call _ c => accepted_call c w
  | op_call_unary_behavior behavior argument request_deserializer =>
      accepted_script request_deserializer (behavior argument)
        (exec (record_invocation argument) w)
  | op_call_stream_behavior behavior argument request_deserializer =>
      accepted_script request_deserializer (behavior argument)
        (exec (record_invocation argument) w)
  | op_take_response request_deserializer response_iterator =>
      accepted_next request_deserializer response_iterator w
  | _ => []
  end.

(** The callbacks registered in a run of operations, oldest first. *)
Fixpoint accepted (ops : list Op) (w : World) : list Callback :=
  match ops with
  | [] => []
  | op :: rest => accepted_by op w ++ accepted rest (run_op op w)
  end.

End Accepted.

(** The whole steps other than the two functions of the pool, which run the
    argument thunk, [_call_behavior] and the operations of the response one
    after the other. *)
Definition plain_step (op : Op) : bool :=
  match op with
  | op_unary_response_in_pool _ _ _ _ | op_stream_response_in_pool _ _ _ _ =>
      false
  | _ => whole_step op
  end.

(** A callback is registered, the call is aborted, its status is sent, and
    a second callback is offered to the retired call. *)
Definition registering_run : list Op :=
  [op_ctx_call (fun b => Some b) (ctx_add_callback "log");
   op_abort internal "aborted";
   op_serve_event
     (mkEvent
        (_send_status_from_server
           _SEND_INITIAL_METADATA_AND_SEND_STATUS_FROM_SERVER_TOKEN)
        false None);
   op_ctx_call (fun b => Some b) (ctx_add_callback "late")].

(** * More sample values *)

(** A generic handler that knows no method. *)
Definition silent_generic_handler : GenericHandler := fun _ => inr None.

(** A started server without handlers, with one call requested. *)
Definition bare_server : ServerState :=
  mkServerState [] None [] STARTED None None 0 ∅ {[_REQUEST_CALL_TAG]} ∅ 0 ∅
    1 ∅.

(** The server of [sample_server] after its one [start], with durations in
    seconds. *)
Definition sample_process : Process Z :=
  mkProcess Z (sample_server None 0) 0 1 0 0 [] 1.

(** A new-call event that failed. *)
Definition failed_rpc_event : RpcEvent := mkRpcEvent false None [].

(** The sample server after a [stop] with a grace of three seconds, and
    after the serving loop has then found the shutdown and a new-call event
    that failed. *)
Definition stopping_process : Process Z :=
  match _stop (Some 3%Z) sample_process with
  | inr (p, _) => p
  | inl _ => sample_process
  end.

Definition stopped_process {common : grpc_common} : Process Z :=
  default sample_process
    (run_server_ops
       [op_serve_shutdown; op_serve_request_call failed_rpc_event]
       stopping_process).

(** What application code does with an exception of a context call that it
    does not catch. *)
Definition rethrow {A} (otherwise : A) (r : Res CtxVal) : Script A :=
  match r with
  | Raise e => Throw e
  | _ => Return otherwise
  end.

(** A behaviour that aborts with a code of its own. *)
Definition abort_with_INTERNAL : UnaryBehavior :=
  fun _ =>
    script_bind (Return tt)
      (fun _ =>
         Do (ctx_abort (other_StatusCode "INTERNAL") "out of luck")
           (rethrow "")).

(** A behaviour that raises. *)
Definition raising : UnaryBehavior :=
  fun _ =>
    script_bind (Return tt)
      (fun _ => Throw (ApplicationError 0 "division by zero")).

(** A behaviour that sends the initial metadata and returns. *)
Definition sending_metadata : UnaryBehavior :=
  fun _ =>
    script_bind (Return tt)
      (fun _ => Do (ctx_send_initial_metadata None) (rethrow "")).

(** A new call whose client has cancelled. *)
Definition cancelled_call : World :=
  with_st (set_client _CANCELLED) (new_world 0).

(** A new call on which the serving thread finds, at each of the next two
    waits, that a message has been sent. *)
Definition sending_call : World :=
  with_env
    [[mkEvent (_send_message _SEND_INITIAL_METADATA_AND_SEND_MESSAGE_TOKEN)
        false None];
     [mkEvent (_send_message _SEND_MESSAGE_TOKEN) false None]]
    (new_world 0).

(** A call that was aborted and retired, and on which the application then
    sends the initial metadata, which [_abort] has left allowed. *)
Definition retired_call {common : grpc_common} : World :=
  run_ops
    [op_abort internal "aborted";
     op_serve_event
       (mkEvent
          (_send_status_from_server
             _SEND_INITIAL_METADATA_AND_SEND_STATUS_FROM_SERVER_TOKEN)
          false None);
     op_ctx_call (fun b => Some b) (ctx_send_initial_metadata None)]
    (new_world 0).

(** A new call whose receive is due. *)
Definition receiving_call : World :=
  with_st (set_due {[_RECEIVE_MESSAGE_TOKEN]}) (new_world 0).

(** A new call on which the serving thread finds, at the next wait, that a
    message has been received. *)
Definition call_with_request : World :=
  with_env
    [[mkEvent (_receive_message (fun b => Some b)) false (Some "hello")]]
    (new_world 0).

(** * Properties *)

(** ** The ways a call's state changes *)

Lemma client_moves_refl c : client_moves c c.
Proof. by left. Qed.

Lemma client_moves_trans c1 c2 c3 :
  client_moves c1 c2 -> client_moves c2 c3 -> client_moves c1 c3.
Proof.
  intros [-> | H12] [-> | H23]; try (by left); try (by right).
  right. inversion H12; subst; inversion H23; subst; constructor.
Qed.

Lemma client_moves_from_cancelled c :
  client_moves _CANCELLED c -> c = _CANCELLED.
Proof. intros [<- | H]; [done | inversion H]. Qed.

Lemma evolves_refl w : evolves w w.
Proof. split; auto using client_moves_refl. Qed.

Lemma evolves_trans w1 w2 w3 : evolves w1 w2 -> evolves w2 w3 -> evolves w1 w3.
Proof.
  intros [] []; split; eauto using client_moves_trans.
  - lia.
  - congruence.
  - by etrans.
  - by etrans.
Qed.

(** Operations that take the lock once and never wait are checked by
    running them on an arbitrary world. *)
Ltac run_atomic :=
  cbv [exec bind ret raise get modify try_except start_server_batch due_add
       due_remove new_Exception new_RpcError the_state notify_all fire
       record_invocation with_st with_call with_env id];
  simpl;
  repeat (first [case_bool_decide | case_match];
          simpl in *; simplify_eq; simpl in * ).

Ltac solve_evolves :=
  split; simpl in *;
  first
    [ done
    | by left
    | lia
    | by apply prefix_app_r
    | (right; constructor)
    | (intros; congruence)
    | (match goal with |- client_moves ?c _ => destruct c end;
       first [ by left | by (right; constructor) | done ])
    | idtac ].

Create HintDb preserve.

Section Preservation.
Context {common : grpc_common}.

Lemma preserves_ret {A} (a : A) : preserves (ret a).
Proof. intros w. apply evolves_refl. Qed.

Lemma preserves_raise {A} e : preserves (@raise A e).
Proof. intros w. apply evolves_refl. Qed.

Lemma preserves_bind {A B} (m : M A) (k : A -> M B) :
  preserves m -> (forall a, preserves (k a)) -> preserves (bind m k).
Proof.
  intros Hm Hk w. unfold exec, bind. specialize (Hm w). unfold exec in Hm.
  destruct (m w) as [[a | e |] w']; simpl in *; try done.
  eapply evolves_trans; [exact Hm | apply Hk].
Qed.

Lemma preserves_try_except {A} (m : M A) (h : Exn -> M A) :
  preserves m -> (forall e, preserves (h e)) -> preserves (try_except m h).
Proof.
  intros Hm Hh w. unfold exec, try_except. specialize (Hm w). unfold exec in Hm.
  destruct (m w) as [[a | e |] w']; simpl in *; try done.
  eapply evolves_trans; [exact Hm | apply Hh].
Qed.

Lemma preserves_get {A} (f : RPCState -> A) : preserves (get f).
Proof. intros w. apply evolves_refl. Qed.

Lemma preserves_start_server_batch operations t :
  preserves (start_server_batch operations t).
Proof. intros [s a c n e f i]. run_atomic; solve_evolves. Qed.

Lemma preserves_due_add token : preserves (due_add token).
Proof. intros [s a c n e f i]. run_atomic; solve_evolves. Qed.

Lemma preserves_record_invocation argument :
  preserves (record_invocation argument).
Proof. intros [s a c n e f i]. run_atomic; solve_evolves. Qed.

Lemma preserves_set_request r : preserves (modify (set_request r)).
Proof. intros [s a c n e f i]. run_atomic; solve_evolves. Qed.

Lemma preserves_set_initial_metadata_allowed_false :
  preserves (modify (set_initial_metadata_allowed false)).
Proof. intros [s a c n e f i]. run_atomic; solve_evolves. Qed.

Lemma preserves_raise_rpc_error {A} : preserves (@_raise_rpc_error A).
Proof.
  intros [s a c n e f i]. unfold _raise_rpc_error. run_atomic; solve_evolves.
Qed.

Lemma preserves_possibly_finish_call token :
  preserves (_possibly_finish_call token).
Proof.
  intros [s a c n e f i]. unfold _possibly_finish_call.
  run_atomic; solve_evolves.
Qed.

Lemma preserves_abort a_code a_details : preserves (_abort a_code a_details).
Proof. intros [s a c n e f i]. unfold _abort. run_atomic; solve_evolves. Qed.

Lemma preserves_status serialized_response :
  preserves (_status serialized_response).
Proof. intros [s a c n e f i]. unfold _status. run_atomic; solve_evolves. Qed.

Hint Resolve preserves_ret preserves_raise preserves_get
  preserves_start_server_batch preserves_due_add preserves_record_invocation
  preserves_set_request preserves_set_initial_metadata_allowed_false
  preserves_raise_rpc_error preserves_possibly_finish_call preserves_abort
  preserves_status : preserve.

(** Operations made of others are checked piece by piece. *)
Ltac preserve :=
  repeat first
    [ progress intros
    | solve [auto with preserve]
    | apply preserves_bind
    | apply preserves_try_except
    | match goal with
      | |- preserves (match ?x with _ => _ end) => destruct x
      end ].

Lemma preserves_receive_close_on_server event :
  preserves (receive_close_on_server event).
Proof.
  intros [s a c n e f i]. unfold receive_close_on_server, _possibly_finish_call.
  run_atomic; solve_evolves.
Qed.

Lemma preserves_receive_message request_deserializer event :
  preserves (receive_message request_deserializer event).
Proof.
  intros [s a c n e f i]. unfold receive_message, _abort, _possibly_finish_call.
  run_atomic; solve_evolves.
Qed.

Lemma preserves_the_state : preserves the_state.
Proof. intros w. apply evolves_refl. Qed.

Lemma preserves_fire cbs : preserves (fire cbs).
Proof. intros [s a c n e f i]. run_atomic; solve_evolves. Qed.

Hint Resolve preserves_receive_close_on_server preserves_receive_message
  preserves_the_state preserves_fire : preserve.

Lemma preserves_call_tag event : preserves (call_tag event).
Proof.
  unfold call_tag, send_status_from_server, send_initial_metadata,
    send_message, notify_all.
  destruct (tag event); preserve.
Qed.

Hint Resolve preserves_call_tag : preserve.

Lemma preserves_serve_event event : preserves (serve_event event).
Proof. unfold serve_event. preserve. Qed.

Hint Resolve preserves_serve_event : preserve.

Lemma evolves_with_env v w : length v <= length (env w) -> evolves w (with_env v w).
Proof. intros Hv. destruct w. solve_evolves. Qed.

Lemma serve_events_evolves events w : evolves w (serve_events events w).
Proof.
  revert w. induction events as [| event rest IH]; intros w; simpl.
  - apply evolves_refl.
  - pose proof (preserves_serve_event event w) as Hev. unfold exec in Hev.
    destruct (serve_event event w) as [[r | e |] w']; simpl in Hev.
    + eapply evolves_trans; [exact Hev | apply IH].
    + eapply evolves_trans; [exact Hev |]. apply evolves_with_env; simpl; lia.
    + eapply evolves_trans; [exact Hev |]. apply evolves_with_env; simpl; lia.
Qed.

Lemma preserves_wait : preserves wait.
Proof.
  intros w. unfold exec, wait. destruct (env w) as [| events rest] eqn:Henv.
  - apply evolves_refl.
  - simpl. eapply evolves_trans; [| apply serve_events_evolves].
    apply evolves_with_env. rewrite Henv. simpl. lia.
Qed.

Lemma preserves_released : preserves released.
Proof.
  intros w. unfold exec, released. destruct (env w) as [| events rest] eqn:Henv.
  - apply evolves_refl.
  - simpl. eapply evolves_trans; [| apply serve_events_evolves].
    apply evolves_with_env. rewrite Henv. simpl. lia.
Qed.

Hint Resolve preserves_wait preserves_released : preserve.

Lemma preserves_while_True {A} (body : M (option A)) fuel :
  preserves body -> preserves (while_True body fuel).
Proof.
  intros Hbody. induction fuel as [| fuel IH]; simpl.
  - intros w. apply evolves_refl.
  - preserve.
Qed.

Lemma preserves_wait_until {A} (body : M (option A)) :
  preserves body -> preserves (wait_until body).
Proof.
  intros Hbody w. unfold wait_until. apply preserves_while_True, Hbody.
Qed.

Lemma preserves_Context_is_active : preserves Context_is_active.
Proof. unfold Context_is_active. preserve. Qed.

Lemma preserves_Context_cancel : preserves Context_cancel.
Proof.
  intros [s a [b k] n e f i]. unfold Context_cancel. run_atomic; solve_evolves.
Qed.

Lemma preserves_Context_add_callback callback :
  preserves (Context_add_callback callback).
Proof.
  intros [s a c n e f i]. unfold Context_add_callback.
  run_atomic; solve_evolves.
Qed.

Lemma preserves_Context_disable_next_message_compression :
  preserves Context_disable_next_message_compression.
Proof.
  intros [s a c n e f i]. unfold Context_disable_next_message_compression.
  run_atomic; solve_evolves.
Qed.

Lemma preserves_Context_send_initial_metadata initial_metadata :
  preserves (Context_send_initial_metadata initial_metadata).
Proof. unfold Context_send_initial_metadata. preserve. Qed.

Lemma preserves_Context_set_trailing_metadata a_trailing_metadata :
  preserves (Context_set_trailing_metadata a_trailing_metadata).
Proof.
  intros [s a c n e f i]. unfold Context_set_trailing_metadata.
  run_atomic; solve_evolves.
Qed.

Lemma preserves_Context_abort {A} a_code a_details :
  preserves (@Context_abort _ A a_code a_details).
Proof.
  intros [s a c n e f i]. unfold Context_abort. run_atomic; solve_evolves.
Qed.

Lemma preserves_Context_set_code a_code : preserves (Context_set_code a_code).
Proof.
  intros [s a c n e f i]. unfold Context_set_code. run_atomic; solve_evolves.
Qed.

Lemma preserves_Context_set_details a_details :
  preserves (Context_set_details a_details).
Proof.
  intros [s a c n e f i]. unfold Context_set_details. run_atomic; solve_evolves.
Qed.

Lemma preserves_raise_or_start_receive_message request_deserializer :
  preserves (RequestIterator_raise_or_start_receive_message request_deserializer).
Proof. unfold RequestIterator_raise_or_start_receive_message. preserve. Qed.

Lemma preserves_look_for_request : preserves RequestIterator_look_for_request.
Proof. unfold RequestIterator_look_for_request. preserve. Qed.

Hint Resolve preserves_wait_until preserves_Context_is_active
  preserves_Context_cancel preserves_Context_add_callback
  preserves_Context_disable_next_message_compression
  preserves_Context_send_initial_metadata
  preserves_Context_set_trailing_metadata preserves_Context_abort
  preserves_Context_set_code preserves_Context_set_details
  preserves_raise_or_start_receive_message preserves_look_for_request
  : preserve.

Lemma preserves_RequestIterator_next request_deserializer :
  preserves (RequestIterator_next request_deserializer).
Proof. unfold RequestIterator_next. preserve. Qed.

Hint Resolve preserves_RequestIterator_next : preserve.

Lemma preserves_unary_request_look rpc_event :
  preserves (unary_request_look rpc_event).
Proof. unfold unary_request_look. preserve. Qed.

Hint Resolve preserves_unary_request_look : preserve.

Lemma preserves_unary_request rpc_event request_deserializer :
  preserves (unary_request rpc_event request_deserializer).
Proof. unfold unary_request. preserve. Qed.

Lemma preserves_ctx_call request_deserializer c :
  preserves (ctx_call request_deserializer c).
Proof. destruct c; simpl; preserve. Qed.

Hint Resolve preserves_unary_request preserves_ctx_call : preserve.

Lemma preserves_run_script {A} request_deserializer (s : Script A) :
  preserves (run_script request_deserializer s).
Proof.
  induction s as [a | e | c k IH]; simpl; [preserve .. |].
  intros w. unfold exec.
  assert (Hc : preserves (released >> ctx_call request_deserializer c))
    by preserve.
  specialize (Hc w). unfold exec in Hc.
  destruct ((released >> ctx_call request_deserializer c) w)
    as [[v | e |] w'] eqn:Hcall;
    simpl in *; [| | done];
    (eapply evolves_trans; [exact Hc | apply IH]).
Qed.

Lemma preserves_next request_deserializer (g : Generator) :
  preserves (next request_deserializer g).
Proof.
  induction g as [| response rest IH | e | c k IH]; simpl; [preserve .. |].
  intros w. unfold exec.
  assert (Hc : preserves (released >> ctx_call request_deserializer c))
    by preserve.
  specialize (Hc w). unfold exec in Hc.
  destruct ((released >> ctx_call request_deserializer c) w)
    as [[v | e |] w'] eqn:Hcall;
    simpl in *; [| | done];
    (eapply evolves_trans; [exact Hc | apply IH]).
Qed.

Hint Resolve preserves_run_script preserves_next : preserve.

Lemma preserves_abort_on_exception what exception :
  preserves (abort_on_exception what exception).
Proof. unfold abort_on_exception. preserve. Qed.

Hint Resolve preserves_abort_on_exception : preserve.

Lemma preserves_call_behavior {R} (behavior : Argument -> Script R) argument
    request_deserializer :
  preserves (_call_behavior behavior argument request_deserializer).
Proof. unfold _call_behavior. preserve. Qed.

Lemma preserves_take_response request_deserializer response_iterator :
  preserves (_take_response_from_response_iterator request_deserializer
               response_iterator).
Proof. unfold _take_response_from_response_iterator. preserve. Qed.

Lemma preserves_serialize_response response response_serializer :
  preserves (_serialize_response response response_serializer).
Proof. unfold _serialize_response. preserve. Qed.

Lemma preserves_send_response_look token : preserves (_send_response_look token).
Proof. unfold _send_response_look. preserve. Qed.

Hint Resolve preserves_call_behavior preserves_take_response
  preserves_serialize_response preserves_send_response_look : preserve.

Lemma preserves_send_response serialized_response :
  preserves (_send_response serialized_response).
Proof. unfold _send_response. preserve. Qed.

Hint Resolve preserves_send_response : preserve.

Lemma preserves_run_thunk t : preserves (run_thunk t).
Proof. destruct t; simpl; preserve. Qed.

Hint Resolve preserves_run_thunk : preserve.

Lemma preserves_unary_response_in_pool behavior argument_thunk
    request_deserializer response_serializer :
  preserves argument_thunk ->
  preserves (_unary_response_in_pool behavior argument_thunk
               request_deserializer response_serializer).
Proof. intros Hthunk. unfold _unary_response_in_pool. preserve. Qed.

Lemma preserves_stream_responses fuel request_deserializer response_serializer
    response_iterator :
  preserves (stream_responses fuel request_deserializer response_serializer
               response_iterator).
Proof.
  revert response_iterator.
  induction fuel as [| fuel IH]; intros response_iterator; simpl.
  - intros w. apply evolves_refl.
  - preserve.
Qed.

Hint Resolve preserves_stream_responses : preserve.

Lemma preserves_stream_response_in_pool behavior argument_thunk
    request_deserializer response_serializer :
  preserves argument_thunk ->
  preserves (_stream_response_in_pool behavior argument_thunk
               request_deserializer response_serializer).
Proof.
  intros Hthunk. unfold _stream_response_in_pool. preserve.
  intros w. apply preserves_stream_responses.
Qed.

(** Every operation of the module respects [evolves], and so does every run
    of operations. *)
Lemma run_op_evolves op w : evolves w (run_op op w).
Proof.
  destruct op; simpl;
    match goal with
    | |- evolves _ (exec ?m _) => cut (preserves m); [by intros H |]
    end;
    first
      [ by apply preserves_unary_response_in_pool, preserves_run_thunk
      | by apply preserves_stream_response_in_pool, preserves_run_thunk
      | by apply preserves_call_behavior
      | by auto with preserve ].
Qed.

Lemma run_ops_evolves ops w : evolves w (run_ops ops w).
Proof.
  revert w. induction ops as [| op ops IH]; intros w; simpl.
  - apply evolves_refl.
  - eapply evolves_trans; [apply run_op_evolves | apply IH].
Qed.

End Preservation.

(** ** The loops never run out of fuel *)

Section Fuel.
Context {common : grpc_common}.

Lemma wait_consumes w w' :
  wait w = (Ok tt, w') -> length (env w') < length (env w).
Proof.
  unfold wait. destruct (env w) as [| events rest] eqn:Henv; [done |].
  intros H. simplify_eq.
  pose proof (evolves_env _ _ (serve_events_evolves events (with_env rest w))).
  destruct w; simpl in *. lia.
Qed.

Lemma preserves_env {A} (m : M A) w r w' :
  preserves m -> m w = (r, w') -> length (env w') <= length (env w).
Proof.
  intros Hm Hrun. pose proof (evolves_env _ _ (Hm w)) as H.
  unfold exec in H. by rewrite Hrun in H.
Qed.

(** With more fuel than events left, the amount of fuel does not matter:
    the loop returns, raises, or finds no event left to wake it up. *)
Lemma while_True_fuel {A} (body : M (option A)) :
  preserves body ->
  forall fuel1 fuel2 w,
    length (env w) < fuel1 -> length (env w) < fuel2 ->
    while_True body fuel1 w = while_True body fuel2 w.
Proof.
  intros Hbody. induction fuel1 as [| fuel1 IH]; intros fuel2 w H1 H2; [lia |].
  destruct fuel2 as [| fuel2]; [lia |]. simpl. unfold bind.
  destruct (wait w) as [[[] | e |] w1] eqn:Hwait; try done.
  apply wait_consumes in Hwait.
  destruct (body w1) as [[[a |] | e |] w2] eqn:Hrun; try done.
  apply (preserves_env _ _ _ _ Hbody) in Hrun. apply IH; lia.
Qed.

Lemma while_True_consumes {A} (body : M (option A)) :
  preserves body ->
  forall fuel w a w',
    while_True body fuel w = (Ok a, w') -> length (env w') < length (env w).
Proof.
  intros Hbody. induction fuel as [| fuel IH]; intros w a w' Hrun;
    simpl in Hrun; [done |].
  unfold bind at 1 in Hrun.
  destruct (wait w) as [[[] | e |] w1] eqn:Hwait; try done.
  apply wait_consumes in Hwait. unfold bind in Hrun.
  destruct (body w1) as [[[b |] | e |] w2] eqn:Hbodyrun; try done.
  - apply (preserves_env _ _ _ _ Hbody) in Hbodyrun.
    unfold ret in Hrun. simplify_eq. lia.
  - apply (preserves_env _ _ _ _ Hbody) in Hbodyrun.
    apply IH in Hrun. lia.
Qed.

Lemma send_response_consumes serialized_response w w' :
  _send_response serialized_response w = (Ok true, w') ->
  length (env w') < length (env w).
Proof.
  unfold _send_response. cbv [bind get id]. simpl.
  destruct (bool_decide (client (st w) = _CANCELLED) || statused (st w));
    [done |].
  destruct (initial_metadata_allowed (st w));
    cbv [modify ret start_server_batch due_add with_st with_call]; simpl;
    unfold wait_until; intros Hrun;
    apply while_True_consumes in Hrun; auto using preserves_send_response_look;
    by destruct w.
Qed.

Lemma stream_responses_fuel request_deserializer response_serializer :
  forall fuel1 fuel2 response_iterator w,
    length (env w) < fuel1 -> length (env w) < fuel2 ->
    stream_responses fuel1 request_deserializer response_serializer
      response_iterator w
    = stream_responses fuel2 request_deserializer response_serializer
        response_iterator w.
Proof.
  induction fuel1 as [| fuel1 IH]; intros fuel2 g w H1 H2; [lia |].
  destruct fuel2 as [| fuel2]; [lia |]. simpl. unfold bind.
  destruct (_take_response_from_response_iterator request_deserializer g w)
    as [[[[[response g'] |] []] | e |] w1] eqn:Htake; try done.
  apply (preserves_env _ _ _ _ (preserves_take_response _ _)) in Htake.
  destruct (_serialize_response response response_serializer w1)
    as [[[serialized |] | e |] w2] eqn:Hser; try done.
  apply (preserves_env _ _ _ _ (preserves_serialize_response _ _)) in Hser.
  destruct (released w2) as [[[] | e |] w2'] eqn:Hreleased; try done.
  apply (preserves_env _ _ _ _ preserves_released) in Hreleased.
  destruct (_send_response serialized w2') as [[[] | e |] w3] eqn:Hsend;
    try done.
  apply send_response_consumes in Hsend. apply IH; lia.
Qed.

End Fuel.

(** ** Retirement of a call *)

Section Retirement.
Context {common : grpc_common}.

(** C5: for a token of the due set, [_possibly_finish_call] removes it and
    returns the state with its callbacks, leaving [None] in their place,
    exactly when the due set is then empty and the client is cancelled or the
    call is statused; otherwise it returns [(None, ())] and leaves the
    callbacks where they are. *)
Theorem possibly_finish_call_retires_iff (w : World) (token : string) :
  token ∈ due (st w) ->
  exists r w',
    _possibly_finish_call token w = (Ok r, w')
    /\ due (st w') = due (st w) ∖ {[token]}
    /\ (is_Some r.1 <->
        due (st w) ∖ {[token]} = ∅
        /\ (client (st w) = _CANCELLED \/ statused (st w) = true))
    /\ (is_Some r.1 ->
        r = (Some (addr_of_state w), callbacks (st w))
        /\ callbacks (st w') = None)
    /\ (~ is_Some r.1 ->
        r = (None, Some []) /\ callbacks (st w') = callbacks (st w)).
Proof.
  intros Hdue. destruct w as [s a c n e f i]; simpl in *.
  unfold _possibly_finish_call.
  cbv [bind due_remove modify get the_state ret with_st id]. simpl.
  rewrite decide_True by done. simpl.
  destruct (client s) eqn:Hclient, (statused s) eqn:Hstatused; simpl;
    try case_bool_decide; simpl;
    eexists _, _; (split; [reflexivity |]); simpl;
    (split; [done |]);
    repeat split; intros;
    repeat match goal with
           | H : is_Some None |- _ => by destruct H
           | H : ~ is_Some (Some _) |- _ => by destruct H
           | H : _ /\ _ |- _ => destruct H
           | H : _ \/ _ |- _ => destruct H
           end;
    try done; eauto.
Qed.

(** C9: [add_callback] returns [False] and changes nothing when the
    callbacks have been taken ([None]), and otherwise appends the callback and
    returns [True]; once [_possibly_finish_call] has retired the call,
    whatever operations follow, [add_callback] returns [False] and changes
    nothing. *)
Theorem add_callback_after_retirement (callback : Callback) :
  (forall w,
     Context_add_callback callback w =
       match callbacks (st w) with
       | None => (Ok false, w)
       | Some cbs =>
           (Ok true, with_st (set_callbacks (Some (cbs ++ [callback]))) w)
       end)
  /\ (forall w token self cbs w',
        _possibly_finish_call token w = (Ok (Some self, cbs), w') ->
        forall ops,
          Context_add_callback callback (run_ops ops w')
          = (Ok false, run_ops ops w')).
Proof.
  assert (Hspec : forall w,
     Context_add_callback callback w =
       match callbacks (st w) with
       | None => (Ok false, w)
       | Some cbs =>
           (Ok true, with_st (set_callbacks (Some (cbs ++ [callback]))) w)
       end).
  { intros w. unfold Context_add_callback. cbv [bind get id]. simpl.
    by destruct (callbacks (st w)). }
  split; [exact Hspec |].
  intros w token self cbs w' Hfinish ops.
  assert (Hnone : callbacks (st w') = None).
  { destruct w as [s a c n e f i]. unfold _possibly_finish_call in Hfinish.
    cbv [bind due_remove modify get the_state ret with_st id] in Hfinish.
    simpl in Hfinish. repeat case_match; simplify_eq; done. }
  rewrite Hspec.
  by rewrite (evolves_callbacks _ _ (run_ops_evolves ops w') Hnone).
Qed.

End Retirement.

(** ** The client field, initial metadata, and the default status *)

Section Fields.
Context {common : grpc_common}.

(** C7: [state.client] starts [_OPEN]; an operation of the module leaves it
    as it is, or moves it from [_OPEN] to [_CLOSED], or from [_OPEN] or
    [_CLOSED] to [_CANCELLED]; the same holds of any run of operations, and
    after [_CANCELLED] no run of operations changes it.  A cancelled
    receive-close moves it to [_CANCELLED] also from [_CLOSED]. *)
Theorem client_only_moves_forward :
  client _RPCState = _OPEN
  /\ (forall op w,
        client (st (run_op op w)) = client (st w)
        \/ (client (st w) = _OPEN /\ client (st (run_op op w)) = _CLOSED)
        \/ (client (st w) <> _CANCELLED
            /\ client (st (run_op op w)) = _CANCELLED))
  /\ (forall ops w,
        client (st (run_ops ops w)) = client (st w)
        \/ (client (st w) = _OPEN /\ client (st (run_ops ops w)) = _CLOSED)
        \/ (client (st w) <> _CANCELLED
            /\ client (st (run_ops ops w)) = _CANCELLED))
  /\ (forall ops w,
        client (st (run_ops ops (with_st (set_client _CANCELLED) w)))
        = _CANCELLED)
  /\ (forall t m w,
        client (st (exec (receive_close_on_server (mkEvent t true m))
                      (with_st (set_client _CLOSED) w)))
        = _CANCELLED).
Proof.
  assert (Hmoves : forall c c',
            client_moves c c' ->
            c' = c \/ (c = _OPEN /\ c' = _CLOSED)
            \/ (c <> _CANCELLED /\ c' = _CANCELLED)).
  { intros c c' [-> | Hstep]; [by left |].
    inversion Hstep; subst; right; [left | right | right]; done. }
  split; [reflexivity |].
  split; [intros op w; apply Hmoves, (evolves_client _ _ (run_op_evolves op w)) |].
  split; [intros ops w; apply Hmoves, (evolves_client _ _ (run_ops_evolves ops w)) |].
  split.
  - intros ops w.
    pose proof (evolves_client _ _
                  (run_ops_evolves ops (with_st (set_client _CANCELLED) w))) as H.
    by apply client_moves_from_cancelled in H.
  - intros t m [s a c n e f i].
    unfold receive_close_on_server, _possibly_finish_call.
    run_atomic; done.
Qed.

(** C8: [context.send_initial_metadata] raises a new [RpcError] when the
    client is cancelled, raises [ValueError] when the client is not cancelled
    and initial metadata is no longer allowed, and otherwise starts the send,
    forbids initial metadata from then on and adds the token to the due set.
    After a call that succeeded, whatever operations follow, every further
    call raises. *)
Theorem send_initial_metadata_at_most_once
    (initial_metadata : option Metadata) (w : World) :
  (client (st w) = _CANCELLED ->
     exists w',
       Context_send_initial_metadata initial_metadata w
       = (Raise (RpcError (next_addr w)), w')
       /\ the_call w' = the_call w
       /\ initial_metadata_allowed (st w') = initial_metadata_allowed (st w))
  /\ (client (st w) <> _CANCELLED ->
      initial_metadata_allowed (st w) = false ->
      Context_send_initial_metadata initial_metadata w
      = (Raise (ValueError "Initial metadata no longer allowed!"), w))
  /\ (client (st w) <> _CANCELLED ->
      initial_metadata_allowed (st w) = true ->
      exists w',
        Context_send_initial_metadata initial_metadata w = (Ok tt, w')
        /\ batches (the_call w')
           = batches (the_call w)
             ++ [([SendInitialMetadataOperation initial_metadata _EMPTY_FLAGS],
                  _send_initial_metadata)]
        /\ initial_metadata_allowed (st w') = false
        /\ due (st w') = {[_SEND_INITIAL_METADATA_TOKEN]} ∪ due (st w))
  /\ (forall w',
        Context_send_initial_metadata initial_metadata w = (Ok tt, w') ->
        forall ops initial_metadata',
          is_Raise
            (Context_send_initial_metadata initial_metadata' (run_ops ops w')).1
          = true).
Proof.
  assert (Hraises : forall md v,
            initial_metadata_allowed (st v) = false ->
            is_Raise (Context_send_initial_metadata md v).1 = true).
  { intros md [s a c n e f i] Hv. simpl in Hv. unfold Context_send_initial_metadata,
      _raise_rpc_error.
    cbv [bind get modify raise new_RpcError with_st id]. simpl.
    rewrite Hv. by case_bool_decide. }
  destruct w as [s a c n e f i]; simpl.
  unfold Context_send_initial_metadata, _raise_rpc_error.
  repeat split.
  - intros Hc. cbv [bind get modify raise new_RpcError with_st id]. simpl.
    rewrite bool_decide_eq_true_2 by done. simpl. by eexists.
  - intros Hc Hallowed. cbv [bind get id]. simpl.
    rewrite bool_decide_eq_false_2 by done. by rewrite Hallowed.
  - intros Hc Hallowed.
    cbv [bind get modify start_server_batch due_add with_st with_call id].
    simpl. rewrite bool_decide_eq_false_2 by done. rewrite Hallowed. simpl.
    by eexists.
  - intros w' Hok ops md'. apply Hraises.
    apply (evolves_initial_metadata _ _ (run_ops_evolves ops w')).
    revert Hok.
    cbv [bind get modify raise new_RpcError start_server_batch due_add
         with_st with_call id]. simpl.
    repeat case_match; intros; simplify_eq; done.
Qed.

(** C10: when [state.code] is [None], [_status] starts no send-status
    operation for a cancelled client, and otherwise starts one batch whose
    status has code [ok] and, when [state.details] is [None], empty details;
    it then latches [statused]. *)
Theorem status_defaults_to_ok (serialized_response : option bytes) (w : World) :
  code (st w) = None ->
  statuses (exec (_status serialized_response) w)
  = statuses w
    ++ (if bool_decide (client (st w) = _CANCELLED) then []
        else [(ok, match details (st w) with None => "" | Some d => d end)])
  /\ (client (st w) <> _CANCELLED ->
      statused (st (exec (_status serialized_response) w)) = true
      /\ exists more,
          batches (the_call (exec (_status serialized_response) w))
          = batches (the_call w)
            ++ [(SendStatusFromServerOperation (trailing_metadata (st w)) ok
                   (match details (st w) with None => "" | Some d => d end)
                   _EMPTY_FLAGS :: more,
                 _send_status_from_server _SEND_STATUS_FROM_SERVER_TOKEN)]
          /\ omap status_of more = []).
Proof.
  intros Hcode. destruct w as [s a c n e f i]; simpl in *.
  unfold _status, statuses, _completion_code, _details.
  cbv [exec bind get modify start_server_batch due_add with_st with_call id].
  simpl. rewrite Hcode.
  destruct (decide (client s = _CANCELLED)) as [Hc | Hc].
  - rewrite (bool_decide_eq_false_2 (client s <> _CANCELLED)) by tauto.
    rewrite bool_decide_eq_true_2 by done. simpl.
    split; [by rewrite app_nil_r | done].
  - rewrite (bool_decide_eq_true_2 (client s <> _CANCELLED)) by done.
    rewrite bool_decide_eq_false_2 by done. simpl.
    split.
    + rewrite flat_map_app. simpl. rewrite app_nil_r.
      by destruct (initial_metadata_allowed s), serialized_response.
    + intros _. split; [done |]. eexists. split; [reflexivity |].
      by destruct (initial_metadata_allowed s), serialized_response.
Qed.

End Fields.

(** ** What the serving thread leaves alone *)

Section ServingThread.
Context {common : grpc_common}.

Lemma released_ok w : released w = (Ok tt, exec released w).
Proof. unfold exec, released. by destruct (env w). Qed.

Lemma bind_released {A} (k : unit -> M A) w :
  bind released k w = k tt (exec released w).
Proof. unfold bind. by rewrite released_ok. Qed.

(** The serving thread writes none of the fields that the methods of the
    context write for the application. *)
Lemma serve_event_application_fields event w :
  code (st (exec (serve_event event) w)) = code (st w)
  /\ details (st (exec (serve_event event) w)) = details (st w)
  /\ abortion (st (exec (serve_event event) w)) = abortion (st w)
  /\ rpc_errors (st (exec (serve_event event) w)) = rpc_errors (st w).
Proof.
  destruct w as [s a c n e f i], event as [t cancelled message].
  unfold serve_event, call_tag, send_status_from_server,
    receive_close_on_server, receive_message, send_initial_metadata,
    send_message, _abort, _possibly_finish_call.
  destruct t; run_atomic; done.
Qed.

Lemma serve_events_application_fields events w :
  code (st (serve_events events w)) = code (st w)
  /\ details (st (serve_events events w)) = details (st w)
  /\ abortion (st (serve_events events w)) = abortion (st w)
  /\ rpc_errors (st (serve_events events w)) = rpc_errors (st w).
Proof.
  revert w. induction events as [| event rest IH]; intros w; simpl; [done |].
  pose proof (serve_event_application_fields event w) as (Hc & Hd & Ha & Hr).
  unfold exec in *.
  destruct (serve_event event w) as [[r | e |] w']; simpl in *.
  - destruct (IH w') as (Hc' & Hd' & Ha' & Hr'). repeat split; congruence.
  - by destruct w'.
  - by destruct w'.
Qed.

Lemma released_application_fields w :
  code (st (exec released w)) = code (st w)
  /\ details (st (exec released w)) = details (st w)
  /\ abortion (st (exec released w)) = abortion (st w)
  /\ rpc_errors (st (exec released w)) = rpc_errors (st w).
Proof.
  unfold exec, released. destruct (env w) as [| events rest]; simpl; [done |].
  destruct (serve_events_application_fields events (with_env rest w))
    as (Hc & Hd & Ha & Hr).
  by destruct w.
Qed.

(** A cancelled client stays cancelled. *)
Lemma released_cancelled w :
  client (st w) = _CANCELLED -> client (st (exec released w)) = _CANCELLED.
Proof.
  intros Hc. pose proof (evolves_client _ _ (preserves_released w)) as H.
  rewrite Hc in H. by apply client_moves_from_cancelled in H.
Qed.

(** What [_abort] sends and leaves. *)
Lemma abort_spec a_code a_details w :
  exists w',
    _abort a_code a_details w = (Ok tt, w')
    /\ statuses w'
       = statuses w
         ++ (if bool_decide (client (st w) = _CANCELLED) then []
             else [(_abortion_code (st w) a_code,
                    match details (st w) with
                    | None => a_details
                    | Some d => d
                    end)])
    /\ messages w' = messages w
    /\ code (st w') = code (st w)
    /\ details (st w') = details (st w)
    /\ (client (st w) = _CANCELLED -> w' = w).
Proof.
  destruct w as [s a c n e f i]. unfold _abort, statuses, messages.
  cbv [bind get modify ret start_server_batch due_add with_st with_call id].
  simpl. destruct (decide (client s = _CANCELLED)) as [Hc | Hc].
  - rewrite (bool_decide_eq_false_2 (client s <> _CANCELLED)) by tauto.
    rewrite bool_decide_eq_true_2 by done.
    eexists. split; [reflexivity |]. by rewrite app_nil_r.
  - rewrite (bool_decide_eq_true_2 (client s <> _CANCELLED)) by done.
    rewrite bool_decide_eq_false_2 by done.
    destruct (initial_metadata_allowed s); simpl;
      (eexists; split; [reflexivity |]); simpl; rewrite !flat_map_app; simpl;
      rewrite ?app_nil_r; done.
Qed.

End ServingThread.

(** ** Aborting with the success code *)

Section Abortion.
Context {common : grpc_common}.

Lemma run_script_bind {A B} request_deserializer (s : Script A)
    (k : A -> Script B) w :
  run_script request_deserializer (script_bind s k) w
  = bind (run_script request_deserializer s)
      (fun a => run_script request_deserializer (k a)) w.
Proof.
  revert w. induction s as [a | e | c k' IH]; intros w; simpl; try done.
  set (m := released >> ctx_call request_deserializer c).
  unfold bind.
  by destruct (m w) as [[v | e |] w'] eqn:Hcall; rewrite ?IH.
Qed.

(** One step of application code: a context call, taken after whatever the
    serving thread does first. *)
Lemma run_script_Do {A} request_deserializer c (k : Res CtxVal -> Script A)
    w r w' :
  ctx_call request_deserializer c (exec released w) = (r, w') ->
  r <> Blocked ->
  run_script request_deserializer (Do c k) w
  = run_script request_deserializer (k r) w'.
Proof.
  intros Hcall Hr. simpl. unfold bind. rewrite released_ok, Hcall.
  by destruct r.
Qed.

(** C6: [context.abort(StatusCode.OK, details)] latches code [UNKNOWN] and
    empty details, stores a new exception in [state.abortion] and raises it.
    When application code calls it after any beginning that returned, and
    does not catch what it raises, [_call_behavior] returns [(None, False)],
    code and details are still latched, and the [except] clause, which
    takes the lock after whatever the serving thread has done since the
    raise, has started one send-status operation, with code [unknown] and
    empty details, unless the client is cancelled by then.  This holds for
    every schedule of the serving thread.  The table of [grpc._common] is
    taken to send [UNKNOWN] to [unknown], and [encode] to send the empty
    text to the empty bytes. *)
Theorem abort_with_OK_is_UNKNOWN (a_details : text) :
  encode "" = "" ->
  STATUS_CODE_TO_CYGRPC_STATUS_CODE UNKNOWN = Some unknown ->
  (forall w,
     exists w',
       Context_abort (A := CtxVal) OK a_details w
       = (Raise (Exception (next_addr w)), w')
       /\ code (st w') = Some UNKNOWN
       /\ details (st w') = Some ""
       /\ abortion (st w') = Some (Exception (next_addr w))
       /\ the_call w' = the_call w)
  /\ (forall R (behavior : Argument -> Script R) argument request_deserializer
        (beginning : Script unit) k w w1,
        behavior argument
        = script_bind beginning (fun _ => Do (ctx_abort OK a_details) k) ->
        unwinding k ->
        run_script request_deserializer beginning
          (exec (record_invocation argument) w) = (Ok tt, w1) ->
        let w2 :=
          exec released
            (exec (Context_abort (A := CtxVal) OK a_details)
               (exec released w1)) in
        exists w',
          _call_behavior behavior argument request_deserializer w
          = (Ok (None, false), w')
          /\ code (st w') = Some UNKNOWN
          /\ details (st w') = Some ""
          /\ statuses w'
             = statuses w2
               ++ (if bool_decide (client (st w2) = _CANCELLED) then []
                   else [(unknown, "")])).
Proof.
  intros Hencode Htable.
  assert (Habort : forall w,
     Context_abort (A := CtxVal) OK a_details w
     = (Raise (Exception (next_addr w)),
        exec (Context_abort (A := CtxVal) OK a_details) w)
     /\ code (st (exec (Context_abort (A := CtxVal) OK a_details) w))
        = Some UNKNOWN
     /\ details (st (exec (Context_abort (A := CtxVal) OK a_details) w))
        = Some ""
     /\ abortion (st (exec (Context_abort (A := CtxVal) OK a_details) w))
        = Some (Exception (next_addr w))
     /\ the_call (exec (Context_abort (A := CtxVal) OK a_details) w)
        = the_call w).
  { intros [s a c n e f i]. unfold exec, Context_abort.
    cbv [bind get modify raise new_Exception with_st id]. simpl.
    by rewrite Hencode. }
  split.
  - intros w. destruct (Habort w) as (Hrun & Hrest). rewrite Hrun.
    by eexists.
  - intros R behavior argument request_deserializer beginning k w w1
      Hbehavior Hk Hbeginning w2.
    unfold _call_behavior, try_except. unfold bind at 1.
    unfold exec in Hbeginning.
    destruct (record_invocation argument w) as [r0 w0] eqn:Hrec.
    assert (r0 = Ok tt) as -> by (unfold record_invocation in Hrec; congruence).
    simpl in Hbeginning.
    unfold bind at 1. rewrite Hbehavior, run_script_bind.
    unfold bind at 1. rewrite Hbeginning.
    destruct (Habort (exec released w1)) as (Hrun & Hc & Hd & Ha & _).
    rewrite (run_script_Do request_deserializer (ctx_abort OK a_details) k
               w1 _ _ Hrun) by done.
    rewrite Hk. simpl. unfold bind at 1. rewrite released_ok. fold w2.
    destruct (released_application_fields
                (exec (Context_abort (A := CtxVal) OK a_details)
                   (exec released w1))) as (Hc2 & Hd2 & Ha2 & _).
    fold w2 in Hc2, Hd2, Ha2. rewrite Hc in Hc2. rewrite Hd in Hd2.
    rewrite Ha in Ha2.
    unfold abort_on_exception. cbv [bind get id]. simpl.
    rewrite Ha2. rewrite bool_decide_eq_true_2 by done.
    destruct (abort_spec unknown "RPC Aborted" w2)
      as (w' & -> & Hst & _ & Hc' & Hd' & _).
    exists w'. split; [reflexivity |]. rewrite Hc', Hd', Hst, Hc2, Hd2.
    unfold _abortion_code, _application_code. rewrite Hc2, Htable.
    done.
Qed.

End Abortion.

(** ** Request assembly of a unary request *)

Section UnaryRequest.
Context {common : grpc_common}.

(** The serving thread never writes [state.code] or [state.details]. *)
Lemma serve_event_code_details event w :
  code (st (exec (serve_event event) w)) = code (st w)
  /\ details (st (exec (serve_event event) w)) = details (st w).
Proof.
  destruct w as [s a c n e f i], event as [t cancelled message].
  unfold serve_event, call_tag, send_status_from_server,
    receive_close_on_server, receive_message, send_initial_metadata,
    send_message, _abort, _possibly_finish_call.
  destruct t; run_atomic; done.
Qed.

Lemma serve_events_code_details events w :
  code (st (serve_events events w)) = code (st w)
  /\ details (st (serve_events events w)) = details (st w).
Proof.
  revert w. induction events as [| event rest IH]; intros w; simpl; [done |].
  pose proof (serve_event_code_details event w) as [Hc Hd]. unfold exec in *.
  destruct (serve_event event w) as [[r | e |] w']; simpl in *.
  - destruct (IH w') as [Hc' Hd']. split; congruence.
  - by destruct w'.
  - by destruct w'.
Qed.

Lemma wait_code_details w r w' :
  wait w = (r, w') ->
  code (st w') = code (st w) /\ details (st w') = details (st w).
Proof.
  unfold wait. destruct (env w) as [| events rest]; intros H; simplify_eq.
  - done.
  - destruct (serve_events_code_details events (with_env rest w)) as [Hc Hd].
    by destruct w.
Qed.

Lemma abort_statuses a_code a_details w :
  code (st w) = None -> details (st w) = None ->
  client (st w) <> _CANCELLED ->
  statuses (exec (_abort a_code a_details) w)
  = statuses w ++ [(a_code, a_details)].
Proof.
  intros Hcode Hdetails Hclient. destruct w as [s a c n e f i]; simpl in *.
  unfold _abort, _abortion_code, statuses.
  cbv [exec bind get modify ret start_server_batch due_add with_st with_call id].
  simpl. rewrite bool_decide_eq_true_2 by done. rewrite Hcode, Hdetails.
  destruct (initial_metadata_allowed s); simpl; by rewrite flat_map_app.
Qed.

(** One wake-up of [unary_request]. *)
Lemma unary_request_look_spec rpc_event w :
  request (st w) = None ->
  unary_request_look rpc_event w
  = match client (st w) with
    | _CLOSED =>
        (Ok (Some None),
         exec (_abort unimplemented
                 (encode (exactly_one_request_message rpc_event))) w)
    | _CANCELLED => (Ok (Some None), w)
    | _OPEN => (Ok None, w)
    end.
Proof.
  intros Hrequest. unfold unary_request_look, exactly_one_request_message.
  cbv [bind get id exec]. simpl. rewrite Hrequest.
  destruct (client (st w)) eqn:Hclient; simpl; try done.
  unfold ret.
  by destruct (_abort _ _ w) as [[[] | e |] w'] eqn:Habort;
    [| unfold _abort in Habort; revert Habort;
       cbv [bind get modify ret start_server_batch due_add with_st with_call id];
       simpl; repeat case_match; intros; simplify_eq ..].
Qed.

(** The wake-ups of [unary_request] that return no request. *)
Lemma unary_request_wait_spec rpc_event fuel :
  forall w r w',
    code (st w) = None -> details (st w) = None ->
    while_True (unary_request_look rpc_event) fuel w = (r, w') ->
    r = Ok None ->
    exists n w_wake,
      waits (S n) w = (Ok tt, w_wake)
      /\ request (st w_wake) = None
      /\ ((client (st w_wake) = _CANCELLED /\ w' = w_wake)
          \/ (client (st w_wake) = _CLOSED
              /\ w' = exec (_abort unimplemented
                              (encode (exactly_one_request_message rpc_event)))
                        w_wake
              /\ statuses w'
                 = statuses w_wake
                   ++ [(unimplemented,
                        encode (exactly_one_request_message rpc_event))])).
Proof.
  induction fuel as [| fuel IH]; intros w r w' Hcode Hdetails Hrun ->;
    simpl in Hrun; [by simplify_eq |].
  unfold bind at 1 in Hrun.
  destruct (wait w) as [[[] | e |] w1] eqn:Hwait; simplify_eq.
  destruct (wait_code_details _ _ _ Hwait) as [Hcode1 Hdetails1].
  rewrite Hcode in Hcode1. rewrite Hdetails in Hdetails1.
  unfold bind at 1 in Hrun.
  destruct (request (st w1)) as [request_ |] eqn:Hrequest.
  - unfold unary_request_look in Hrun. cbv [bind get modify ret id] in Hrun.
    simpl in Hrun. rewrite Hrequest in Hrun. simplify_eq.
  - rewrite (unary_request_look_spec _ _ Hrequest) in Hrun.
    destruct (client (st w1)) eqn:Hclient.
    + destruct (IH _ _ _ Hcode1 Hdetails1 Hrun eq_refl)
        as (n & w_wake & Hwaits & Hrest).
      exists (S n), w_wake. split; [| done].
      change (waits (S (S n))) with (bind wait (fun _ => waits (S n))).
      unfold bind at 1. by rewrite Hwait.
    + assert (w' = exec (_abort unimplemented
                              (encode (exactly_one_request_message rpc_event)))
                        w1) as -> by (unfold ret in Hrun; congruence).
      exists 0%nat, w1. split; [| split; [done |]].
      * simpl. unfold bind, ret. by rewrite Hwait.
      * right. split; [done |]. split; [done |].
        apply abort_statuses; [done .. |]. by rewrite Hclient.
    + assert (w' = w1) as -> by (unfold ret in Hrun; congruence).
      exists 0%nat, w1. split; [| split; [done |]].
      * simpl. unfold bind, ret. by rewrite Hwait.
      * by left.
Qed.

Lemma string_append_assoc (s1 s2 s3 : string) :
  (s1 +:+ s2) +:+ s3 = s1 +:+ (s2 +:+ s3).
Proof.
  induction s1 as [| c s1 IH]; [done |].
  change (String c ((s1 +:+ s2) +:+ s3) = String c (s1 +:+ (s2 +:+ s3))).
  by rewrite IH.
Qed.

(** Neither the serving thread nor [unary_request] invokes a behaviour. *)
Lemma serve_events_invoked events w :
  invoked (serve_events events w) = invoked w.
Proof.
  revert w. induction events as [| event rest IH]; intros w; simpl; [done |].
  assert (Hev : invoked (serve_event event w).2 = invoked w).
  { destruct w as [s a c n e f i], event as [t cancelled message].
    unfold serve_event, call_tag, send_status_from_server,
      receive_close_on_server, receive_message, send_initial_metadata,
      send_message, _abort, _possibly_finish_call.
    destruct t; run_atomic; done. }
  destruct (serve_event event w) as [[r | e |] w']; simpl in *.
  - by rewrite IH.
  - by destruct w'.
  - by destruct w'.
Qed.

Lemma wait_invoked w : invoked (wait w).2 = invoked w.
Proof.
  unfold wait. destruct (env w) as [| events rest]; simpl; [done |].
  rewrite serve_events_invoked. by destruct w.
Qed.

Lemma unary_request_invoked rpc_event request_deserializer w :
  invoked (unary_request rpc_event request_deserializer w).2 = invoked w.
Proof.
  assert (Hlook : forall v, invoked (unary_request_look rpc_event v).2 = invoked v).
  { intros [s a c n e f i]. unfold unary_request_look, _abort.
    run_atomic; done. }
  assert (Hloop : forall fuel v,
            invoked (while_True (unary_request_look rpc_event) fuel v).2
            = invoked v).
  { induction fuel as [| fuel IH]; intros v; simpl; [done |].
    unfold bind at 1. pose proof (wait_invoked v) as Hw.
    destruct (wait v) as [[[] | e |] v1]; simpl in *; try done.
    unfold bind at 1. pose proof (Hlook v1) as Hl.
    destruct (unary_request_look rpc_event v1) as [[[r |] | e |] v2];
      simpl in *; rewrite ?IH; congruence. }
  unfold unary_request. cbv [bind get id]. simpl.
  destruct (bool_decide (client (st w) = _CANCELLED) || statused (st w));
    [done |].
  unfold wait_until. rewrite Hloop. by destruct w.
Qed.

Lemma waits_S n w :
  waits (S n) w
  = match wait w with
    | (Ok _, w1) => waits n w1
    | (Raise e, w1) => (Raise e, w1)
    | (Blocked, w1) => (Blocked, w1)
    end.
Proof. reflexivity. Qed.

Lemma waits_code_details n : forall w w',
  waits n w = (Ok tt, w') ->
  code (st w') = code (st w) /\ details (st w') = details (st w).
Proof.
  induction n as [| n IH]; intros w w' Hrun.
  - simpl in Hrun. unfold ret in Hrun. by simplify_eq.
  - rewrite waits_S in Hrun.
    destruct (wait w) as [[[] | e |] w1] eqn:Hwait; simplify_eq.
    destruct (wait_code_details _ _ _ Hwait) as [Hc Hd].
    destruct (IH _ _ Hrun) as [Hc' Hd']. split; congruence.
Qed.

(** The wake-ups of [unary_request] until the first one that finds the
    client closed or cancelled, all without a request: the loop returns
    [None] there, after [_abort] if the client is closed. *)
Lemma unary_request_loop rpc_event n : forall fuel w w_wake,
  length (env w) < fuel ->
  (forall k, 1 <= k <= n ->
     exists v,
       waits k w = (Ok tt, v) /\ request (st v) = None
       /\ client (st v) = _OPEN) ->
  waits (S n) w = (Ok tt, w_wake) ->
  request (st w_wake) = None ->
  client (st w_wake) <> _OPEN ->
  while_True (unary_request_look rpc_event) fuel w
  = (Ok None,
     if bool_decide (client (st w_wake) = _CLOSED)
     then exec (_abort unimplemented
                  (encode (exactly_one_request_message rpc_event))) w_wake
     else w_wake).
Proof.
  induction n as [| n IH]; intros fuel w w_wake Hfuel Hquiet Hwake Hrequest
    Hclient; (destruct fuel as [| fuel]; [lia |]);
    rewrite waits_S in Hwake;
    destruct (wait w) as [[[] | e |] w1] eqn:Hwait; simplify_eq;
    simpl; unfold bind at 1; rewrite Hwait; unfold bind at 1.
  - simpl in Hwake. unfold ret in Hwake. simplify_eq.
    rewrite (unary_request_look_spec _ _ Hrequest).
    by destruct (client (st w_wake)).
  - destruct (Hquiet 1) as (v & Hv & Hrequest1 & Hclient1); [lia |].
    rewrite waits_S, Hwait in Hv. simpl in Hv. unfold ret in Hv.
    simplify_eq.
    rewrite (unary_request_look_spec _ _ Hrequest1), Hclient1.
    apply IH; try done.
    + apply wait_consumes in Hwait. lia.
    + intros k Hk. destruct (Hquiet (S k)) as (u & Hu & Hrest); [lia |].
      rewrite waits_S, Hwait in Hu. by exists u.
Qed.

(** C3: the details of the status say that exactly one request message is
    required.  [unary_request] returns [None] at once, and starts nothing,
    for a cancelled client.  Otherwise it starts a receive and sleeps; as
    long as it wakes up with no request and the client open it sleeps again.
    When it then wakes up with no request and the client closed, it starts
    one send-status operation, with code [unimplemented] and these details
    in a call whose code and details are not set, and returns [None]; when
    it wakes up with no request and the client cancelled, it returns [None]
    and starts nothing.  In both cases no behaviour has been invoked, and
    when [unary_request] returns [None], [_unary_response_in_pool] and
    [_stream_response_in_pool] stop there, whatever the behaviour and
    whatever the serving thread did before they called it.  Code and
    details are not set in a new call, whatever events are served. *)
Theorem unary_request_without_message
    (rpc_event : RpcEvent) (request_deserializer : Deserializer) :
  let a_details := encode (exactly_one_request_message rpc_event) in
  let receiving :=
    exec (start_server_batch [ReceiveMessageOperation _EMPTY_FLAGS]
            (_receive_message request_deserializer) >>
          due_add _RECEIVE_MESSAGE_TOKEN) in
  occurs_in "requires exactly one request message"
    (exactly_one_request_message rpc_event)
  /\ (forall w,
        client (st w) = _CANCELLED ->
        unary_request rpc_event request_deserializer w = (Ok None, w))
  /\ (forall w n w_wake,
        client (st w) <> _CANCELLED -> statused (st w) = false ->
        (forall k, 1 <= k <= n ->
           exists v,
             waits k (receiving w) = (Ok tt, v) /\ request (st v) = None
             /\ client (st v) = _OPEN) ->
        waits (S n) (receiving w) = (Ok tt, w_wake) ->
        request (st w_wake) = None ->
        (client (st w_wake) = _CLOSED ->
         exists w',
           unary_request rpc_event request_deserializer w = (Ok None, w')
           /\ batches (the_call w')
              = batches (the_call w_wake)
                ++ [((if initial_metadata_allowed (st w_wake)
                      then [SendInitialMetadataOperation None _EMPTY_FLAGS]
                      else [])
                     ++ [SendStatusFromServerOperation
                           (trailing_metadata (st w_wake))
                           (_abortion_code (st w_wake) unimplemented)
                           (match details (st w_wake) with
                            | None => a_details
                            | Some d => d
                            end) _EMPTY_FLAGS],
                     _send_status_from_server
                       (if initial_metadata_allowed (st w_wake)
                        then _SEND_INITIAL_METADATA_AND_SEND_STATUS_FROM_SERVER_TOKEN
                        else _SEND_STATUS_FROM_SERVER_TOKEN))]
           /\ (code (st w) = None -> details (st w) = None ->
               statuses w' = statuses w_wake ++ [(unimplemented, a_details)])
           /\ invoked w' = invoked w)
        /\ (client (st w_wake) = _CANCELLED ->
            unary_request rpc_event request_deserializer w = (Ok None, w_wake)
            /\ invoked w_wake = invoked w))
  /\ (forall (unary_behavior : UnaryBehavior)
        (stream_behavior : StreamBehavior) response_serializer w0 w',
        unary_request rpc_event request_deserializer (exec released w0)
        = (Ok None, w') ->
        _unary_response_in_pool unary_behavior
          (run_thunk (thunk_unary_request rpc_event request_deserializer))
          request_deserializer response_serializer w0
        = (Ok tt, w')
        /\ _stream_response_in_pool stream_behavior
             (run_thunk (thunk_unary_request rpc_event request_deserializer))
             request_deserializer response_serializer w0
           = (Ok tt, w')
        /\ invoked w' = invoked w0)
  /\ (forall addr method_handler thread_pool envs events,
        let w0 :=
          (_handle_with_method_handler addr rpc_event method_handler
             thread_pool).1 in
        code (st (serve_events events (with_env envs w0))) = None
        /\ details (st (serve_events events (with_env envs w0))) = None).
Proof.
  intros a_details receiving.
  split; [| split; [| split; [| split]]].
  - exists (double_quote +:+ format_method (method rpc_event)
              +:+ double_quote +:+ " "), ".".
    unfold exactly_one_request_message.
    by rewrite !string_append_assoc.
  - intros w Hc. unfold unary_request. cbv [bind get id]. simpl.
    by rewrite Hc.
  - intros w n w_wake Hclient Hstatused Hquiet Hwake Hrequest.
    assert (Hrun : client (st w_wake) <> _OPEN ->
              unary_request rpc_event request_deserializer w
              = (Ok None,
                 if bool_decide (client (st w_wake) = _CLOSED)
                 then exec (_abort unimplemented a_details) w_wake
                 else w_wake)).
    { intros Hopen. unfold unary_request. cbv [bind get id]. simpl.
      rewrite bool_decide_eq_false_2, Hstatused by done. simpl.
      unfold wait_until.
      apply (unary_request_loop rpc_event n); try done.
      unfold fuel_of. destruct w. simpl. lia. }
    pose proof (unary_request_invoked rpc_event request_deserializer w)
      as Hinvoked.
    split; intros Hc; rewrite Hrun in Hinvoked |- * by (by rewrite Hc).
    + rewrite bool_decide_eq_true_2 in Hinvoked |- * by done.
      eexists. split; [reflexivity |]. split; [| split; [| done]].
      * destruct w_wake as [s a c n0 e f i]. simpl in Hc |- *.
        unfold _abort.
        cbv [exec bind get modify ret start_server_batch due_add with_st
             with_call id]. simpl.
        rewrite Hc. simpl.
        by destruct (initial_metadata_allowed s).
      * intros Hcode Hdetails.
        destruct (waits_code_details _ _ _ Hwake) as [Hcode' Hdetails'].
        apply abort_statuses; [| | by rewrite Hc].
        -- rewrite Hcode'. by destruct w.
        -- rewrite Hdetails'. by destruct w.
    + rewrite bool_decide_eq_false_2 in Hinvoked |- * by (by rewrite Hc).
      done.
  - intros unary_behavior stream_behavior response_serializer w0 w' Hrun.
    unfold _unary_response_in_pool, _stream_response_in_pool, run_thunk.
    unfold bind at 1 2 3. rewrite released_ok.
    unfold bind at 1 2 3. rewrite Hrun. simpl.
    unfold bind at 1. rewrite released_ok.
    unfold bind at 1 2. rewrite Hrun. simpl.
    split; [done |]. split; [done |].
    pose proof (unary_request_invoked rpc_event request_deserializer
                  (exec released w0)) as H.
    rewrite Hrun in H. simpl in H. rewrite H.
    unfold exec, released. destruct (env w0) as [| events rest]; [done |].
    simpl. rewrite serve_events_invoked. by destruct w0.
  - intros addr method_handler thread_pool envs events w0.
    destruct (serve_events_code_details events (with_env envs w0)) as [Hc Hd].
    rewrite Hc, Hd. unfold w0, _handle_with_method_handler.
    by repeat case_match.
Qed.

End UnaryRequest.

(** ** Accepting and rejecting calls *)

Section Admission.
Context {common : grpc_common}.

Lemma reject_rpc_statuses addr status a_details :
  statuses (_reject_rpc addr status a_details) = [(status, a_details)]
  /\ invoked (_reject_rpc addr status a_details) = []
  /\ addr_of_state (_reject_rpc addr status a_details) = addr.
Proof. done. Qed.

Lemma handle_with_method_handler_world addr rpc_event method_handler thread_pool :
  exists task,
    _handle_with_method_handler addr rpc_event method_handler thread_pool
    = (exec (start_server_batch [ReceiveCloseOnServerOperation _EMPTY_FLAGS]
               _receive_close_on_server >>
             due_add _RECEIVE_CLOSE_ON_SERVER_TOKEN) (new_world addr),
       (length thread_pool, thread_pool ++ [task]))
    /\ task_state task = addr.
Proof.
  unfold _handle_with_method_handler, _handle_stream_stream,
    _handle_stream_unary, _handle_unary_stream, _handle_unary_unary, submit.
  destruct (request_streaming method_handler),
    (response_streaming method_handler); by eexists.
Qed.

(** A round of [_serve] in which [_handle_call] made a state. *)
Lemma serve_request_call_with_state event s w future thread_pool' :
  _REQUEST_CALL_TAG ∈ server_due s ->
  _handle_call (next_state s) event (generic_handlers s)
    (interceptor_pipeline s) (thread_pool s) (concurrency_exceeded_of s)
  = ((Some w, future), thread_pool') ->
  exists s',
    serve_request_call event s = inr (s', false)
    /\ thread_pool s' = thread_pool'
    /\ heap s' = <[addr_of_state w := w]> (heap s)
    /\ rpc_states s' = {[addr_of_state w]} ∪ rpc_states s
    /\ active_rpc_count s'
       = match future with
         | Some _ => (active_rpc_count s + 1)%Z
         | None => active_rpc_count s
         end.
Proof.
  intros Hdue Hhandle. unfold serve_request_call.
  rewrite decide_True by done.
  change (concurrency_exceeded_of (with_server_due _ s))
    with (concurrency_exceeded_of s).
  cbn [with_server_due generic_handlers interceptor_pipeline thread_pool
       next_state].
  rewrite Hhandle.
  destruct future as [future |]; simpl;
    (case_bool_decide; [by eexists |]);
    unfold _stop_serving; simpl;
    (rewrite (bool_decide_eq_false_2 (_ ∪ _ = ∅)) by set_solver);
    by eexists.
Qed.

(** C4: a new-call event of a successful call with a method for which a
    handler is found.  When [maximum_concurrent_rpcs] is set and
    [active_rpc_count] has reached it, the round of [_serve] rejects the call
    with [resource_exhausted]: the pool gets no task and the count of active
    calls stays.  When the limit is not exceeded the call is given to the
    pool and counted.  When [maximum_concurrent_rpcs] is [None] the limit is
    never exceeded, and no event at all leads to a [resource_exhausted]
    status. *)
Theorem admission_control (s : ServerState) (rpc_event : RpcEvent)
    (a_method : bytes) (method_handler : MethodHandler) :
  _REQUEST_CALL_TAG ∈ server_due s ->
  success rpc_event = true ->
  method rpc_event = Some a_method ->
  _find_method_handler a_method rpc_event (generic_handlers s)
    (interceptor_pipeline s) = inr (Some method_handler) ->
  (forall maximum,
     maximum_concurrent_rpcs s = Some maximum ->
     (maximum <= active_rpc_count s)%Z ->
     exists s',
       serve_request_call rpc_event s = inr (s', false)
       /\ thread_pool s' = thread_pool s
       /\ active_rpc_count s' = active_rpc_count s
       /\ heap s' !! next_state s
          = Some (_reject_rpc (next_state s) resource_exhausted
                    "Concurrent RPC limit exceeded!")
       /\ statuses (_reject_rpc (next_state s) resource_exhausted
                      "Concurrent RPC limit exceeded!")
          = [(resource_exhausted, "Concurrent RPC limit exceeded!")])
  /\ (concurrency_exceeded_of s = false ->
      exists s' task w,
        serve_request_call rpc_event s = inr (s', false)
        /\ thread_pool s' = thread_pool s ++ [task]
        /\ task_state task = next_state s
        /\ active_rpc_count s' = (active_rpc_count s + 1)%Z
        /\ heap s' !! next_state s = Some w
        /\ statuses w = [])
  /\ (maximum_concurrent_rpcs s = None ->
      concurrency_exceeded_of s = false
      /\ forall rpc_event' w future thread_pool',
          _handle_call (next_state s) rpc_event' (generic_handlers s)
            (interceptor_pipeline s) (thread_pool s)
            (concurrency_exceeded_of s)
          = ((Some w, future), thread_pool') ->
          forall a_details, (resource_exhausted, a_details) ∉ statuses w).
Proof.
  intros Hdue Hsuccess Hmethod Hfind.
  split; [| split].
  - intros maximum Hmax Hle.
    assert (Hexceeded : concurrency_exceeded_of s = true).
    { unfold concurrency_exceeded_of. rewrite Hmax.
      by apply bool_decide_eq_true. }
    destruct (serve_request_call_with_state rpc_event s
                (_reject_rpc (next_state s) resource_exhausted
                   "Concurrent RPC limit exceeded!") None (thread_pool s) Hdue)
      as (s' & Hserve & Hpool & Hheap & _ & Hactive).
    { unfold _handle_call. by rewrite Hsuccess, Hmethod, Hfind, Hexceeded. }
    exists s'. repeat split; try done.
    rewrite Hheap. apply lookup_insert_eq.
  - intros Hexceeded.
    destruct (handle_with_method_handler_world (next_state s) rpc_event
                method_handler (thread_pool s)) as (task & Hhandle & Htask).
    destruct (serve_request_call_with_state rpc_event s
                (exec (start_server_batch
                         [ReceiveCloseOnServerOperation _EMPTY_FLAGS]
                         _receive_close_on_server >>
                       due_add _RECEIVE_CLOSE_ON_SERVER_TOKEN)
                   (new_world (next_state s)))
                (Some (length (thread_pool s))) (thread_pool s ++ [task]) Hdue)
      as (s' & Hserve & Hpool & Hheap & _ & Hactive).
    { unfold _handle_call.
      by rewrite Hsuccess, Hmethod, Hfind, Hexceeded, Hhandle. }
    exists s', task,
      (exec (start_server_batch [ReceiveCloseOnServerOperation _EMPTY_FLAGS]
               _receive_close_on_server >>
             due_add _RECEIVE_CLOSE_ON_SERVER_TOKEN)
         (new_world (next_state s))).
    repeat split; try done.
    rewrite Hheap. apply lookup_insert_eq.
  - intros Hmax.
    assert (Hexceeded : concurrency_exceeded_of s = false).
    { unfold concurrency_exceeded_of. by rewrite Hmax. }
    split; [done |].
    intros rpc_event' w future thread_pool' Hhandle a_details.
    rewrite Hexceeded in Hhandle. unfold _handle_call in Hhandle.
    destruct (negb (success rpc_event')); [by simplify_eq |].
    destruct (method rpc_event') as [a_method' |]; [| by simplify_eq].
    destruct (_find_method_handler a_method' rpc_event' (generic_handlers s)
                (interceptor_pipeline s)) as [e | [method_handler' |]];
      simplify_eq;
      try (cbv [statuses]; simpl; rewrite list_elem_of_singleton; congruence).
    destruct (handle_with_method_handler_world (next_state s) rpc_event'
                method_handler' (thread_pool s)) as (task & Hw & _).
    rewrite Hw in Hhandle. simplify_eq. cbv [statuses]. simpl.
    apply not_elem_of_nil.
Qed.

(** C2 as the code has it: when the handler lookup of a new-call event
    raises, [_handle_call] rejects the call in one batch whose status has
    code [unknown] and details "Error in service handler!"; it returns no
    future, the pool gets no task and nothing is invoked. *)
Theorem lookup_failure_rejects_with_UNKNOWN (addr : nat) (rpc_event : RpcEvent)
    (a_method : bytes) (generic_handlers : list GenericHandler)
    (interceptor_pipeline : option InterceptorPipeline)
    (thread_pool : ThreadPool) (concurrency_exceeded : bool) (exception : Exn) :
  success rpc_event = true ->
  method rpc_event = Some a_method ->
  _find_method_handler a_method rpc_event generic_handlers interceptor_pipeline
  = inl exception ->
  exists w,
    _handle_call addr rpc_event generic_handlers interceptor_pipeline
      thread_pool concurrency_exceeded
    = ((Some w, None), thread_pool)
    /\ batches (the_call w)
       = [([SendInitialMetadataOperation None _EMPTY_FLAGS;
            ReceiveCloseOnServerOperation _EMPTY_FLAGS;
            SendStatusFromServerOperation None unknown
              "Error in service handler!" _EMPTY_FLAGS],
           _reject_rpc_tag)]
    /\ statuses w = [(unknown, "Error in service handler!")]
    /\ invoked w = [].
Proof.
  intros Hsuccess Hmethod Hfind. unfold _handle_call.
  rewrite Hsuccess, Hmethod, Hfind. simpl. by eexists.
Qed.

End Admission.

(** ** Terminal statuses and the [statused] latch *)

Section Latch.
Context {common : grpc_common}.


End Latch.

(** * The theorems at sample values *)

Section Samples.
Local Existing Instance sample_common.

(** [_possibly_finish_call] on the last token of a statused call. *)
Lemma possibly_finish_call_retires_iff_sample :
  _SEND_STATUS_FROM_SERVER_TOKEN ∈ due (st sample_statused_world)
  /\ exists r w',
      _possibly_finish_call _SEND_STATUS_FROM_SERVER_TOKEN sample_statused_world
      = (Ok r, w')
      /\ due (st w')
         = due (st sample_statused_world) ∖ {[_SEND_STATUS_FROM_SERVER_TOKEN]}
      /\ (is_Some r.1 <->
          due (st sample_statused_world) ∖ {[_SEND_STATUS_FROM_SERVER_TOKEN]}
          = ∅
          /\ (client (st sample_statused_world) = _CANCELLED
              \/ statused (st sample_statused_world) = true))
      /\ (is_Some r.1 ->
          r = (Some (addr_of_state sample_statused_world),
               callbacks (st sample_statused_world))
          /\ callbacks (st w') = None)
      /\ (~ is_Some r.1 ->
          r = (None, Some [])
          /\ callbacks (st w') = callbacks (st sample_statused_world)).
Proof.
  assert (H : _SEND_STATUS_FROM_SERVER_TOKEN ∈ due (st sample_statused_world))
    by (simpl; by apply elem_of_singleton).
  split; [exact H |].
  exact (possibly_finish_call_retires_iff sample_statused_world
           _SEND_STATUS_FROM_SERVER_TOKEN H).
Defined.

(** [add_callback] after the retirement of that call. *)
Lemma add_callback_after_retirement_sample :
  Context_add_callback "log"
    (run_ops [op_status None]
       (exec (_possibly_finish_call _SEND_STATUS_FROM_SERVER_TOKEN)
          sample_statused_world))
  = (Ok false,
     run_ops [op_status None]
       (exec (_possibly_finish_call _SEND_STATUS_FROM_SERVER_TOKEN)
          sample_statused_world)).
Proof.
  refine (proj2 (add_callback_after_retirement "log") sample_statused_world
            _SEND_STATUS_FROM_SERVER_TOKEN 7%nat (Some [])
            (exec (_possibly_finish_call _SEND_STATUS_FROM_SERVER_TOKEN)
               sample_statused_world) _ [op_status None]).
  vm_compute. reflexivity.
Defined.

(** The moves of the client field on a new call. *)
Lemma client_only_moves_forward_sample :
  client (st (run_ops [op_serve_event (mkEvent _receive_close_on_server true None)]
                (with_st (set_client _CANCELLED) (new_world 0))))
  = _CANCELLED.
Proof.
  exact (proj1 (proj2 (proj2 (proj2 client_only_moves_forward)))
           [op_serve_event (mkEvent _receive_close_on_server true None)]
           (new_world 0)).
Defined.

(** [send_initial_metadata] on a new call, then again. *)
Lemma send_initial_metadata_at_most_once_sample :
  is_Raise
    (Context_send_initial_metadata None
       (run_ops [op_wait]
          (exec (Context_send_initial_metadata (Some [("k", "v")]))
             (new_world 0)))).1
  = true.
Proof.
  refine (proj2 (proj2 (proj2
            (send_initial_metadata_at_most_once (Some [("k", "v")])
               (new_world 0))))
            (exec (Context_send_initial_metadata (Some [("k", "v")]))
               (new_world 0)) _ [op_wait] None).
  vm_compute. reflexivity.
Defined.

(** [_status] on a new call. *)
Lemma status_defaults_to_ok_sample :
  statuses (exec (_status (Some "response")) (new_world 0))
  = statuses (new_world 0)
    ++ (if bool_decide (client (st (new_world 0)) = _CANCELLED) then []
        else [(ok, match details (st (new_world 0)) with
                   | None => ""
                   | Some d => d
                   end)]).
Proof.
  exact (proj1 (status_defaults_to_ok (Some "response") (new_world 0) eq_refl)).
Defined.

(** A behaviour that aborts with [OK], on a new call. *)
Lemma abort_with_OK_is_UNKNOWN_sample :
  exists w',
    _call_behavior abort_with_OK (ArgMessage "request") (fun b => Some b)
      (new_world 0)
    = (Ok (None, false), w')
    /\ code (st w') = Some UNKNOWN
    /\ details (st w') = Some ""
    /\ statuses w' = [(unknown, "")].
Proof.
  destruct (proj2 (abort_with_OK_is_UNKNOWN (common := sample_common)
                     "all is well" eq_refl eq_refl)
              Message abort_with_OK (ArgMessage "request") (fun b => Some b)
              (Return tt) _ (new_world 0)
              (exec (record_invocation (ArgMessage "request")) (new_world 0))
              eq_refl (fun e => eq_refl) eq_refl)
    as (w' & Hrun & Hcode & Hdetails & Hstatuses).
  exists w'. by repeat split.
Defined.

(** A unary call whose peer closes without a message, and a cancelled one. *)
Lemma unary_request_without_message_sample :
  let deserializer := request_deserializer echo_handler in
  let details_ := encode (exactly_one_request_message sample_rpc_event) in
  let cancelled := with_st (set_client _CANCELLED) (new_world 0) in
  unary_request sample_rpc_event deserializer cancelled = (Ok None, cancelled)
  /\ exists w',
       unary_request sample_rpc_event deserializer closed_without_message
       = (Ok None, w')
       /\ statuses w' = [(unimplemented, details_)]
       /\ invoked w' = []
       /\ _unary_response_in_pool (unary_unary echo_handler)
            (run_thunk (thunk_unary_request sample_rpc_event deserializer))
            deserializer (response_serializer echo_handler)
            closed_without_message_in_pool
          = (Ok tt, w')
       /\ _stream_response_in_pool (unary_stream echo_handler)
            (run_thunk (thunk_unary_request sample_rpc_event deserializer))
            deserializer (response_serializer echo_handler)
            closed_without_message_in_pool
          = (Ok tt, w').
Proof.
  intros deserializer details_ cancelled.
  pose proof (unary_request_without_message sample_rpc_event deserializer)
    as (_ & Hentry & Hwake & Hpool & _).
  split; [exact (Hentry cancelled eq_refl) |].
  destruct (proj1
              (Hwake closed_without_message 0
                 (exec (start_server_batch
                          [ReceiveMessageOperation _EMPTY_FLAGS]
                          (_receive_message deserializer) >>
                        due_add _RECEIVE_MESSAGE_TOKEN >> wait)
                    closed_without_message)
                 ltac:(discriminate) eq_refl
                 ltac:(intros k Hk; lia)
                 ltac:(vm_compute; reflexivity)
                 ltac:(vm_compute; reflexivity))
              ltac:(vm_compute; reflexivity))
    as (w' & Hrun & _ & Hstatuses & Hinvoked).
  exists w'. split; [exact Hrun |].
  split; [exact (Hstatuses eq_refl eq_refl) |].
  split; [exact Hinvoked |].
  destruct (Hpool (unary_unary echo_handler) (unary_stream echo_handler)
              (response_serializer echo_handler)
              closed_without_message_in_pool w' Hrun) as (Hu & Hs & _).
  exact (conj Hu Hs).
Defined.

(** A server at its limit, below it, and without one. *)
Lemma admission_control_sample :
  (exists s',
     serve_request_call sample_rpc_event (sample_server (Some 1%Z) 1%Z)
     = inr (s', false)
     /\ thread_pool s' = []
     /\ active_rpc_count s' = 1%Z
     /\ heap s' !! 0%nat
        = Some (_reject_rpc 0 resource_exhausted
                  "Concurrent RPC limit exceeded!")
     /\ statuses (_reject_rpc 0 resource_exhausted
                    "Concurrent RPC limit exceeded!")
        = [(resource_exhausted, "Concurrent RPC limit exceeded!")])
  /\ (exists s' task w,
        serve_request_call sample_rpc_event (sample_server (Some 2%Z) 1%Z)
        = inr (s', false)
        /\ thread_pool s' = [] ++ [task]
        /\ task_state task = 0%nat
        /\ active_rpc_count s' = (1 + 1)%Z
        /\ heap s' !! 0%nat = Some w
        /\ statuses w = [])
  /\ concurrency_exceeded_of (sample_server None 5%Z) = false.
Proof.
  assert (Hdue : forall maximum active,
            _REQUEST_CALL_TAG ∈ server_due (sample_server maximum active))
    by (intros; simpl; by apply elem_of_singleton).
  split; [| split].
  - exact (proj1 (admission_control (sample_server (Some 1%Z) 1%Z)
                    sample_rpc_event "/pkg.Service/Method" echo_handler
                    (Hdue _ _) eq_refl eq_refl eq_refl)
             1%Z eq_refl ltac:(simpl; lia)).
  - exact (proj1 (proj2 (admission_control (sample_server (Some 2%Z) 1%Z)
                           sample_rpc_event "/pkg.Service/Method" echo_handler
                           (Hdue _ _) eq_refl eq_refl eq_refl))
             eq_refl).
  - exact (proj1 (proj2 (proj2 (admission_control (sample_server None 5%Z)
                                  sample_rpc_event "/pkg.Service/Method"
                                  echo_handler
                                  (Hdue _ _) eq_refl eq_refl eq_refl))
                    eq_refl)).
Defined.

(** A handler lookup that raises. *)
Lemma lookup_failure_rejects_with_UNKNOWN_sample :
  exists w,
    _handle_call 0 sample_rpc_event [failing_generic_handler] None [] false
    = ((Some w, None), [])
    /\ batches (the_call w)
       = [([SendInitialMetadataOperation None _EMPTY_FLAGS;
            ReceiveCloseOnServerOperation _EMPTY_FLAGS;
            SendStatusFromServerOperation None unknown
              "Error in service handler!" _EMPTY_FLAGS],
           _reject_rpc_tag)]
    /\ statuses w = [(unknown, "Error in service handler!")]
    /\ invoked w = [].
Proof.
  exact (lookup_failure_rejects_with_UNKNOWN 0 sample_rpc_event
           "/pkg.Service/Method" [failing_generic_handler] None [] false
           (ApplicationError 0 "lookup failed") eq_refl eq_refl eq_refl).
Defined.

(** C2 as stated fails: the lookup of this new-call event raises, and the
    status of the rejection is [unknown], not [internal]. *)
Lemma lookup_failure_is_not_INTERNAL :
  _find_method_handler "/pkg.Service/Method" sample_rpc_event
    [failing_generic_handler] None
  = inl (ApplicationError 0 "lookup failed")
  /\ _handle_call 0 sample_rpc_event [failing_generic_handler] None [] false
     = ((Some (_reject_rpc 0 unknown "Error in service handler!"), None), [])
  /\ (statuses (_reject_rpc 0 unknown "Error in service handler!")).*1
     = [unknown]
  /\ (statuses (_reject_rpc 0 unknown "Error in service handler!")).*1
     <> [internal].
Proof. repeat split. discriminate. Qed.



End Samples.

(** * More properties *)

(** ** Handler lookup *)

Section Lookup.
Context {common : grpc_common}.

(** X1: the generic handlers are asked in order and the first answer that is
    not [None] ends the search, whether it is a method handler or an
    exception: the handlers after it are not asked. *)
Theorem query_handlers_first_answer
    (before after : list GenericHandler) (generic_handler : GenericHandler)
    (handler_call_details : HandlerCallDetails) :
  Forall (fun h => h handler_call_details = inr None) before ->
  generic_handler handler_call_details <> inr None ->
  query_handlers (before ++ generic_handler :: after) handler_call_details
  = generic_handler handler_call_details.
Proof.
  intros Hbefore Hanswer.
  induction Hbefore as [| h before Hh _ IH]; simpl.
  - destruct (generic_handler handler_call_details) as [e | [mh |]]; done.
  - by rewrite Hh.
Qed.

Lemma query_handlers_no_answer (generic_handlers : list GenericHandler)
    (handler_call_details : HandlerCallDetails) :
  query_handlers generic_handlers handler_call_details = inr None
  <-> Forall (fun h => h handler_call_details = inr None) generic_handlers.
Proof.
  induction generic_handlers as [| h rest IH]; simpl.
  - split; [constructor | done].
  - destruct (h handler_call_details) as [e | [mh |]] eqn:Hh.
    + split; [done | intros HF; inversion HF; congruence].
    + split; [done | intros HF; inversion HF; congruence].
    + rewrite IH. split; [by constructor | intros HF; by inversion HF].
Qed.

Lemma query_handlers_app (first more : list GenericHandler)
    (handler_call_details : HandlerCallDetails) :
  query_handlers (first ++ more) handler_call_details
  = match query_handlers first handler_call_details with
    | inr None => query_handlers more handler_call_details
    | answer => answer
    end.
Proof.
  induction first as [| h rest IH]; simpl; [done |].
  by destruct (h handler_call_details) as [e | [mh |]].
Qed.

(** X2: handlers added with [add_generic_rpc_handlers] go behind the ones
    already there: a method that had a handler keeps it, a lookup that raised
    still raises, and only a method that had no handler is looked up in the
    new ones. *)
Theorem add_generic_handlers_goes_last (s : ServerState)
    (a_generic_handlers : list GenericHandler) (a_method : bytes)
    (rpc_event : RpcEvent) :
  interceptor_pipeline s = None ->
  _find_method_handler a_method rpc_event
    (generic_handlers (_add_generic_handlers a_generic_handlers s))
    (interceptor_pipeline (_add_generic_handlers a_generic_handlers s))
  = match _find_method_handler a_method rpc_event (generic_handlers s)
            (interceptor_pipeline s) with
    | inr None =>
        _find_method_handler a_method rpc_event a_generic_handlers None
    | answer => answer
    end.
Proof.
  intros Hpipeline. unfold _find_method_handler, _add_generic_handlers.
  simpl. rewrite Hpipeline. apply query_handlers_app.
Qed.

End Lookup.

(** ** Rounds of the serving loop *)

Section Rounds.
Context {common : grpc_common}.

(** What [_stop_serving] does when it does not raise. *)
Lemma stop_serving_inr s s' b :
  _stop_serving s = inr (s', b) ->
  (b = false /\ s' = s)
  \/ (b = true /\ rpc_states s = ∅ /\ server_due s = ∅
      /\ exists events,
          shutdown_events s = Some events
          /\ s' = with_events_set (list_to_set events ∪ events_set s)
                    (with_stage STOPPED s)).
Proof.
  unfold _stop_serving.
  destruct (bool_decide (rpc_states s = ∅)) eqn:Hstates; simpl.
  - destruct (bool_decide (server_due s = ∅)) eqn:Hdue; simpl.
    + destruct (shutdown_events s) as [events |] eqn:Hevents; [| done].
      intros H. simplify_eq. right.
      apply bool_decide_eq_true in Hstates, Hdue.
      repeat split; try done. exists events. split; [done |].
      destruct s; simpl in *. by subst.
    + intros H. simplify_eq. by left.
  - intros H. simplify_eq. by left.
Qed.

(** The state in which a round on a new-call event ends: what
    [_handle_call] returned is recorded, and nothing else has changed. *)
Lemma serve_request_call_inr event s r :
  serve_request_call event s = inr r ->
  _REQUEST_CALL_TAG ∈ server_due s
  /\ exists s3,
      stage s3 = stage s
      /\ server_due s3 = server_due s ∖ {[_REQUEST_CALL_TAG]}
      /\ shutdown_events s3 = shutdown_events s
      /\ events_set s3 = events_set s
      /\ request_calls s3 = request_calls s
      /\ generic_handlers s3 = generic_handlers s
      /\ (if bool_decide (stage s = STARTED)
          then inr (_request_call s3, false)
          else _stop_serving s3) = inr r.
Proof.
  unfold serve_request_call.
  destruct (decide (_REQUEST_CALL_TAG ∈ server_due s)) as [Hdue |]; [| done].
  intros Hr. split; [done |].
  destruct (_handle_call _ _ _ _ _ _) as [[[w |] [future |]] thread_pool']
    eqn:Hhandle; simpl in Hr;
    match type of Hr with
    | (if _ then inr (_request_call ?s3, false) else _) = _ => exists s3
    end;
    repeat split; exact Hr.
Qed.

(** X3: while the server is started, every round on a new-call event,
    whatever the event and whatever becomes of the call, ends with a new
    request for a call outstanding and the server still started; in any
    other stage no round asks for another call. *)
Theorem serve_request_call_rearms (event : RpcEvent) (s : ServerState) :
  (stage s = STARTED ->
   _REQUEST_CALL_TAG ∈ server_due s ->
   exists s',
     serve_request_call event s = inr (s', false)
     /\ stage s' = STARTED
     /\ _REQUEST_CALL_TAG ∈ server_due s'
     /\ request_calls s' = S (request_calls s))
  /\ (stage s <> STARTED ->
      forall s' b,
        serve_request_call event s = inr (s', b) ->
        (_REQUEST_CALL_TAG ∉ server_due s')
        /\ request_calls s' = request_calls s).
Proof.
  split.
  - intros Hstage Hdue. unfold serve_request_call.
    rewrite decide_True by done.
    destruct (_handle_call _ _ _ _ _ _) as [[[w |] [future |]] thread_pool'];
      simpl; rewrite Hstage; simpl; eexists; (split; [reflexivity |]); simpl;
      repeat split; first [done | set_solver].
  - intros Hstage s' b Hserve.
    apply serve_request_call_inr in Hserve
      as (Hdue & s3 & Hs3 & Hdue3 & _ & _ & Hcalls & _ & Hr).
    rewrite bool_decide_eq_false_2 in Hr by done.
    apply stop_serving_inr in Hr as [[-> ->] | (-> & _ & Hempty & events & _ & ->)].
    + split; [| done]. rewrite Hdue3.
      intros [_ Hnot]%elem_of_difference. apply Hnot.
      by apply elem_of_singleton.
    + split; [| by destruct s3]. destruct s3; simpl in *. subst.
      intros [_ Hnot]%elem_of_difference. apply Hnot.
      by apply elem_of_singleton.
Qed.

(** X4: a new-call event that failed, or has no method, starts nothing and
    creates no state; and for a method without handler the call is rejected
    with [unimplemented] and details "Method not found!", also when the limit
    of concurrent calls is exceeded. *)
Theorem handle_call_without_handler (addr : nat) (rpc_event : RpcEvent)
    (generic_handlers : list GenericHandler)
    (interceptor_pipeline : option InterceptorPipeline)
    (thread_pool : ThreadPool) (concurrency_exceeded : bool) :
  (success rpc_event = false \/ method rpc_event = None ->
   _handle_call addr rpc_event generic_handlers interceptor_pipeline
     thread_pool concurrency_exceeded
   = ((None, None), thread_pool))
  /\ (forall a_method,
        success rpc_event = true ->
        method rpc_event = Some a_method ->
        _find_method_handler a_method rpc_event generic_handlers
          interceptor_pipeline = inr None ->
        _handle_call addr rpc_event generic_handlers interceptor_pipeline
          thread_pool concurrency_exceeded
        = ((Some (_reject_rpc addr unimplemented "Method not found!"), None),
           thread_pool)
        /\ statuses (_reject_rpc addr unimplemented "Method not found!")
           = [(unimplemented, "Method not found!")]).
Proof.
  split.
  - intros [Hsuccess | Hmethod]; unfold _handle_call.
    + by rewrite Hsuccess.
    + rewrite Hmethod. by destruct (negb (success rpc_event)).
  - intros a_method Hsuccess Hmethod Hfind. unfold _handle_call.
    by rewrite Hsuccess, Hmethod, Hfind.
Qed.

(** X5: the count of active calls goes up by one when a call is given to the
    pool and down by one when its task is done, so that a server at its limit
    that rejects new calls admits the next one once a call has completed. *)
Theorem admission_after_completion (s : ServerState) (rpc_event : RpcEvent)
    (a_method : bytes) (method_handler : MethodHandler) (maximum : Z) :
  _REQUEST_CALL_TAG ∈ server_due s ->
  success rpc_event = true ->
  method rpc_event = Some a_method ->
  _find_method_handler a_method rpc_event (generic_handlers s)
    (interceptor_pipeline s) = inr (Some method_handler) ->
  maximum_concurrent_rpcs s = Some maximum ->
  active_rpc_count s = maximum ->
  concurrency_exceeded_of s = true
  /\ concurrency_exceeded_of (_on_call_completed s) = false
  /\ exists s' task,
      serve_request_call rpc_event (_on_call_completed s) = inr (s', false)
      /\ thread_pool s' = thread_pool s ++ [task]
      /\ length (thread_pool s) ∈ done_callbacks s'
      /\ active_rpc_count s' = maximum
      /\ active_rpc_count (_on_call_completed s') = (maximum - 1)%Z.
Proof.
  intros Hdue Hsuccess Hmethod Hfind Hmax Hactive.
  assert (Hexceeded : concurrency_exceeded_of (_on_call_completed s) = false).
  { unfold concurrency_exceeded_of. simpl. rewrite Hmax.
    apply bool_decide_eq_false. lia. }
  split; [| split; [done |]].
  { unfold concurrency_exceeded_of. rewrite Hmax.
    apply bool_decide_eq_true. lia. }
  destruct (handle_with_method_handler_world (next_state s) rpc_event
              method_handler (thread_pool s)) as (task & Hhandle & Htask).
  unfold serve_request_call. simpl. rewrite decide_True by done.
  change (concurrency_exceeded_of (with_server_due _ _))
    with (concurrency_exceeded_of (_on_call_completed s)).
  rewrite Hexceeded. unfold _handle_call.
  rewrite Hsuccess, Hmethod, Hfind, Hhandle. simpl.
  case_bool_decide.
  - eexists _, task. split; [reflexivity |]. simpl.
    repeat split; [set_solver | lia | lia].
  - unfold _stop_serving. simpl.
    rewrite (bool_decide_eq_false_2 (_ ∪ _ = ∅)) by set_solver. simpl.
    eexists _, task. split; [reflexivity |]. simpl.
    repeat split; [set_solver | lia | lia].
Qed.

End Rounds.

(** ** The life cycle of the server *)

Section LifecycleProperties.
Context {common : grpc_common}.
Context {Duration : Type}.

Implicit Types p : Process Duration.

Lemma tags_differ : _SHUTDOWN_TAG <> _REQUEST_CALL_TAG.
Proof. done. Qed.

(** [_stop_serving] on a server in its life cycle. *)
Lemma stop_serving_lifecycle p s s' b :
  lifecycle p ->
  stage s = stage (server_state p) ->
  shutdown_events s = shutdown_events (server_state p) ->
  events_set s = events_set (server_state p) ->
  server_due s ⊆ server_due (server_state p) ->
  (stage s = STARTED -> _REQUEST_CALL_TAG ∈ server_due s) ->
  _stop_serving s = inr (s', b) ->
  lifecycle (with_server_state s' p).
Proof.
  intros [Haccepting Hidle Hstopping Hstopped Hshutdowns] Hstage Hevents Hset
    Hdue Hrequest Hstop.
  apply stop_serving_inr in Hstop
    as [[-> ->] | (-> & _ & Hempty & events & Hsome & ->)].
  - split; simpl; rewrite ?Hstage, ?Hevents, ?Hset; try done.
    + intros H. split; [by apply Hrequest; rewrite Hstage |].
      destruct (Haccepting H) as [_ Hno]. intros Hin. by apply Hno, Hdue.
    + intros H. specialize (Hidle H). rewrite Hidle in Hdue.
      apply elem_of_equiv_empty_L. intros x Hx.
      by apply (not_elem_of_empty (C := gset string) x), Hdue.
  - assert (Hnot : stage (server_state p) <> STARTED).
    { intros H. rewrite <- Hstage in H. specialize (Hrequest H).
      rewrite Hempty in Hrequest. by apply not_elem_of_empty in Hrequest. }
    split; simpl; try done.
    + intros _ events' Hevents' event Hin.
      destruct s; simpl in *. simplify_eq.
      apply elem_of_union_l. by apply elem_of_list_to_set.
    + rewrite Hshutdowns. by rewrite bool_decide_eq_false_2.
Qed.

Lemma run_server_op_lifecycle (op : ServerOp Duration) p p' :
  lifecycle p -> run_server_op op p = Some p' -> lifecycle p'.
Proof.
  intros Hp Hop. pose proof Hp as [Haccepting Hidle Hstopping Hstopped Hshutdowns].
  destruct op; simpl in Hop.
  - (* start *)
    unfold _start in Hop.
    destruct (stage (server_state p)) eqn:Hstage; simpl in Hop; simplify_eq.
    split; simpl; try done.
    + intros _. rewrite (Hidle eq_refl).
      split; [by apply elem_of_union_l, elem_of_singleton |].
      rewrite elem_of_union, elem_of_singleton.
      intros [H | H]; [by apply tags_differ | by apply not_elem_of_empty in H].
    + by rewrite Hshutdowns.
  - (* stop *)
    unfold _stop in Hop.
    destruct (stage (server_state p)) eqn:Hstage; simpl in Hop.
    + simplify_eq. split; simpl; rewrite ?Hstage; try done.
      intros _ events Hevents event Hin.
      apply elem_of_union_r. by eapply Hstopped.
    + destruct grace; simplify_eq; split; simpl; try done;
        try (intros _; by eexists);
        by rewrite Hshutdowns.
    + destruct (Hstopping eq_refl) as (events & Hevents & Hnonempty).
      rewrite Hevents in Hop.
      destruct grace; simplify_eq; split; simpl; rewrite ?Hstage;
        try done;
        try (intros _; eexists; split; [done |]; by destruct events);
        by rewrite Hshutdowns.
  - (* the grace has passed *)
    simplify_eq. by split.
  - (* handlers are added *)
    simplify_eq. by split.
  - (* shutdown *)
    unfold serve_shutdown in Hop.
    destruct (decide (_SHUTDOWN_TAG ∈ server_due (server_state p)))
      as [Hin |]; [| done].
    destruct (_stop_serving _) as [e | [s' b]] eqn:Hstop; simplify_eq.
    eapply stop_serving_lifecycle in Hstop; try done; simpl.
    + by intros x [Hx _]%elem_of_difference.
    + intros H. by destruct (Haccepting H).
  - (* a new call *)
    destruct (serve_request_call rpc_event (server_state p))
      as [e | [s' b]] eqn:Hserve; simplify_eq.
    apply serve_request_call_inr in Hserve
      as (Hin & s3 & Hs3 & Hdue3 & Hev3 & Hset3 & _ & _ & Hr).
    destruct (decide (stage (server_state p) = STARTED)) as [Hstage | Hstage].
    + rewrite bool_decide_eq_true_2 in Hr by done. simplify_eq.
      split; simpl; rewrite ?Hs3, ?Hev3, ?Hset3, ?Hdue3;
        try done; try congruence.
      intros _. split; [by apply elem_of_union_l, elem_of_singleton |].
      destruct (Haccepting Hstage) as [_ Hno].
      intros [H | H]%elem_of_union.
      * apply elem_of_singleton in H. by apply tags_differ.
      * apply elem_of_difference in H as [H _]. by apply Hno.
    + rewrite bool_decide_eq_false_2 in Hr by done.
      eapply stop_serving_lifecycle in Hr; try done.
      * rewrite Hdue3. by intros x [Hx _]%elem_of_difference.
      * intros H. by rewrite Hs3 in H.
  - (* an event of a call *)
    unfold serve_call_event in Hop.
    destruct (serve_event event w) as [[[a |] | e0 |] w'] eqn:Hev;
      simplify_eq; try (by split).
    destruct (decide (a ∈ rpc_states (store w' (server_state p))));
      [| done].
    destruct (_stop_serving _) as [e' | [s' b]] eqn:Hstop; simplify_eq.
    eapply stop_serving_lifecycle in Hstop; try done.
    intros H. by destruct (Haccepting H).
  - (* a task is done *)
    simplify_eq. by split.
Qed.

Lemma run_server_ops_lifecycle (ops : list (ServerOp Duration)) p p' :
  lifecycle p -> run_server_ops ops p = Some p' -> lifecycle p'.
Proof.
  revert p. induction ops as [| op ops IH]; intros p Hp Hrun;
    simpl in Hrun; [by simplify_eq |].
  destruct (run_server_op op p) as [p1 |] eqn:Hop; [| done].
  eapply IH; [| exact Hrun]. by eapply run_server_op_lifecycle.
Qed.

Lemma Server_lifecycle (a_generic_handlers : list GenericHandler)
    (a_interceptor_pipeline : option InterceptorPipeline)
    (a_maximum_concurrent_rpcs : option Z) :
  lifecycle
    (Server Duration a_generic_handlers a_interceptor_pipeline
       a_maximum_concurrent_rpcs).
Proof. split; simpl; done. Qed.

(** X6: whatever methods of a new server are called and whatever rounds its
    serving loop makes, as long as none raises: a started server has a
    request for a new call outstanding and no shutdown pending; a stopped
    server has nothing due; a server in its grace has at least one shutdown
    event; a stopped server has set every event of its last shutdown; and
    [server.shutdown] has been called once for each [server.start], except
    the last while the server is started. *)
Theorem server_lifecycle (a_generic_handlers : list GenericHandler)
    (a_interceptor_pipeline : option InterceptorPipeline)
    (a_maximum_concurrent_rpcs : option Z) (ops : list (ServerOp Duration)) p :
  run_server_ops ops
    (Server Duration a_generic_handlers a_interceptor_pipeline
       a_maximum_concurrent_rpcs) = Some p ->
  lifecycle p.
Proof.
  apply run_server_ops_lifecycle, Server_lifecycle.
Qed.

(** The stage after [_stop_serving], for a server in its life cycle. *)
Lemma stop_serving_stage p s s' b :
  lifecycle p ->
  stage s = stage (server_state p) ->
  (stage s = STARTED -> _REQUEST_CALL_TAG ∈ server_due s) ->
  _stop_serving s = inr (s', b) ->
  stage s' = stage (server_state p)
  \/ (stage (server_state p) = GRACE /\ stage s' = STOPPED).
Proof.
  intros Hp Hstage Hrequest Hstop.
  apply stop_serving_inr in Hstop
    as [[-> ->] | (-> & _ & Hempty & events & Hsome & ->)]; [by left |].
  simpl. destruct (stage (server_state p)) eqn:Hp_stage.
  - by left.
  - specialize (Hrequest Hstage). rewrite Hempty in Hrequest.
    by apply not_elem_of_empty in Hrequest.
  - by right.
Qed.

(** X7: the stage of a server moves only from stopped to started (by
    [start]), from started to grace (by [stop]) and from grace to stopped (by
    a round of the serving loop that finds nothing left); no method and no
    round moves it otherwise. *)
Theorem stage_moves (a_generic_handlers : list GenericHandler)
    (a_interceptor_pipeline : option InterceptorPipeline)
    (a_maximum_concurrent_rpcs : option Z) (ops : list (ServerOp Duration))
    (op : ServerOp Duration) p p' :
  run_server_ops ops
    (Server Duration a_generic_handlers a_interceptor_pipeline
       a_maximum_concurrent_rpcs) = Some p ->
  run_server_op op p = Some p' ->
  stage (server_state p') = stage (server_state p)
  \/ (stage_step (stage (server_state p)) (stage (server_state p'))
      /\ match op with
         | op_start => stage (server_state p) = STOPPED
         | op_stop _ => stage (server_state p) = STARTED
         | op_serve_shutdown | op_serve_request_call _
         | op_serve_call_event _ _ => stage (server_state p) = GRACE
         | _ => False
         end).
Proof.
  intros Hrun Hop.
  assert (Hp : lifecycle p)
    by (eapply run_server_ops_lifecycle; [apply Server_lifecycle | done]).
  pose proof Hp as [Haccepting Hidle Hstopping Hstopped Hshutdowns].
  destruct op; simpl in Hop.
  - unfold _start in Hop.
    destruct (stage (server_state p)) eqn:Hstage; simpl in Hop; simplify_eq.
    right. split; [constructor | done].
  - unfold _stop in Hop.
    destruct (stage (server_state p)) eqn:Hstage; simpl in Hop.
    + simplify_eq. simpl. by left.
    + destruct grace; simplify_eq; simpl; right; (split; [constructor | done]).
    + destruct (shutdown_events (server_state p)); [| done].
      destruct grace; simplify_eq; simpl; by left.
  - simplify_eq. by left.
  - simplify_eq. by left.
  - unfold serve_shutdown in Hop.
    destruct (decide (_SHUTDOWN_TAG ∈ server_due (server_state p)))
      as [Hin |]; [| done].
    destruct (_stop_serving _) as [e | [s' b]] eqn:Hstop; simplify_eq.
    eapply stop_serving_stage in Hstop as [H | [Hg H]]; try done; simpl.
    + by left.
    + right. rewrite Hg, H. split; [constructor | done].
    + intros H. by destruct (Haccepting H).
  - destruct (serve_request_call rpc_event (server_state p))
      as [e | [s' b]] eqn:Hserve; simplify_eq.
    apply serve_request_call_inr in Hserve
      as (Hin & s3 & Hs3 & Hdue3 & Hev3 & Hset3 & _ & _ & Hr).
    destruct (decide (stage (server_state p) = STARTED)) as [Hstage | Hstage].
    + rewrite bool_decide_eq_true_2 in Hr by done. simplify_eq. simpl.
      by left.
    + rewrite bool_decide_eq_false_2 in Hr by done.
      eapply stop_serving_stage in Hr as [H | [Hg H]]; try done; simpl.
      * by left.
      * right. rewrite Hg, H. split; [constructor | done].
      * intros H. by rewrite Hs3 in H.
  - unfold serve_call_event in Hop.
    destruct (serve_event event w) as [[[a |] | e0 |] w'] eqn:Hev;
      simplify_eq; try (by left).
    destruct (decide (a ∈ rpc_states (store w' (server_state p))));
      [| done].
    destruct (_stop_serving _) as [e' | [s' b]] eqn:Hstop; simplify_eq.
    eapply stop_serving_stage in Hstop as [H | [Hg H]]; try done; simpl.
    + by left.
    + right. rewrite Hg, H. split; [constructor | done].
    + intros H. by destruct (Haccepting H).
  - simplify_eq. by left.
Qed.

(** X8: two calls of [stop] on a started server are one shutdown: the first
    asks the cygrpc server to shut down and opens the grace, the second does
    not ask again; each gets an event of its own, and both events wait in
    [shutdown_events].  A call without grace cancels all calls and waits for
    its event; a call with a grace returns at once and leaves the
    cancellation to a thread. *)
Theorem stop_coalesces p (grace1 grace2 : option Duration) :
  stage (server_state p) = STARTED ->
  exists p1 p2,
    _stop grace1 p = inr (p1, (next_event p, bool_decide (grace1 = None)))
    /\ _stop grace2 p1
       = inr (p2, (S (next_event p), bool_decide (grace2 = None)))
    /\ shutdowns p1 = S (shutdowns p)
    /\ shutdowns p2 = S (shutdowns p)
    /\ stage (server_state p2) = GRACE
    /\ shutdown_events (server_state p2)
       = Some [next_event p; S (next_event p)]
    /\ server_due (server_state p2)
       = {[_SHUTDOWN_TAG]} ∪ server_due (server_state p)
    /\ all_calls_cancelled p2
       = (all_calls_cancelled p
          + (if grace1 is None then 1 else 0)
          + (if grace2 is None then 1 else 0))%nat
    /\ length (grace_threads p2)
       = (length (grace_threads p)
          + (if grace1 is None then 0 else 1)
          + (if grace2 is None then 0 else 1))%nat.
Proof.
  intros Hstage. unfold _stop. rewrite Hstage. simpl.
  destruct grace1 as [d1 |], grace2 as [d2 |]; simpl;
    eexists; eexists; (split; [reflexivity |]); simpl;
    (split; [reflexivity |]); simpl;
    rewrite ?length_app; simpl; repeat split; lia.
Qed.

Lemma stop_serving_pending event p s s' b :
  pending_or_set event p ->
  stage s = stage (server_state p) ->
  shutdown_events s = shutdown_events (server_state p) ->
  events_set s = events_set (server_state p) ->
  _stop_serving s = inr (s', b) ->
  pending_or_set event (with_server_state s' p).
Proof.
  intros Hpending Hstage Hevents Hset Hstop.
  apply stop_serving_inr in Hstop
    as [[-> ->] | (-> & _ & Hempty & events & Hsome & ->)].
  - unfold pending_or_set. simpl. by rewrite Hstage, Hevents, Hset.
  - left. simpl. destruct Hpending as [H | (_ & events' & Hsome' & Hin)].
    + apply elem_of_union_r. by rewrite Hset.
    + apply elem_of_union_l, elem_of_list_to_set. congruence.
Qed.

Lemma run_server_op_pending event (op : ServerOp Duration) p p' :
  pending_or_set event p ->
  run_server_op op p = Some p' ->
  pending_or_set event p'.
Proof.
  intros Hpending Hop. destruct op; simpl in Hop.
  - unfold _start in Hop.
    destruct (stage (server_state p)) eqn:Hstage; simpl in Hop; simplify_eq.
    destruct Hpending as [H | [H _]]; [by left | congruence].
  - unfold _stop in Hop.
    destruct (stage (server_state p)) eqn:Hstage; simpl in Hop.
    + simplify_eq. destruct Hpending as [H | [H _]]; [| congruence].
      left. simpl. by apply elem_of_union_r.
    + destruct Hpending as [H | [H _]]; [| congruence].
      destruct grace; simplify_eq; by left.
    + destruct (shutdown_events (server_state p)) as [events |] eqn:Hevents;
        [| done].
      destruct Hpending as [H | (_ & events' & Hsome' & Hin)];
        destruct grace; simplify_eq; try (by left);
        right; simpl; (split; [done |]); eexists; (split; [done |]);
        by apply elem_of_app; left.
  - by simplify_eq.
  - by simplify_eq.
  - unfold serve_shutdown in Hop.
    destruct (decide (_SHUTDOWN_TAG ∈ server_due (server_state p))) as [Hin |];
      [| done].
    destruct (_stop_serving _) as [err | [s' b]] eqn:Hstop; simplify_eq.
    by eapply stop_serving_pending in Hstop.
  - destruct (serve_request_call rpc_event (server_state p))
      as [err | [s' b]] eqn:Hserve; simplify_eq.
    apply serve_request_call_inr in Hserve
      as (Hin & s3 & Hs3 & Hdue3 & Hev3 & Hset3 & _ & _ & Hr).
    destruct (decide (stage (server_state p) = STARTED)) as [Hstage | Hstage].
    + rewrite bool_decide_eq_true_2 in Hr by done. simplify_eq.
      unfold pending_or_set in *. simpl. by rewrite Hs3, Hev3, Hset3.
    + rewrite bool_decide_eq_false_2 in Hr by done.
      by eapply stop_serving_pending in Hr.
  - unfold serve_call_event in Hop.
    destruct (serve_event event0 w) as [[[a |] | e0 |] w'] eqn:Hev;
      simplify_eq; try done.
    destruct (decide (a ∈ rpc_states (store w' (server_state p)))) as [Ha |];
      [| done].
    destruct (_stop_serving _) as [err | [s' b]] eqn:Hstop; simplify_eq.
    by eapply stop_serving_pending in Hstop.
  - by simplify_eq.
Qed.

(** X9: the event that a call of [stop] returns is set whenever the server
    is stopped afterwards, whatever methods were called and whatever rounds
    the serving loop made in between; on a server that is already stopped it
    is set at once. *)
Theorem stop_event_is_set p (grace : option Duration) p1 event b
    (ops : list (ServerOp Duration)) p2 :
  lifecycle p ->
  _stop grace p = inr (p1, (event, b)) ->
  run_server_ops ops p1 = Some p2 ->
  stage (server_state p2) = STOPPED ->
  event ∈ events_set (server_state p2).
Proof.
  intros Hp Hstop Hrun Hstopped.
  assert (Hpending : pending_or_set event p1).
  { unfold _stop in Hstop.
    destruct (stage (server_state p)) eqn:Hstage; simpl in Hstop.
    - simplify_eq. left. simpl. by apply elem_of_union_l, elem_of_singleton.
    - destruct grace; simplify_eq; right; simpl; (split; [done |]);
        eexists; (split; [done |]); by apply list_elem_of_singleton.
    - destruct Hp as [_ _ Hstopping _ _].
      destruct (Hstopping Hstage) as (events & Hevents & _).
      rewrite Hevents in Hstop.
      destruct grace; simplify_eq; right; simpl; (split; [done |]);
        eexists; (split; [done |]); apply elem_of_app; right;
        by apply list_elem_of_singleton. }
  clear Hstop.
  revert p1 Hpending Hrun. induction ops as [| op ops IH];
    intros p1 Hpending Hrun; simpl in Hrun.
  - simplify_eq. destruct Hpending as [H | [H _]]; [done | congruence].
  - destruct (run_server_op op p1) as [p' |] eqn:Hop; [| done].
    eapply IH; [| exact Hrun]. by eapply run_server_op_pending.
Qed.

End LifecycleProperties.

(** ** Rejected calls *)

Section Rejected.
Context {common : grpc_common}.

(** X10: a call that is rejected is recorded in [rpc_states] by the round
    that rejects it and leaves [rpc_states] in the round in which its single
    batch completes; no task and no active call is counted for it. *)
Theorem rejected_call_is_retired (s : ServerState) (rpc_event : RpcEvent)
    (a_method : bytes) (cancelled : bool) (message : option bytes) :
  stage s = STARTED ->
  _REQUEST_CALL_TAG ∈ server_due s ->
  next_state s ∉ rpc_states s ->
  success rpc_event = true ->
  method rpc_event = Some a_method ->
  _find_method_handler a_method rpc_event (generic_handlers s)
    (interceptor_pipeline s) = inr None ->
  exists s1 s2 w,
    serve_request_call rpc_event s = inr (s1, false)
    /\ heap s1 !! next_state s = Some w
    /\ rpc_states s1 = {[next_state s]} ∪ rpc_states s
    /\ batches (the_call w)
       = [([SendInitialMetadataOperation None _EMPTY_FLAGS;
            ReceiveCloseOnServerOperation _EMPTY_FLAGS;
            SendStatusFromServerOperation None unimplemented
              "Method not found!" _EMPTY_FLAGS],
           _reject_rpc_tag)]
    /\ serve_call_event (mkEvent _reject_rpc_tag cancelled message) w s1
       = inr (s2, false)
    /\ rpc_states s2 = rpc_states s
    /\ thread_pool s2 = thread_pool s
    /\ active_rpc_count s2 = active_rpc_count s.
Proof.
  intros Hstage Hdue Hfresh Hsuccess Hmethod Hfind.
  unfold serve_request_call. rewrite decide_True by done.
  unfold _handle_call. simpl. rewrite Hsuccess, Hmethod, Hfind. simpl.
  rewrite Hstage. simpl.
  eexists _, _, _. split; [reflexivity |]. simpl.
  split; [apply lookup_insert_eq |].
  split; [done |]. split; [done |].
  unfold serve_call_event. simpl.
  rewrite decide_True by (by apply elem_of_union_l, elem_of_singleton).
  unfold _stop_serving. simpl.
  rewrite (andb_false_intro2 _ (bool_decide (_ ∪ _ = ∅)));
    [| apply bool_decide_eq_false;
       intros Hempty;
       apply (not_elem_of_empty (C := gset string) _REQUEST_CALL_TAG);
       rewrite <- Hempty; by apply elem_of_union_l, elem_of_singleton].
  split; [reflexivity |]. simpl. split; [| done].
  apply set_eq. intros x.
  rewrite elem_of_difference, elem_of_union, elem_of_singleton.
  split; [tauto |]. intros Hx. split; [by right |]. by intros ->.
Qed.

End Rejected.

(** ** What a behaviour raises *)

Section Raising.
Context {common : grpc_common}.

(** What [context.abort] leaves and raises, for a code other than [OK]. *)
Lemma Context_abort_spec {A} a_code a_details w :
  a_code <> OK ->
  Context_abort (A := A) a_code a_details w
  = (Raise (Exception (next_addr w)),
     exec (Context_abort (A := A) a_code a_details) w)
  /\ code (st (exec (Context_abort (A := A) a_code a_details) w))
     = Some a_code
  /\ details (st (exec (Context_abort (A := A) a_code a_details) w))
     = Some (encode a_details)
  /\ abortion (st (exec (Context_abort (A := A) a_code a_details) w))
     = Some (Exception (next_addr w)).
Proof.
  intros Hcode. destruct w as [s a c n e f i]. unfold exec, Context_abort.
  rewrite bool_decide_eq_false_2 by done.
  cbv [bind get modify raise new_Exception with_st id]. done.
Qed.

(** X11: [context.abort(code, details)] with a code other than [OK], called
    by application code after any beginning that returned and not caught:
    [_call_behavior] returns [(None, False)], code and details are latched,
    and the [except] clause, which takes the lock after whatever the serving
    thread has done since the raise, has started one send-status operation
    unless the client is cancelled by then.  Its code is the cygrpc code of
    [code] ([unknown] when the table has none) and its details are the
    encoded [details]; the details "RPC Aborted" given to [_abort] are not
    sent.  This holds for every schedule of the serving thread. *)
Theorem abort_sends_code_and_details (a_code : StatusCode) (a_details : text)
    R (behavior : Argument -> Script R) (argument : Argument)
    (request_deserializer : Deserializer) (beginning : Script unit)
    (k : Res CtxVal -> Script R) (w w1 : World) :
  a_code <> OK ->
  behavior argument
  = script_bind beginning (fun _ => Do (ctx_abort a_code a_details) k) ->
  unwinding k ->
  run_script request_deserializer beginning
    (exec (record_invocation argument) w) = (Ok tt, w1) ->
  let w2 :=
    exec released
      (exec (Context_abort (A := CtxVal) a_code a_details)
         (exec released w1)) in
  exists w',
    _call_behavior behavior argument request_deserializer w
    = (Ok (None, false), w')
    /\ code (st w') = Some a_code
    /\ details (st w') = Some (encode a_details)
    /\ statuses w'
       = statuses w2
         ++ (if bool_decide (client (st w2) = _CANCELLED) then []
             else [(_application_code a_code, encode a_details)]).
Proof.
  intros Hcode Hbehavior Hk Hbeginning w2.
  unfold _call_behavior, try_except. unfold bind at 1.
  unfold exec in Hbeginning.
  destruct (record_invocation argument w) as [r0 w0] eqn:Hrec.
  assert (r0 = Ok tt) as -> by (unfold record_invocation in Hrec; congruence).
  simpl in Hbeginning.
  unfold bind at 1. rewrite Hbehavior, run_script_bind.
  unfold bind at 1. rewrite Hbeginning.
  destruct (Context_abort_spec (A := CtxVal) a_code a_details
              (exec released w1) Hcode) as (Hrun & Hc & Hd & Ha).
  rewrite (run_script_Do request_deserializer (ctx_abort a_code a_details) k
             w1 _ _ Hrun) by done.
  rewrite Hk. simpl. unfold bind at 1. rewrite released_ok. fold w2.
  destruct (released_application_fields
              (exec (Context_abort (A := CtxVal) a_code a_details)
                 (exec released w1))) as (Hc2 & Hd2 & Ha2 & _).
  fold w2 in Hc2, Hd2, Ha2. rewrite Hc in Hc2. rewrite Hd in Hd2.
  rewrite Ha in Ha2.
  unfold abort_on_exception. cbv [bind get id]. simpl.
  rewrite Ha2. rewrite bool_decide_eq_true_2 by done.
  destruct (abort_spec unknown "RPC Aborted" w2)
    as (w' & -> & Hst & _ & Hc' & Hd' & _).
  exists w'. split; [reflexivity |]. rewrite Hc', Hd', Hst, Hc2, Hd2.
  unfold _abortion_code. by rewrite Hc2.
Qed.

(** X12: an exception of the application that is neither the abortion of
    the call nor an error the module raised: [_call_behavior] returns
    [(None, False)], and the [except] clause, which takes the lock after
    whatever the serving thread has done since the raise, has started one
    send-status operation and no message, unless the client is cancelled by
    then; when the application has set neither code nor details, its code is
    [unknown] and its details are "Exception calling application: " followed
    by the text of the exception.  This holds for every schedule of the
    serving thread. *)
Theorem application_exception_is_UNKNOWN (exception : Exn)
    R (behavior : Argument -> Script R) (argument : Argument)
    (request_deserializer : Deserializer) (beginning : Script unit)
    (w w1 : World) :
  behavior argument = script_bind beginning (fun _ => Throw exception) ->
  run_script request_deserializer beginning
    (exec (record_invocation argument) w) = (Ok tt, w1) ->
  abortion (st w1) <> Some exception ->
  exception ∉ rpc_errors (st w1) ->
  let w2 := exec released w1 in
  exists w',
    _call_behavior behavior argument request_deserializer w
    = (Ok (None, false), w')
    /\ statuses w'
       = statuses w2
         ++ (if bool_decide (client (st w2) = _CANCELLED) then []
             else [(_abortion_code (st w1) unknown,
                    match details (st w1) with
                    | None =>
                        encode ("Exception calling application: "
                                +:+ str_of_exn exception)
                    | Some d => d
                    end)])
    /\ messages w' = messages w2.
Proof.
  intros Hbehavior Hbeginning Habortion Herrors w2.
  unfold _call_behavior, try_except. unfold bind at 1.
  unfold exec in Hbeginning.
  destruct (record_invocation argument w) as [r0 w0] eqn:Hrec.
  assert (r0 = Ok tt) as -> by (unfold record_invocation in Hrec; congruence).
  simpl in Hbeginning.
  unfold bind at 1. rewrite Hbehavior, run_script_bind.
  unfold bind at 1. rewrite Hbeginning. simpl.
  unfold bind at 1. rewrite released_ok. fold w2.
  destruct (released_application_fields w1) as (Hc & Hd & Ha & Hr).
  fold w2 in Hc, Hd, Ha, Hr.
  unfold abort_on_exception. cbv [bind get id]. simpl.
  rewrite Ha, Hr.
  rewrite bool_decide_eq_false_2 by done.
  rewrite bool_decide_eq_true_2 by done.
  match goal with
  | |- context [_abort ?c ?d ?v] =>
      destruct (abort_spec c d v) as (w' & -> & Hst & Hm & _)
  end.
  exists w'. split; [reflexivity |]. split; [| done].
  rewrite Hst. unfold _abortion_code. by rewrite Hc, Hd.
Qed.

End Raising.

(** ** The request iterator and the errors of the module *)

Section Iterator.
Context {common : grpc_common}.

Lemma raise_rpc_error_spec {A} w :
  @_raise_rpc_error A w
  = (Raise (RpcError (next_addr w)),
     mkWorld (set_rpc_errors (rpc_errors (st w) ++ [RpcError (next_addr w)])
                (st w))
       (addr_of_state w) (the_call w) (S (next_addr w)) (env w) (fired w)
       (invoked w)).
Proof. by destruct w. Qed.

Lemma look_for_request_spec w r w' :
  RequestIterator_look_for_request w = (r, w') ->
  match r with
  | Ok (Some _) => request (st w') = None /\ client (st w') <> _CANCELLED
  | Ok None => w' = w
  | Raise e => raised_by_module e w'
  | Blocked => False
  end.
Proof.
  unfold RequestIterator_look_for_request. cbv [bind get id raise]. simpl.
  destruct (decide (client (st w) = _CANCELLED)) as [Hc | Hc].
  - rewrite bool_decide_eq_true_2 by done. rewrite raise_rpc_error_spec.
    intros H. simplify_eq. right. simpl. split; [| done].
    apply elem_of_app. right. by apply list_elem_of_singleton.
  - rewrite bool_decide_eq_false_2 by done.
    destruct (bool_decide (request (st w) = None)
              && bool_decide (_RECEIVE_MESSAGE_TOKEN ∉ due (st w))).
    + intros H. simplify_eq. by unfold raised_by_module; left.
    + cbv [modify ret with_st]. intros H. simplify_eq.
      destruct (request (st w)) eqn:Hr; simpl; [done |].
      destruct w as [s ? ? ? ? ? ?]. simpl in *. destruct s. simpl in *.
      by subst.
Qed.

Lemma next_wait_spec fuel w r w' :
  while_True RequestIterator_look_for_request fuel w = (r, w') ->
  match r with
  | Ok _ => request (st w') = None /\ client (st w') <> _CANCELLED
  | Raise e => raised_by_module e w'
  | Blocked => True
  end.
Proof.
  revert w. induction fuel as [| fuel IH]; intros w Hrun; simpl in Hrun;
    [by simplify_eq |].
  unfold bind at 1 in Hrun.
  destruct (wait w) as [[[] | e |] w1] eqn:Hwait; simplify_eq; [| | done].
  - unfold bind at 1 in Hrun.
    destruct (RequestIterator_look_for_request w1) as [[[m |] | e |] w2]
      eqn:Hlook; apply look_for_request_spec in Hlook; simplify_eq.
    + by unfold ret in Hrun; simplify_eq.
    + subst. by apply IH in Hrun.
    + done.
    + done.
  - unfold wait in Hwait. by destruct (env w).
Qed.

Lemma request_iterator_next_result request_deserializer w r w' :
  RequestIterator_next request_deserializer w = (r, w') ->
  match r with
  | Ok _ => request (st w') = None /\ client (st w') <> _CANCELLED
  | Raise e => raised_by_module e w'
  | Blocked => True
  end.
Proof.
  unfold RequestIterator_next, RequestIterator_raise_or_start_receive_message.
  cbv [bind get id raise]. simpl.
  destruct (decide (client (st w) = _CANCELLED)) as [Hc | Hc].
  - rewrite bool_decide_eq_true_2 by done. rewrite raise_rpc_error_spec.
    intros H. simplify_eq. right. simpl. split; [| done].
    apply elem_of_app. right. by apply list_elem_of_singleton.
  - rewrite bool_decide_eq_false_2 by done.
    destruct (bool_decide (client (st w) = _CLOSED) || statused (st w)).
    + intros H. simplify_eq. by unfold raised_by_module; left.
    + cbv [start_server_batch due_add modify with_call with_st]. simpl.
      unfold wait_until. apply next_wait_spec.
Qed.

(** X13: [next] on the request iterator raises a new [RpcError], and starts
    nothing, for a cancelled client; raises [StopIteration], and changes
    nothing, for a client that is closed or a call that is statused;
    otherwise it starts one receive.  A request it returns has been taken out
    of the state; an exception it raises is [StopIteration] or an error
    recorded in [rpc_errors] for a cancelled client. *)
Theorem request_iterator_next (request_deserializer : Deserializer) (w : World) :
  (client (st w) = _CANCELLED ->
   exists w',
     RequestIterator_next request_deserializer w
     = (Raise (RpcError (next_addr w)), w')
     /\ the_call w' = the_call w)
  /\ (client (st w) <> _CANCELLED ->
      client (st w) = _CLOSED \/ statused (st w) = true ->
      RequestIterator_next request_deserializer w = (Raise StopIteration, w))
  /\ (client (st w) = _OPEN -> statused (st w) = false ->
      exists r w',
        RequestIterator_next request_deserializer w = (r, w')
        /\ batches (the_call w) ++
             [([ReceiveMessageOperation _EMPTY_FLAGS],
               _receive_message request_deserializer)]
           `prefix_of` batches (the_call w'))
  /\ (forall r w',
        RequestIterator_next request_deserializer w = (r, w') ->
        match r with
        | Ok _ => request (st w') = None /\ client (st w') <> _CANCELLED
        | Raise e => raised_by_module e w'
        | Blocked => True
        end).
Proof.
  split; [| split; [| split]];
    try unfold RequestIterator_next,
          RequestIterator_raise_or_start_receive_message.
  - intros Hc. cbv [bind get id raise]. simpl.
    rewrite bool_decide_eq_true_2 by done. rewrite raise_rpc_error_spec.
    by eexists.
  - intros Hc Hclosed. cbv [bind get id raise]. simpl.
    rewrite bool_decide_eq_false_2 by done.
    destruct Hclosed as [H | H]; rewrite H; [done |].
    by rewrite orb_true_r.
  - intros Hc Hs. cbv [bind get id raise]. simpl. rewrite Hc, Hs. simpl.
    cbv [start_server_batch due_add modify with_call with_st]. simpl.
    match goal with
    | |- context [wait_until ?b ?v] =>
        pose proof (evolves_batches _ _
                      (preserves_wait_until b preserves_look_for_request v))
          as Hprefix;
        unfold exec in Hprefix;
        destruct (wait_until b v) as [r w'] eqn:Hrun
    end.
    exists r, w'. split; [done |]. by destruct w.
  - intros r w'. apply request_iterator_next_result.
Qed.

(** A context call that raises an [RpcError] has found the client
    cancelled. *)
Lemma ctx_call_rpc_error request_deserializer c w a w' :
  ctx_call request_deserializer c w = (Raise (RpcError a), w') ->
  client (st w') = _CANCELLED.
Proof.
  destruct c; simpl; cbv [bind]; simpl.
  - by destruct w.
  - by destruct w.
  - unfold Context_add_callback. cbv [bind get id modify ret with_st]. simpl.
    by destruct (callbacks (st w)).
  - by destruct w.
  - unfold Context_send_initial_metadata. cbv [bind get id raise]. simpl.
    destruct (decide (client (st w) = _CANCELLED)) as [Hc | Hc].
    + rewrite bool_decide_eq_true_2 by done. rewrite raise_rpc_error_spec.
      intros H. by simplify_eq.
    + rewrite bool_decide_eq_false_2 by done.
      destruct (initial_metadata_allowed (st w)); [| done].
      cbv [start_server_batch modify due_add with_st with_call]. done.
  - by destruct w.
  - unfold Context_abort.
    destruct (bool_decide (a_code = OK));
      cbv [bind get modify raise new_Exception with_st id]; simpl;
      intros H; simplify_eq.
  - by destruct w.
  - by destruct w.
  - destruct (RequestIterator_next request_deserializer w) as [[m | e |] w1]
      eqn:Hnext; intros H; simplify_eq.
    by destruct (request_iterator_next_result request_deserializer w _ _ Hnext)
      as [H | [_ H]].
Qed.

End Iterator.

(** ** Errors of the module in application code *)

Section Quiet.
Context {common : grpc_common}.

Lemma abort_on_exception_cancelled what exception w :
  client (st w) = _CANCELLED ->
  abort_on_exception what exception w = (Ok tt, w).
Proof.
  intros Hc. unfold abort_on_exception. cbv [bind get id]. simpl.
  destruct (bool_decide (abortion (st w) = Some exception)).
  - match goal with
    | |- _abort ?c ?d _ = _ =>
        destruct (abort_spec c d w) as (w' & -> & _ & _ & _ & _ & Hw)
    end.
    by rewrite Hw.
  - destruct (bool_decide (exception ∉ rpc_errors (st w))); [| done].
    match goal with
    | |- _abort ?c ?d _ = _ =>
        destruct (abort_spec c d w) as (w' & -> & _ & _ & _ & _ & Hw)
    end.
    by rewrite Hw.
Qed.

(** X14: an [RpcError] that a context call or the request iterator raises
    in application code, and that the application does not catch, ends
    [_call_behavior] with [(None, False)] and nothing more done to the call
    by the worker: the client is cancelled, and the [except] clause leaves
    the state and the call as the raising call, and the serving thread since
    then, have left them. *)
Theorem rpc_error_of_the_module_ends_quietly (c : CtxCall)
    R (behavior : Argument -> Script R) (argument : Argument)
    (request_deserializer : Deserializer) (beginning : Script unit)
    (k : Res CtxVal -> Script R) (w w1 w2 : World) (a : nat) :
  behavior argument = script_bind beginning (fun _ => Do c k) ->
  unwinding k ->
  run_script request_deserializer beginning
    (exec (record_invocation argument) w) = (Ok tt, w1) ->
  ctx_call request_deserializer c (exec released w1)
  = (Raise (RpcError a), w2) ->
  _call_behavior behavior argument request_deserializer w
  = (Ok (None, false), exec released w2)
  /\ client (st w2) = _CANCELLED
  /\ client (st (exec released w2)) = _CANCELLED.
Proof.
  intros Hbehavior Hk Hbeginning Hcall.
  pose proof (ctx_call_rpc_error _ _ _ _ _ Hcall) as Hc.
  pose proof (released_cancelled _ Hc) as Hc'.
  split; [| done].
  unfold _call_behavior, try_except. unfold bind at 1.
  unfold exec in Hbeginning.
  destruct (record_invocation argument w) as [r0 w0] eqn:Hrec.
  assert (r0 = Ok tt) as -> by (unfold record_invocation in Hrec; congruence).
  simpl in Hbeginning.
  unfold bind at 1. rewrite Hbehavior, run_script_bind.
  unfold bind at 1. rewrite Hbeginning.
  rewrite (run_script_Do request_deserializer c k w1 _ _ Hcall) by done.
  rewrite Hk. simpl. unfold bind. rewrite released_ok.
  by rewrite abort_on_exception_cancelled.
Qed.

End Quiet.

(** ** Responses *)

Section Responses.
Context {common : grpc_common}.

Lemma serve_events_messages events w :
  messages (serve_events events w) = messages w.
Proof.
  revert w. induction events as [| event rest IH]; intros w; simpl; [done |].
  assert (Hev : messages (serve_event event w).2 = messages w).
  { destruct w as [s a c n e f i], event as [t cancelled message].
    unfold serve_event, call_tag, send_status_from_server,
      receive_close_on_server, receive_message, send_initial_metadata,
      send_message, _abort, _possibly_finish_call, messages.
    destruct t; run_atomic; rewrite ?flat_map_app; simpl;
      rewrite ?app_nil_r; done. }
  destruct (serve_event event w) as [[r | e |] w']; simpl in *.
  - by rewrite IH.
  - by destruct w'.
  - by destruct w'.
Qed.

Lemma wait_messages w : messages (wait w).2 = messages w.
Proof.
  unfold wait. destruct (env w) as [| events rest]; simpl; [done |].
  rewrite serve_events_messages. by destruct w.
Qed.



(** The wait of [_send_response]: it never raises, it sends nothing, it
    returns when the token has left [due], and it is blocked only with no
    event left. *)
Lemma send_response_wait token fuel w r w' :
  length (env w) < fuel ->
  while_True (_send_response_look token) fuel w = (r, w') ->
  messages w' = messages w
  /\ match r with
     | Ok proceed =>
         (token ∉ due (st w'))
         /\ proceed
            = bool_decide (client (st w') <> _CANCELLED)
              && negb (statused (st w'))
     | Raise _ => False
     | Blocked => env w' = []
     end.
Proof.
  revert w. induction fuel as [| fuel IH]; intros w Hfuel Hrun; [lia |].
  simpl in Hrun. unfold bind at 1 in Hrun.
  pose proof (wait_messages w) as Hm.
  destruct (wait w) as [[[] | e |] w1] eqn:Hwait; simpl in Hm.
  - pose proof (wait_consumes _ _ Hwait) as Hless.
    unfold bind at 1 in Hrun. unfold _send_response_look in Hrun.
    cbv [bind get id] in Hrun. simpl in Hrun.
    destruct (decide (token ∉ due (st w1))) as [Hdue | Hdue].
    + rewrite bool_decide_eq_true_2 in Hrun by done.
      unfold ret in Hrun. by simplify_eq.
    + rewrite bool_decide_eq_false_2 in Hrun by done.
      unfold ret in Hrun. apply IH in Hrun; [| lia].
      destruct Hrun as [Hm' Hr]. split; [congruence | done].
  - unfold wait in Hwait. by destruct (env w).
  - unfold wait in Hwait. destruct (env w) eqn:Henv; [| done].
    by simplify_eq.
Qed.

(** What [_send_response] starts, and how it ends. *)
Lemma send_response_spec serialized_response w r w' :
  _send_response serialized_response w = (r, w') ->
  if bool_decide (client (st w) = _CANCELLED) || statused (st w) then
    r = Ok false /\ w' = w
  else
    (exists rest,
       batches (the_call w')
       = batches (the_call w)
         ++ [((if initial_metadata_allowed (st w)
               then [SendInitialMetadataOperation None _EMPTY_FLAGS] else [])
              ++ [SendMessageOperation serialized_response _EMPTY_FLAGS],
              _send_message (send_response_token (st w)))]
         ++ rest)
    /\ messages w' = messages w ++ [serialized_response]
    /\ initial_metadata_allowed (st w') = false
    /\ match r with
       | Ok proceed =>
           (send_response_token (st w) ∉ due (st w'))
           /\ proceed
              = bool_decide (client (st w') <> _CANCELLED)
                && negb (statused (st w'))
       | Raise _ => False
       | Blocked => env w' = []
       end.
Proof.
  unfold _send_response. cbv [bind get id]. simpl.
  destruct (bool_decide (client (st w) = _CANCELLED) || statused (st w)).
  { unfold ret. intros H. by simplify_eq. }
  unfold send_response_token.
  destruct w as [s a c n e f i]. simpl.
  destruct (initial_metadata_allowed s) eqn:Hallowed;
    cbv [modify ret start_server_batch due_add with_st with_call]; simpl;
    unfold wait_until;
    match goal with
    | |- while_True ?b ?fuel ?v = _ -> _ =>
        pose proof (preserves_while_True b fuel
                      (preserves_send_response_look _) v) as Hev;
        unfold exec in Hev;
        intros Hrun; rewrite Hrun in Hev; simpl in Hev;
        apply send_response_wait in Hrun; [| unfold fuel_of; simpl; lia];
        destruct Hrun as [Hm Hr];
        destruct (evolves_batches _ _ Hev) as [rest Hrest];
        pose proof (evolves_initial_metadata _ _ Hev ltac:(simpl; done))
          as Hallowed'
    end;
    simpl in *;
    (split; [exists rest; by rewrite Hrest, <- !app_assoc |]);
    (split; [rewrite Hm; unfold messages; simpl; rewrite flat_map_app;
             simpl; by rewrite ?app_nil_r |]);
    done.
Qed.

(** X15: [_send_response] on a call that is neither cancelled nor statused
    starts one batch with the message, together with the initial metadata
    when they are still allowed, and forbids initial metadata from then on.
    It never raises, and it does not return before the batch has completed:
    when it returns, the token of the batch has left [due], and what it
    returns tells whether the call is still active.  On a cancelled or
    statused call it returns [False] and starts nothing. *)
Theorem send_response_waits_for_the_send (serialized_response : bytes)
    (w : World) (r : Res bool) (w' : World) :
  _send_response serialized_response w = (r, w') ->
  (client (st w) = _CANCELLED \/ statused (st w) = true ->
   r = Ok false /\ w' = w)
  /\ (client (st w) <> _CANCELLED -> statused (st w) = false ->
      (exists rest,
         batches (the_call w')
         = batches (the_call w)
           ++ [((if initial_metadata_allowed (st w)
                 then [SendInitialMetadataOperation None _EMPTY_FLAGS]
                 else [])
                ++ [SendMessageOperation serialized_response _EMPTY_FLAGS],
                _send_message (send_response_token (st w)))]
           ++ rest)
      /\ initial_metadata_allowed (st w') = false
      /\ match r with
         | Ok proceed =>
             (send_response_token (st w) ∉ due (st w'))
             /\ proceed
                = bool_decide (client (st w') <> _CANCELLED)
                  && negb (statused (st w'))
         | Raise _ => False
         | Blocked => env w' = []
         end).
Proof.
  intros Hrun. apply send_response_spec in Hrun. split.
  - intros [Hc | Hs].
    + by rewrite bool_decide_eq_true_2 in Hrun by done.
    + by rewrite Hs, orb_true_r in Hrun.
  - intros Hc Hs. rewrite bool_decide_eq_false_2, Hs in Hrun by done.
    simpl in Hrun. tauto.
Qed.



(** X17: the response of a unary behaviour that returned.  [_status] takes
    the lock after whatever the serving thread has done since the behaviour
    returned.  When the serializer accepts the response,
    [_unary_response_in_pool] then sends it in the batch of the status,
    after the status and, when they are still allowed, the initial metadata,
    and marks the call statused; for a client cancelled by then it sends
    nothing.  When the serializer fails, no message is sent and the status
    is [internal] with the details "Failed to serialize response!", unless
    the application has set a code or details.  This holds for every
    schedule of the serving thread. *)
Theorem unary_response_goes_with_the_status (behavior : UnaryBehavior)
    (argument_thunk : M (option Argument)) (argument : Argument)
    (request_deserializer : Deserializer) (response_serializer : Serializer)
    (response : Message) (w0 w w1 : World) :
  argument_thunk (exec released w0) = (Ok (Some argument), w) ->
  _call_behavior behavior argument request_deserializer w
  = (Ok (Some response, true), w1) ->
  let w2 := exec released w1 in
  exists w',
    _unary_response_in_pool behavior argument_thunk request_deserializer
      response_serializer w0 = (Ok tt, w')
    /\ (client (st w2) = _CANCELLED -> w' = w2)
    /\ (client (st w2) <> _CANCELLED ->
        match response_serializer response with
        | Some serialized_response =>
            batches (the_call w')
            = batches (the_call w2)
              ++ [([SendStatusFromServerOperation (trailing_metadata (st w2))
                      (_completion_code (st w2)) (_details (st w2))
                      _EMPTY_FLAGS]
                   ++ (if initial_metadata_allowed (st w2)
                       then [SendInitialMetadataOperation None _EMPTY_FLAGS]
                       else [])
                   ++ [SendMessageOperation serialized_response _EMPTY_FLAGS],
                   _send_status_from_server _SEND_STATUS_FROM_SERVER_TOKEN)]
            /\ statused (st w') = true
            /\ _SEND_STATUS_FROM_SERVER_TOKEN ∈ due (st w')
        | None =>
            messages w' = messages w2
            /\ statuses w'
               = statuses w2
                 ++ [(_abortion_code (st w2) internal,
                      match details (st w2) with
                      | None => "Failed to serialize response!"
                      | Some d => d
                      end)]
        end).
Proof.
  intros Hthunk Hbehavior w2. unfold _unary_response_in_pool.
  rewrite bind_released.
  unfold bind at 1. rewrite Hthunk. unfold bind at 1. rewrite Hbehavior.
  unfold bind at 1. unfold _serialize_response.
  destruct (response_serializer response) as [serialized |].
  - unfold ret at 1. rewrite bind_released. fold w2.
    destruct w2 as [s a c n e f i]. unfold _status.
    cbv [bind get id modify ret start_server_batch due_add with_st with_call].
    simpl. destruct (decide (client s = _CANCELLED)) as [Hc | Hc].
    + rewrite bool_decide_eq_false_2 by tauto. eexists. by repeat split.
    + rewrite bool_decide_eq_true_2 by done. eexists.
      split; [reflexivity |]. split; [done |]. intros _. simpl.
      split; [done |]. split; [done |]. set_solver.
  - rewrite bind_released. fold w2. unfold bind at 1 2.
    match goal with
    | |- context [_abort ?c ?d ?v] =>
        destruct (abort_spec c d v) as (w' & -> & Hst & Hm & _ & _ & Hw)
    end.
    exists w'. unfold ret. split; [done |]. split; [done |].
    intros Hc. rewrite bool_decide_eq_false_2 in Hst by done. by split.
Qed.

End Responses.

(** ** The completion callbacks *)

Lemma callbacks_run_refl w : callbacks_run w w.
Proof.
  split.
  - done.
  - intros cbs cbs' H1 H2. rewrite H1 in H2. by simplify_eq.
  - intros cbs H1 H2. by rewrite H1 in H2.
Qed.

Lemma callbacks_run_trans w1 w2 w3 :
  callbacks_run w1 w2 -> callbacks_run w2 w3 -> callbacks_run w1 w3.
Proof.
  intros [Hr12 Hs12 Ht12] [Hr23 Hs23 Ht23]. split.
  - intros H1. destruct (Hr12 H1) as [H2 Hf12].
    destruct (Hr23 H2) as [H3 Hf23]. split; [done | congruence].
  - intros cbs cbs' H1 H3. destruct (callbacks (st w2)) as [cbs2 |] eqn:H2.
    + destruct (Hs12 _ _ H1 eq_refl) as [Hp12 Hf12].
      destruct (Hs23 _ _ eq_refl H3) as [Hp23 Hf23].
      split; [by etrans | congruence].
    + destruct (Hr23 eq_refl) as [H3' _]. congruence.
  - intros cbs H1 H3. destruct (callbacks (st w2)) as [cbs2 |] eqn:H2.
    + destruct (Hs12 _ _ H1 eq_refl) as [[rest ->] Hf12].
      destruct (Ht23 _ eq_refl H3) as [more Hf23].
      exists (rest ++ more). by rewrite Hf23, Hf12, <- !app_assoc.
    + destruct (Hr23 eq_refl) as [_ Hf23].
      destruct (Ht12 _ H1 eq_refl) as [more Hf12].
      exists more. congruence.
Qed.

Ltac solve_callbacks_run :=
  split; simpl in *; intros; simplify_eq; rewrite ?app_nil_r;
  first
    [ done
    | by split
    | (split; [by apply prefix_app_r | done])
    | (by exists []; rewrite app_nil_r)
    | idtac ].

Create HintDb fire_once.

Section Callbacks.
Context {common : grpc_common}.

Lemma fires_once_ret {A} (a : A) : fires_once (ret a).
Proof. intros w. apply callbacks_run_refl. Qed.

Lemma fires_once_raise {A} e : fires_once (@raise A e).
Proof. intros w. apply callbacks_run_refl. Qed.

Lemma fires_once_bind {A B} (m : M A) (k : A -> M B) :
  fires_once m -> (forall a, fires_once (k a)) -> fires_once (bind m k).
Proof.
  intros Hm Hk w. unfold exec, bind. specialize (Hm w). unfold exec in Hm.
  destruct (m w) as [[a | e |] w']; simpl in *; try done.
  eapply callbacks_run_trans; [exact Hm | apply Hk].
Qed.

Lemma fires_once_try_except {A} (m : M A) (h : Exn -> M A) :
  fires_once m -> (forall e, fires_once (h e)) -> fires_once (try_except m h).
Proof.
  intros Hm Hh w. unfold exec, try_except. specialize (Hm w). unfold exec in Hm.
  destruct (m w) as [[a | e |] w']; simpl in *; try done.
  eapply callbacks_run_trans; [exact Hm | apply Hh].
Qed.

Lemma fires_once_get {A} (f : RPCState -> A) : fires_once (get f).
Proof. intros w. apply callbacks_run_refl. Qed.

Lemma fires_once_start_server_batch operations t :
  fires_once (start_server_batch operations t).
Proof. intros [s a c n e f i]. run_atomic; solve_callbacks_run. Qed.

Lemma fires_once_due_add token : fires_once (due_add token).
Proof. intros [s a c n e f i]. run_atomic; solve_callbacks_run. Qed.

Lemma fires_once_record_invocation argument :
  fires_once (record_invocation argument).
Proof. intros [s a c n e f i]. run_atomic; solve_callbacks_run. Qed.

Lemma fires_once_set_request r : fires_once (modify (set_request r)).
Proof. intros [s a c n e f i]. run_atomic; solve_callbacks_run. Qed.

Lemma fires_once_set_initial_metadata_allowed_false :
  fires_once (modify (set_initial_metadata_allowed false)).
Proof. intros [s a c n e f i]. run_atomic; solve_callbacks_run. Qed.

Lemma fires_once_raise_rpc_error {A} : fires_once (@_raise_rpc_error A).
Proof.
  intros [s a c n e f i]. unfold _raise_rpc_error. run_atomic; solve_callbacks_run.
Qed.

Lemma fires_once_abort a_code a_details : fires_once (_abort a_code a_details).
Proof. intros [s a c n e f i]. unfold _abort. run_atomic; solve_callbacks_run. Qed.

Lemma fires_once_status serialized_response :
  fires_once (_status serialized_response).
Proof. intros [s a c n e f i]. unfold _status. run_atomic; solve_callbacks_run. Qed.

Hint Resolve fires_once_ret fires_once_raise fires_once_get
  fires_once_start_server_batch fires_once_due_add fires_once_record_invocation
  fires_once_set_request fires_once_set_initial_metadata_allowed_false
  fires_once_raise_rpc_error fires_once_abort
  fires_once_status : fire_once.

(** Operations made of others are checked piece by piece. *)
Ltac fire_once :=
  repeat first
    [ progress intros
    | solve [auto with fire_once]
    | apply fires_once_bind
    | apply fires_once_try_except
    | match goal with
      | |- fires_once (match ?x with _ => _ end) => destruct x
      end ].

(** The continuation of an event and the calls of the callbacks it returns
    are one step of the serving thread. *)
Lemma fires_once_serve_event event : fires_once (serve_event event).
Proof.
  intros [s a c n e f i]. destruct event as [t cancelled message].
  unfold serve_event, call_tag, send_status_from_server,
    receive_close_on_server, receive_message, send_initial_metadata,
    send_message, _abort, _possibly_finish_call.
  destruct t; run_atomic; solve_callbacks_run.
Qed.

Hint Resolve fires_once_serve_event : fire_once.

Lemma callbacks_run_with_env v w : callbacks_run w (with_env v w).
Proof. destruct w. solve_callbacks_run. Qed.

Lemma serve_events_callbacks_run events w :
  callbacks_run w (serve_events events w).
Proof.
  revert w. induction events as [| event rest IH]; intros w; simpl.
  - apply callbacks_run_refl.
  - pose proof (fires_once_serve_event event w) as Hev. unfold exec in Hev.
    destruct (serve_event event w) as [[r | e |] w']; simpl in Hev.
    + eapply callbacks_run_trans; [exact Hev | apply IH].
    + eapply callbacks_run_trans; [exact Hev |]. apply callbacks_run_with_env.
    + eapply callbacks_run_trans; [exact Hev |]. apply callbacks_run_with_env.
Qed.

Lemma fires_once_wait : fires_once wait.
Proof.
  intros w. unfold exec, wait. destruct (env w) as [| events rest] eqn:Henv.
  - apply callbacks_run_refl.
  - simpl. eapply callbacks_run_trans; [| apply serve_events_callbacks_run].
    apply callbacks_run_with_env.
Qed.

Lemma fires_once_released : fires_once released.
Proof.
  intros w. unfold exec, released. destruct (env w) as [| events rest] eqn:Henv.
  - apply callbacks_run_refl.
  - simpl. eapply callbacks_run_trans; [| apply serve_events_callbacks_run].
    apply callbacks_run_with_env.
Qed.

Hint Resolve fires_once_wait fires_once_released : fire_once.

Lemma fires_once_while_True {A} (body : M (option A)) fuel :
  fires_once body -> fires_once (while_True body fuel).
Proof.
  intros Hbody. induction fuel as [| fuel IH]; simpl.
  - intros w. apply callbacks_run_refl.
  - fire_once.
Qed.

Lemma fires_once_wait_until {A} (body : M (option A)) :
  fires_once body -> fires_once (wait_until body).
Proof.
  intros Hbody w. unfold wait_until. apply fires_once_while_True, Hbody.
Qed.

Lemma fires_once_Context_is_active : fires_once Context_is_active.
Proof. unfold Context_is_active. fire_once. Qed.

Lemma fires_once_Context_cancel : fires_once Context_cancel.
Proof.
  intros [s a [b k] n e f i]. unfold Context_cancel. run_atomic; solve_callbacks_run.
Qed.

Lemma fires_once_Context_add_callback callback :
  fires_once (Context_add_callback callback).
Proof.
  intros [s a c n e f i]. unfold Context_add_callback.
  run_atomic; solve_callbacks_run.
Qed.

Lemma fires_once_Context_disable_next_message_compression :
  fires_once Context_disable_next_message_compression.
Proof.
  intros [s a c n e f i]. unfold Context_disable_next_message_compression.
  run_atomic; solve_callbacks_run.
Qed.

Lemma fires_once_Context_send_initial_metadata initial_metadata :
  fires_once (Context_send_initial_metadata initial_metadata).
Proof. unfold Context_send_initial_metadata. fire_once. Qed.

Lemma fires_once_Context_set_trailing_metadata a_trailing_metadata :
  fires_once (Context_set_trailing_metadata a_trailing_metadata).
Proof.
  intros [s a c n e f i]. unfold Context_set_trailing_metadata.
  run_atomic; solve_callbacks_run.
Qed.

Lemma fires_once_Context_abort {A} a_code a_details :
  fires_once (@Context_abort _ A a_code a_details).
Proof.
  intros [s a c n e f i]. unfold Context_abort. run_atomic; solve_callbacks_run.
Qed.

Lemma fires_once_Context_set_code a_code : fires_once (Context_set_code a_code).
Proof.
  intros [s a c n e f i]. unfold Context_set_code. run_atomic; solve_callbacks_run.
Qed.

Lemma fires_once_Context_set_details a_details :
  fires_once (Context_set_details a_details).
Proof.
  intros [s a c n e f i]. unfold Context_set_details. run_atomic; solve_callbacks_run.
Qed.

Lemma fires_once_raise_or_start_receive_message request_deserializer :
  fires_once (RequestIterator_raise_or_start_receive_message request_deserializer).
Proof. unfold RequestIterator_raise_or_start_receive_message. fire_once. Qed.

Lemma fires_once_look_for_request : fires_once RequestIterator_look_for_request.
Proof. unfold RequestIterator_look_for_request. fire_once. Qed.

Hint Resolve fires_once_wait_until fires_once_Context_is_active
  fires_once_Context_cancel fires_once_Context_add_callback
  fires_once_Context_disable_next_message_compression
  fires_once_Context_send_initial_metadata
  fires_once_Context_set_trailing_metadata fires_once_Context_abort
  fires_once_Context_set_code fires_once_Context_set_details
  fires_once_raise_or_start_receive_message fires_once_look_for_request
  : fire_once.

Lemma fires_once_RequestIterator_next request_deserializer :
  fires_once (RequestIterator_next request_deserializer).
Proof. unfold RequestIterator_next. fire_once. Qed.

Hint Resolve fires_once_RequestIterator_next : fire_once.

Lemma fires_once_unary_request_look rpc_event :
  fires_once (unary_request_look rpc_event).
Proof. unfold unary_request_look. fire_once. Qed.

Hint Resolve fires_once_unary_request_look : fire_once.

Lemma fires_once_unary_request rpc_event request_deserializer :
  fires_once (unary_request rpc_event request_deserializer).
Proof. unfold unary_request. fire_once. Qed.

Lemma fires_once_ctx_call request_deserializer c :
  fires_once (ctx_call request_deserializer c).
Proof. destruct c; simpl; fire_once. Qed.

Hint Resolve fires_once_unary_request fires_once_ctx_call : fire_once.

Lemma fires_once_run_script {A} request_deserializer (s : Script A) :
  fires_once (run_script request_deserializer s).
Proof.
  induction s as [a | e | c k IH]; simpl; [fire_once .. |].
  assert (Hc : fires_once (released >> ctx_call request_deserializer c))
    by fire_once.
  intros w. unfold exec. specialize (Hc w). unfold exec in Hc.
  destruct ((released >> ctx_call request_deserializer c) w)
    as [[v | e |] w'] eqn:Hcall;
    simpl in *; [| | done];
    (eapply callbacks_run_trans; [exact Hc | apply IH]).
Qed.

Lemma fires_once_next request_deserializer (g : Generator) :
  fires_once (next request_deserializer g).
Proof.
  induction g as [| response rest IH | e | c k IH]; simpl; [fire_once .. |].
  assert (Hc : fires_once (released >> ctx_call request_deserializer c))
    by fire_once.
  intros w. unfold exec. specialize (Hc w). unfold exec in Hc.
  destruct ((released >> ctx_call request_deserializer c) w)
    as [[v | e |] w'] eqn:Hcall;
    simpl in *; [| | done];
    (eapply callbacks_run_trans; [exact Hc | apply IH]).
Qed.

Hint Resolve fires_once_run_script fires_once_next : fire_once.

Lemma fires_once_abort_on_exception what exception :
  fires_once (abort_on_exception what exception).
Proof. unfold abort_on_exception. fire_once. Qed.

Hint Resolve fires_once_abort_on_exception : fire_once.

Lemma fires_once_call_behavior {R} (behavior : Argument -> Script R) argument
    request_deserializer :
  fires_once (_call_behavior behavior argument request_deserializer).
Proof. unfold _call_behavior. fire_once. Qed.

Lemma fires_once_take_response request_deserializer response_iterator :
  fires_once (_take_response_from_response_iterator request_deserializer
               response_iterator).
Proof. unfold _take_response_from_response_iterator. fire_once. Qed.

Lemma fires_once_serialize_response response response_serializer :
  fires_once (_serialize_response response response_serializer).
Proof. unfold _serialize_response. fire_once. Qed.

Lemma fires_once_send_response_look token : fires_once (_send_response_look token).
Proof. unfold _send_response_look. fire_once. Qed.

Hint Resolve fires_once_call_behavior fires_once_take_response
  fires_once_serialize_response fires_once_send_response_look : fire_once.

Lemma fires_once_send_response serialized_response :
  fires_once (_send_response serialized_response).
Proof. unfold _send_response. fire_once. Qed.

Hint Resolve fires_once_send_response : fire_once.

Lemma fires_once_run_thunk t : fires_once (run_thunk t).
Proof. destruct t; simpl; fire_once. Qed.

Hint Resolve fires_once_run_thunk : fire_once.

Lemma fires_once_unary_response_in_pool behavior argument_thunk
    request_deserializer response_serializer :
  fires_once argument_thunk ->
  fires_once (_unary_response_in_pool behavior argument_thunk
               request_deserializer response_serializer).
Proof. intros Hthunk. unfold _unary_response_in_pool. fire_once. Qed.

Lemma fires_once_stream_responses fuel request_deserializer response_serializer
    response_iterator :
  fires_once (stream_responses fuel request_deserializer response_serializer
               response_iterator).
Proof.
  revert response_iterator.
  induction fuel as [| fuel IH]; intros response_iterator; simpl.
  - intros w. apply callbacks_run_refl.
  - fire_once.
Qed.

Hint Resolve fires_once_stream_responses : fire_once.

Lemma fires_once_stream_response_in_pool behavior argument_thunk
    request_deserializer response_serializer :
  fires_once argument_thunk ->
  fires_once (_stream_response_in_pool behavior argument_thunk
               request_deserializer response_serializer).
Proof.
  intros Hthunk. unfold _stream_response_in_pool. fire_once.
  intros w. apply fires_once_stream_responses.
Qed.

(** Every operation of the module respects [callbacks_run], and so does
    every run of operations. *)
Lemma run_op_callbacks_run op w :
  whole_step op = true -> callbacks_run w (run_op op w).
Proof.
  destruct op; simpl; try done; intros _;
    match goal with
    | |- callbacks_run _ (exec ?m _) => cut (fires_once m); [by intros H |]
    end;
    first
      [ by apply fires_once_unary_response_in_pool, fires_once_run_thunk
      | by apply fires_once_stream_response_in_pool, fires_once_run_thunk
      | by apply fires_once_call_behavior
      | by auto with fire_once ].
Qed.

Lemma run_ops_callbacks_run ops w :
  forallb whole_step ops = true -> callbacks_run w (run_ops ops w).
Proof.
  revert w. induction ops as [| op ops IH]; intros w Hops; simpl.
  - apply callbacks_run_refl.
  - simpl in Hops. apply andb_prop in Hops as [Hop Hops].
    eapply callbacks_run_trans; [by apply run_op_callbacks_run | by apply IH].
Qed.

(** ** The ledger of the callbacks *)

Ltac solve_ledger :=
  unfold ledger; simpl in *;
  repeat match goal with
         | H : callbacks ?s = _ |- context [callbacks ?s] => rewrite H
         end;
  simpl; rewrite ?app_nil_r, <- ?app_assoc; try done.

Lemma keeps_ledger_ret {A} (a : A) : keeps_ledger (ret a).
Proof. by intros w. Qed.

Lemma keeps_ledger_raise {A} e : keeps_ledger (@raise A e).
Proof. by intros w. Qed.

Lemma keeps_ledger_bind {A B} (m : M A) (k : A -> M B) :
  keeps_ledger m -> (forall a, keeps_ledger (k a)) -> keeps_ledger (bind m k).
Proof.
  intros Hm Hk w. unfold exec, bind. specialize (Hm w). unfold exec in Hm.
  destruct (m w) as [[a | e |] w']; simpl in *; try done.
  by rewrite <- Hm, <- (Hk a w').
Qed.

Lemma keeps_ledger_try_except {A} (m : M A) (h : Exn -> M A) :
  keeps_ledger m -> (forall e, keeps_ledger (h e)) ->
  keeps_ledger (try_except m h).
Proof.
  intros Hm Hh w. unfold exec, try_except. specialize (Hm w).
  unfold exec in Hm.
  destruct (m w) as [[a | e |] w']; simpl in *; try done.
  by rewrite <- Hm, <- (Hh e w').
Qed.

Lemma keeps_ledger_get {A} (f : RPCState -> A) : keeps_ledger (get f).
Proof. by intros w. Qed.

Lemma keeps_ledger_start_server_batch operations t :
  keeps_ledger (start_server_batch operations t).
Proof. intros [s a c n e f i]. run_atomic; solve_ledger. Qed.

Lemma keeps_ledger_due_add token : keeps_ledger (due_add token).
Proof. intros [s a c n e f i]. run_atomic; solve_ledger. Qed.

Lemma keeps_ledger_record_invocation argument :
  keeps_ledger (record_invocation argument).
Proof. intros [s a c n e f i]. run_atomic; solve_ledger. Qed.

Lemma keeps_ledger_set_request r : keeps_ledger (modify (set_request r)).
Proof. intros [s a c n e f i]. run_atomic; solve_ledger. Qed.

Lemma keeps_ledger_set_initial_metadata_allowed_false :
  keeps_ledger (modify (set_initial_metadata_allowed false)).
Proof. intros [s a c n e f i]. run_atomic; solve_ledger. Qed.

Lemma keeps_ledger_raise_rpc_error {A} : keeps_ledger (@_raise_rpc_error A).
Proof.
  intros [s a c n e f i]. unfold _raise_rpc_error. run_atomic; solve_ledger.
Qed.

Lemma keeps_ledger_abort a_code a_details :
  keeps_ledger (_abort a_code a_details).
Proof. intros [s a c n e f i]. unfold _abort. run_atomic; solve_ledger. Qed.

Lemma keeps_ledger_status serialized_response :
  keeps_ledger (_status serialized_response).
Proof. intros [s a c n e f i]. unfold _status. run_atomic; solve_ledger. Qed.

Create HintDb ledger.

Hint Resolve keeps_ledger_ret keeps_ledger_raise keeps_ledger_get
  keeps_ledger_start_server_batch keeps_ledger_due_add
  keeps_ledger_record_invocation keeps_ledger_set_request
  keeps_ledger_set_initial_metadata_allowed_false
  keeps_ledger_raise_rpc_error keeps_ledger_abort keeps_ledger_status
  : ledger.

Ltac keep_ledger :=
  repeat first
    [ progress intros
    | solve [auto with ledger]
    | apply keeps_ledger_bind
    | apply keeps_ledger_try_except
    | match goal with
      | |- keeps_ledger (match ?x with _ => _ end) => destruct x
      end ].

(** The serving thread moves the callbacks of a call that finishes from
    the state to its calls of them, all of them and in their order. *)
Lemma keeps_ledger_serve_event event : keeps_ledger (serve_event event).
Proof.
  intros [s a c n e f i]. destruct event as [t cancelled message].
  unfold serve_event, call_tag, send_status_from_server,
    receive_close_on_server, receive_message, send_initial_metadata,
    send_message, _abort, _possibly_finish_call.
  destruct t; run_atomic; solve_ledger.
Qed.

Lemma ledger_with_env v w : ledger (with_env v w) = ledger w.
Proof. by destruct w. Qed.

Lemma serve_events_ledger events w : ledger (serve_events events w) = ledger w.
Proof.
  revert w. induction events as [| event rest IH]; intros w; simpl; [done |].
  pose proof (keeps_ledger_serve_event event w) as Hev. unfold exec in Hev.
  destruct (serve_event event w) as [[r | e |] w']; simpl in Hev.
  - by rewrite IH.
  - by rewrite ledger_with_env.
  - by rewrite ledger_with_env.
Qed.

Lemma keeps_ledger_wait : keeps_ledger wait.
Proof.
  intros w. unfold exec, wait. destruct (env w) as [| events rest]; [done |].
  simpl. by rewrite serve_events_ledger, ledger_with_env.
Qed.

Lemma keeps_ledger_released : keeps_ledger released.
Proof.
  intros w. unfold exec, released.
  destruct (env w) as [| events rest]; [done |].
  simpl. by rewrite serve_events_ledger, ledger_with_env.
Qed.

Hint Resolve keeps_ledger_serve_event keeps_ledger_wait keeps_ledger_released
  : ledger.

Lemma keeps_ledger_while_True {A} (body : M (option A)) fuel :
  keeps_ledger body -> keeps_ledger (while_True body fuel).
Proof.
  intros Hbody. induction fuel as [| fuel IH]; simpl.
  - by intros w.
  - keep_ledger.
Qed.

Lemma keeps_ledger_wait_until {A} (body : M (option A)) :
  keeps_ledger body -> keeps_ledger (wait_until body).
Proof.
  intros Hbody w. unfold wait_until. apply keeps_ledger_while_True, Hbody.
Qed.

Lemma keeps_ledger_Context_is_active : keeps_ledger Context_is_active.
Proof. unfold Context_is_active. keep_ledger. Qed.

Lemma keeps_ledger_Context_cancel : keeps_ledger Context_cancel.
Proof.
  intros [s a [b k] n e f i]. unfold Context_cancel. run_atomic; solve_ledger.
Qed.

Lemma keeps_ledger_Context_disable_next_message_compression :
  keeps_ledger Context_disable_next_message_compression.
Proof.
  intros [s a c n e f i]. unfold Context_disable_next_message_compression.
  run_atomic; solve_ledger.
Qed.

Lemma keeps_ledger_Context_send_initial_metadata initial_metadata :
  keeps_ledger (Context_send_initial_metadata initial_metadata).
Proof. unfold Context_send_initial_metadata. keep_ledger. Qed.

Lemma keeps_ledger_Context_set_trailing_metadata a_trailing_metadata :
  keeps_ledger (Context_set_trailing_metadata a_trailing_metadata).
Proof.
  intros [s a c n e f i]. unfold Context_set_trailing_metadata.
  run_atomic; solve_ledger.
Qed.

Lemma keeps_ledger_Context_abort {A} a_code a_details :
  keeps_ledger (@Context_abort _ A a_code a_details).
Proof.
  intros [s a c n e f i]. unfold Context_abort. run_atomic; solve_ledger.
Qed.

Lemma keeps_ledger_Context_set_code a_code :
  keeps_ledger (Context_set_code a_code).
Proof.
  intros [s a c n e f i]. unfold Context_set_code. run_atomic; solve_ledger.
Qed.

Lemma keeps_ledger_Context_set_details a_details :
  keeps_ledger (Context_set_details a_details).
Proof.
  intros [s a c n e f i]. unfold Context_set_details. run_atomic; solve_ledger.
Qed.

Lemma keeps_ledger_raise_or_start_receive_message request_deserializer :
  keeps_ledger
    (RequestIterator_raise_or_start_receive_message request_deserializer).
Proof. unfold RequestIterator_raise_or_start_receive_message. keep_ledger. Qed.

Lemma keeps_ledger_look_for_request :
  keeps_ledger RequestIterator_look_for_request.
Proof. unfold RequestIterator_look_for_request. keep_ledger. Qed.

Hint Resolve keeps_ledger_wait_until keeps_ledger_Context_is_active
  keeps_ledger_Context_cancel
  keeps_ledger_Context_disable_next_message_compression
  keeps_ledger_Context_send_initial_metadata
  keeps_ledger_Context_set_trailing_metadata keeps_ledger_Context_abort
  keeps_ledger_Context_set_code keeps_ledger_Context_set_details
  keeps_ledger_raise_or_start_receive_message keeps_ledger_look_for_request
  : ledger.

Lemma keeps_ledger_RequestIterator_next request_deserializer :
  keeps_ledger (RequestIterator_next request_deserializer).
Proof. unfold RequestIterator_next. keep_ledger. Qed.

Lemma keeps_ledger_unary_request_look rpc_event :
  keeps_ledger (unary_request_look rpc_event).
Proof. unfold unary_request_look. keep_ledger. Qed.

Hint Resolve keeps_ledger_RequestIterator_next keeps_ledger_unary_request_look
  : ledger.

Lemma keeps_ledger_unary_request rpc_event request_deserializer :
  keeps_ledger (unary_request rpc_event request_deserializer).
Proof. unfold unary_request. keep_ledger. Qed.

Lemma keeps_ledger_abort_on_exception what exception :
  keeps_ledger (abort_on_exception what exception).
Proof. unfold abort_on_exception. keep_ledger. Qed.

Hint Resolve keeps_ledger_unary_request keeps_ledger_abort_on_exception
  : ledger.

Lemma keeps_ledger_serialize_response response response_serializer :
  keeps_ledger (_serialize_response response response_serializer).
Proof. unfold _serialize_response. keep_ledger. Qed.

Lemma keeps_ledger_send_response_look token :
  keeps_ledger (_send_response_look token).
Proof. unfold _send_response_look. keep_ledger. Qed.

Hint Resolve keeps_ledger_serialize_response keeps_ledger_send_response_look
  : ledger.

Lemma keeps_ledger_send_response serialized_response :
  keeps_ledger (_send_response serialized_response).
Proof. unfold _send_response. keep_ledger. Qed.

Hint Resolve keeps_ledger_send_response : ledger.

(** A context call registers at most the callback it was given, and only
    [add_callback] on a call that is not retired registers it. *)
Lemma ledger_ctx_call request_deserializer c w :
  ledger (exec (ctx_call request_deserializer c) w)
  = ledger w ++ accepted_call c w.
Proof.
  destruct c;
    try (simpl accepted_call; rewrite app_nil_r;
         revert w;
         match goal with
         | |- forall w, ledger (exec ?m w) = ledger w =>
             change (keeps_ledger m)
         end;
         simpl; by keep_ledger).
  destruct w as [s a c n e f i]. simpl. unfold Context_add_callback.
  run_atomic; solve_ledger.
Qed.

Lemma ledger_released_ctx_call request_deserializer c w :
  ledger ((released >> ctx_call request_deserializer c) w).2
  = ledger w ++ accepted_call c (exec released w).
Proof.
  rewrite bind_released.
  pose proof (ledger_ctx_call request_deserializer c (exec released w)) as H.
  unfold exec at 1 in H. by rewrite H, keeps_ledger_released.
Qed.

Lemma ledger_run_script {A} request_deserializer (s : Script A) w :
  ledger (exec (run_script request_deserializer s) w)
  = ledger w ++ accepted_script request_deserializer s w.
Proof.
  revert w. induction s as [a | e | c k IH]; intros w; simpl;
    [by rewrite app_nil_r .. |].
  pose proof (ledger_released_ctx_call request_deserializer c w) as Hc.
  unfold exec at 1. rewrite bind_released in Hc |- *.
  destruct (ctx_call request_deserializer c (exec released w))
    as [[v | e |] w2]; simpl in Hc |- *.
  - fold (exec (run_script request_deserializer (k (Ok v))) w2).
    by rewrite IH, Hc, <- app_assoc.
  - fold (exec (run_script request_deserializer (k (Raise e))) w2).
    by rewrite IH, Hc, <- app_assoc.
  - by rewrite Hc, app_nil_r.
Qed.

Lemma ledger_next request_deserializer (g : Generator) w :
  ledger (exec (next request_deserializer g) w)
  = ledger w ++ accepted_next request_deserializer g w.
Proof.
  revert w. induction g as [| response rest IH | e | c k IH]; intros w; simpl;
    [by rewrite app_nil_r .. |].
  pose proof (ledger_released_ctx_call request_deserializer c w) as Hc.
  unfold exec at 1. rewrite bind_released in Hc |- *.
  destruct (ctx_call request_deserializer c (exec released w))
    as [[v | e |] w2]; simpl in Hc |- *.
  - fold (exec (next request_deserializer (k (Ok v))) w2).
    by rewrite IH, Hc, <- app_assoc.
  - fold (exec (next request_deserializer (k (Raise e))) w2).
    by rewrite IH, Hc, <- app_assoc.
  - by rewrite Hc, app_nil_r.
Qed.

Lemma ledger_call_behavior {R} (behavior : Argument -> Script R) argument
    request_deserializer w :
  ledger (exec (_call_behavior behavior argument request_deserializer) w)
  = ledger w
    ++ accepted_script request_deserializer (behavior argument)
         (exec (record_invocation argument) w).
Proof.
  pose proof (ledger_run_script request_deserializer (behavior argument)
                (exec (record_invocation argument) w)) as Hs.
  rewrite keeps_ledger_record_invocation in Hs.
  unfold _call_behavior, exec at 1, try_except. unfold bind at 1.
  change (record_invocation argument w)
    with (Ok tt, exec (record_invocation argument) w).
  unfold bind at 1. unfold exec at 1 in Hs.
  destruct (run_script request_deserializer (behavior argument)
              (exec (record_invocation argument) w)) as [[r | e |] w2];
    simpl in Hs |- *; [done | | done].
  rewrite <- Hs.
  assert (Hh : keeps_ledger
                 (released >>
                  abort_on_exception "Exception calling application: " e >>
                  ret (@None R, false))) by keep_ledger.
  apply Hh.
Qed.

Lemma ledger_take_response request_deserializer response_iterator w :
  ledger (exec (_take_response_from_response_iterator request_deserializer
                  response_iterator) w)
  = ledger w ++ accepted_next request_deserializer response_iterator w.
Proof.
  pose proof (ledger_next request_deserializer response_iterator w) as Hs.
  unfold _take_response_from_response_iterator, exec at 1, try_except.
  unfold bind at 1. unfold exec at 1 in Hs.
  destruct (next request_deserializer response_iterator w)
    as [[r | e |] w2]; simpl in Hs |- *; [done | | done].
  rewrite <- Hs.
  assert (Hh : keeps_ledger
                 (match e with
                  | StopIteration =>
                      ret (@None (Message * Generator), true)
                  | _ =>
                      released >>
                      abort_on_exception "Exception iterating responses: " e
                      >> ret (None, false)
                  end)) by keep_ledger.
  apply Hh.
Qed.

Lemma plain_step_whole op : plain_step op = true -> whole_step op = true.
Proof. by destruct op. Qed.

Lemma run_op_ledger op w :
  plain_step op = true -> ledger (run_op op w) = ledger w ++ accepted_by op w.
Proof.
  destruct op; simpl; try done; intros _;
    first
      [ apply ledger_ctx_call
      | apply ledger_call_behavior
      | apply ledger_take_response
      | (rewrite app_nil_r;
         match goal with
         | |- ledger (exec ?m _) = _ =>
             cut (keeps_ledger m); [by intros H | by auto with ledger]
         end) ].
Qed.

Lemma run_ops_ledger ops w :
  forallb plain_step ops = true ->
  ledger (run_ops ops w) = ledger w ++ accepted ops w.
Proof.
  revert w. induction ops as [| op ops IH]; intros w Hops; simpl.
  - by rewrite app_nil_r.
  - simpl in Hops. apply andb_prop in Hops as [Hop Hops].
    change (run_ops (op :: ops) w) with (run_ops ops (run_op op w)).
    by rewrite IH, run_op_ledger, <- app_assoc.
Qed.

Lemma forallb_plain_step_whole ops :
  forallb plain_step ops = true -> forallb whole_step ops = true.
Proof.
  induction ops as [| op ops IH]; simpl; [done |].
  intros H. apply andb_prop in H as [Hop Hops].
  by rewrite (plain_step_whole op Hop), IH.
Qed.

(** X18: the completion callbacks of a call are called exactly once, when
    the call is retired, and in the order of their registration.  Take any
    run of context calls, of application code in [_call_behavior] and in the
    response iterator, of waits, of events handled by the serving thread and
    of the other operations of the module on the call, and the callbacks for
    which [add_callback] returned [True] during the run, oldest first.  What
    the call has been asked to call, the callbacks called followed by those
    still registered, grows by exactly these.  On a retired call no callback
    is called any more and none is registered; as long as the call is not
    retired none is called, and those registered are the ones from before
    followed by the new ones; a run that retires the call has called the
    callbacks registered before it, followed by those registered during it,
    and nothing else. *)
Theorem callbacks_are_called_once (ops : list Op) (w : World) :
  forallb plain_step ops = true ->
  let w' := run_ops ops w in
  ledger w' = ledger w ++ accepted ops w
  /\ (callbacks (st w) = None ->
      callbacks (st w') = None /\ fired w' = fired w /\ accepted ops w = [])
  /\ (forall cbs cbs',
        callbacks (st w) = Some cbs -> callbacks (st w') = Some cbs' ->
        cbs' = cbs ++ accepted ops w /\ fired w' = fired w)
  /\ (forall cbs,
        callbacks (st w) = Some cbs -> callbacks (st w') = None ->
        fired w' = fired w ++ cbs ++ accepted ops w).
Proof.
  intros Hops w'.
  pose proof (run_ops_ledger ops w Hops) as Hledger. fold w' in Hledger.
  destruct (run_ops_callbacks_run ops w (forallb_plain_step_whole ops Hops))
    as [Hretired Hregistered _].
  fold w' in Hretired, Hregistered.
  split; [done |]. unfold ledger in Hledger. split; [| split].
  - intros Hnone. destruct (Hretired Hnone) as [Hnone' Hfired].
    split; [done |]. split; [done |].
    rewrite Hnone, Hnone', Hfired in Hledger. simpl in Hledger.
    rewrite !app_nil_r in Hledger.
    apply (app_inv_head (fired w)). by rewrite app_nil_r, <- Hledger.
  - intros cbs cbs' Hsome Hsome'.
    destruct (Hregistered cbs cbs' Hsome Hsome') as [_ Hfired].
    split; [| done].
    rewrite Hsome, Hsome', Hfired in Hledger. simpl in Hledger.
    rewrite <- app_assoc in Hledger. by apply app_inv_head in Hledger.
  - intros cbs Hsome Hnone'.
    rewrite Hsome, Hnone' in Hledger. simpl in Hledger.
    by rewrite app_nil_r, <- app_assoc in Hledger.
Qed.

Lemma possibly_finish_call_retired token w r w' :
  callbacks (st w) = None ->
  _possibly_finish_call token w = (r, w') ->
  fired w' = fired w
  /\ match r with
     | Ok (rpc_state, cbs) =>
         (rpc_state = None /\ cbs = Some []
          /\ ~ ((client (st w') = _CANCELLED \/ statused (st w') = true)
                /\ due (st w') = ∅))
         \/ (cbs = None
             /\ (client (st w') = _CANCELLED \/ statused (st w') = true)
             /\ due (st w') = ∅)
     | Raise e => e = KeyError token /\ token ∉ due (st w')
     | Blocked => False
     end.
Proof.
  destruct w as [s a c n e f i]. simpl. intros Hcallbacks.
  unfold _possibly_finish_call, due_remove. unfold bind at 1. simpl.
  destruct (decide (token ∈ due s)) as [Hin | Hin].
  - cbv [bind modify get id with_st ret the_state]. simpl.
    destruct ((bool_decide (client s = _CANCELLED) || statused s)
              && bool_decide (due s ∖ {[token]} = ∅)) eqn:Hcond;
      intros H; simplify_eq; simpl; (split; [done |]).
    + apply andb_prop in Hcond as [Hor Hd].
      apply bool_decide_eq_true_1 in Hd. right. rewrite Hcallbacks.
      split; [done |]. split; [| done].
      apply orb_prop in Hor as [Hc | Hs]; [left | by right].
      by apply bool_decide_eq_true_1 in Hc.
    + left. split; [done |]. split; [done |]. intros [Hor Hd].
      apply andb_false_iff in Hcond as [Hcond | Hcond].
      * apply orb_false_elim in Hcond as [Hc Hs].
        apply bool_decide_eq_false_1 in Hc. destruct Hor; congruence.
      * by apply bool_decide_eq_false_1 in Hcond.
  - intros H. by simplify_eq.
Qed.

(** X19: an event of a call that has been retired.  The serving thread
    calls no callback and is never handed the state a second time: when the
    continuation finds the call finished again (nothing due, and the client
    cancelled or the call statused) it returns [None] for the callbacks, and
    the loop over them raises [TypeError] in [_serve]; otherwise the thread
    goes on, or the token was not due and the continuation raises
    [KeyError]. *)
Theorem completion_on_a_retired_call (event : Event) (w : World)
    (r : Res (option nat)) (w' : World) :
  callbacks (st w) = None ->
  tag event <> _reject_rpc_tag ->
  serve_event event w = (r, w') ->
  fired w' = fired w
  /\ match r with
     | Ok rpc_state =>
         rpc_state = None
         /\ ~ ((client (st w') = _CANCELLED \/ statused (st w') = true)
               /\ due (st w') = ∅)
     | Raise e =>
         (e = TypeError "'NoneType' object is not iterable"
          /\ (client (st w') = _CANCELLED \/ statused (st w') = true)
          /\ due (st w') = ∅)
         \/ (exists token, e = KeyError token /\ token ∉ due (st w'))
     | Blocked => False
     end.
Proof.
  intros Hcallbacks Htag Hrun.
  assert (Hfinish : forall token v,
             callbacks (st v) = None -> fired v = fired w ->
             (r0 <- _possibly_finish_call token ;;
              match r0.2 with
              | None => raise (TypeError "'NoneType' object is not iterable")
              | Some cbs => fire cbs >> ret r0.1
              end) v = (r, w') ->
             fired w' = fired w
             /\ match r with
                | Ok rpc_state =>
                    rpc_state = None
                    /\ ~ ((client (st w') = _CANCELLED
                           \/ statused (st w') = true)
                          /\ due (st w') = ∅)
                | Raise e =>
                    (e = TypeError "'NoneType' object is not iterable"
                     /\ (client (st w') = _CANCELLED
                         \/ statused (st w') = true)
                     /\ due (st w') = ∅)
                    \/ (exists token, e = KeyError token
                                      /\ token ∉ due (st w'))
                | Blocked => False
                end).
  { intros token v Hv Hfired. unfold bind at 1.
    destruct (_possibly_finish_call token v) as [[[rpc_state cbs] | e0 |] v']
      eqn:Hpf; apply possibly_finish_call_retired in Hpf; try done;
      destruct Hpf as [Hf Hr]; simpl.
    - destruct Hr as [(-> & -> & Hnot) | (-> & Hcond)]; simpl.
      + cbv [bind fire ret]. simpl. intros H. simplify_eq. simpl.
        rewrite app_nil_r. split; [congruence | done].
      + unfold raise. intros H. simplify_eq. split; [congruence |].
        by left.
    - intros H. simplify_eq. split; [congruence |]. right.
      destruct Hr as [-> Hr]. by eexists.
    - done. }
  destruct w as [s a c n e f i], event as [t cancelled message].
  simpl in *. unfold serve_event, call_tag in Hrun. simpl in Hrun.
  destruct t; try done.
  - by apply (Hfinish token (mkWorld s a c n e f i)).
  - unfold receive_close_on_server in Hrun.
    cbv [bind get id notify_all ret modify with_st] in Hrun. simpl in Hrun.
    destruct cancelled;
      [| destruct (bool_decide (client s = _OPEN)) eqn:Hopen];
      simpl in Hrun.
    + by apply (Hfinish _RECEIVE_CLOSE_ON_SERVER_TOKEN
                  (mkWorld (set_client _CANCELLED s) a c n e f i)).
    + by apply (Hfinish _RECEIVE_CLOSE_ON_SERVER_TOKEN
                  (mkWorld (set_client _CLOSED s) a c n e f i)).
    + by apply (Hfinish _RECEIVE_CLOSE_ON_SERVER_TOKEN
                  (mkWorld s a c n e f i)).
  - unfold receive_message in Hrun.
    destruct message as [serialized_request |]; simpl in Hrun.
    + match type of Hrun with
      | context [match ?d serialized_request with _ => _ end] =>
          destruct (d serialized_request) as [request_ |]
      end.
      * cbv [bind get id notify_all ret modify with_st] in Hrun.
        simpl in Hrun.
        by apply (Hfinish _RECEIVE_MESSAGE_TOKEN
                    (mkWorld (set_request (Some request_) s) a c n e f i)).
      * unfold bind at 1 2 3 in Hrun.
        match type of Hrun with
        | context [_abort ?co ?d ?v] =>
            destruct (abort_spec co d v) as (v' & Hab & _);
            pose proof (fires_once_abort co d v) as Hev;
            unfold exec in Hev; rewrite Hab in Hev, Hrun;
            destruct (run_retired _ _ Hev Hcallbacks) as [Hc' Hf']
        end.
        simpl in *.
        by apply (Hfinish _RECEIVE_MESSAGE_TOKEN v').
    + cbv [bind get id notify_all ret modify with_st] in Hrun.
      simpl in Hrun.
      destruct (bool_decide (client s = _OPEN)); simpl in Hrun.
      * by apply (Hfinish _RECEIVE_MESSAGE_TOKEN
                    (mkWorld (set_client _CLOSED s) a c n e f i)).
      * by apply (Hfinish _RECEIVE_MESSAGE_TOKEN (mkWorld s a c n e f i)).
  - by apply (Hfinish _SEND_INITIAL_METADATA_TOKEN (mkWorld s a c n e f i)).
  - by apply (Hfinish token (mkWorld s a c n e f i)).
Qed.

End Callbacks.

(** ** Requests *)

Section Requests.
Context {common : grpc_common}.

(** X20: a request message that the deserializer refuses.  Unless the
    client is cancelled, the continuation of the receive aborts the call: it
    starts one send-status operation, with the code [internal] and the
    details "Exception deserializing request!" when the application has set
    neither, marks the call statused, leaves no request for the application,
    and does not retire the call, whose status is still due. *)
Theorem undeserializable_request_is_internal
    (request_deserializer : Deserializer) (event : Event)
    (serialized_request : bytes) (w : World) :
  op_message event = Some serialized_request ->
  request_deserializer serialized_request = None ->
  _RECEIVE_MESSAGE_TOKEN ∈ due (st w) ->
  client (st w) <> _CANCELLED ->
  exists w',
    receive_message request_deserializer event w = (Ok (None, Some []), w')
    /\ statuses w'
       = statuses w
         ++ [(_abortion_code (st w) internal,
              match details (st w) with
              | None => "Exception deserializing request!"
              | Some d => d
              end)]
    /\ statused (st w') = true
    /\ request (st w') = request (st w)
    /\ callbacks (st w') = callbacks (st w).
Proof.
  intros Hmessage Hdeserialize Hdue Hclient.
  destruct w as [s a c n e f i]. simpl in *.
  unfold receive_message. rewrite Hmessage, Hdeserialize.
  unfold _abort, _possibly_finish_call, due_remove, statuses.
  cbv [bind get id notify_all ret modify with_st with_call start_server_batch
       due_add]. simpl.
  rewrite (bool_decide_eq_true_2 (client s <> _CANCELLED)) by done.
  destruct (initial_metadata_allowed s); simpl;
    (case_decide; [| set_solver]); simpl;
    rewrite (bool_decide_eq_false_2 (client s = _CANCELLED)) by done; simpl;
    (case_bool_decide as Hempty;
     [exfalso;
      match type of Hempty with
      | ({[?token]} ∪ _) ∖ _ = ∅ =>
          assert (Hin : token ∈ (∅ : gset string));
          [rewrite <- Hempty; apply elem_of_difference; split;
           [by apply elem_of_union_l, elem_of_singleton
           | by rewrite elem_of_singleton]
          | by apply not_elem_of_empty in Hin]
      end
     |]);
    eexists; (split; [reflexivity |]); simpl;
    rewrite flat_map_app; simpl; done.
Qed.

(** The completion of a receive with a message that deserializes, on an
    open call without status: the request is stored and the call goes on. *)
Lemma wait_receive_completes request_deserializer cancelled serialized_request
    request_ rest s a c n f i :
  client s = _OPEN ->
  statused s = false ->
  request_deserializer serialized_request = Some request_ ->
  _RECEIVE_MESSAGE_TOKEN ∈ due s ->
  wait
    (mkWorld s a c n
       ([mkEvent (_receive_message request_deserializer) cancelled
           (Some serialized_request)] :: rest) f i)
  = (Ok tt,
     mkWorld
       (set_due (due s ∖ {[_RECEIVE_MESSAGE_TOKEN]})
          (set_request (Some request_) s))
       a c n rest f i).
Proof.
  intros Hclient Hstatused Hdeserialize Hdue.
  unfold wait, serve_events, serve_event, call_tag, receive_message,
    _possibly_finish_call, due_remove.
  cbv [bind get id notify_all ret modify with_st with_call with_env
       start_server_batch due_add raise fire the_state].
  simpl. rewrite Hdeserialize. simpl.
  case_decide; [| done]. simpl. rewrite Hclient, Hstatused. simpl.
  by rewrite app_nil_r.
Qed.

Lemma while_True_S {A} (body : M (option A)) fuel :
  while_True body (S fuel)
  = (wait >>
     r <- body ;;
     match r with
     | Some a => ret a
     | None => while_True body fuel
     end).
Proof. reflexivity. Qed.

(** X21: a request message that the deserializer accepts reaches the
    application.  On an open call without status, when the next event of the
    serving thread is the completion of the receive with a message,
    [unary_request] returns the deserialized message, and so does [next] on
    the request iterator; one receive operation has been started, and the
    state holds the request no longer. *)
Theorem request_reaches_the_application (rpc_event : RpcEvent)
    (request_deserializer : Deserializer) (cancelled : bool)
    (serialized_request : bytes) (request_ : Message)
    (rest : list (list Event)) (w : World) :
  client (st w) = _OPEN ->
  statused (st w) = false ->
  env w
  = [mkEvent (_receive_message request_deserializer) cancelled
       (Some serialized_request)] :: rest ->
  request_deserializer serialized_request = Some request_ ->
  exists w',
    unary_request rpc_event request_deserializer w = (Ok (Some request_), w')
    /\ RequestIterator_next request_deserializer w = (Ok request_, w')
    /\ env w' = rest
    /\ request (st w') = None
    /\ batches (the_call w')
       = batches (the_call w)
         ++ [([ReceiveMessageOperation _EMPTY_FLAGS],
              _receive_message request_deserializer)].
Proof.
  intros Hclient Hstatused Henv Hdeserialize.
  destruct w as [s a c n e f i]. simpl in *. subst e.
  eexists. split; [| split].
  - unfold unary_request. cbv [bind get id]. simpl.
    rewrite Hclient, Hstatused. simpl.
    cbv [start_server_batch due_add modify with_st with_call]. simpl.
    unfold wait_until, fuel_of. rewrite while_True_S. unfold bind at 1.
    rewrite (wait_receive_completes _ _ _ request_) by (done || set_solver).
    unfold unary_request_look. cbv [bind get id modify ret with_st]. simpl.
    reflexivity.
  - unfold RequestIterator_next,
      RequestIterator_raise_or_start_receive_message.
    cbv [bind get id]. simpl. rewrite Hclient, Hstatused. simpl.
    cbv [start_server_batch due_add modify with_st with_call]. simpl.
    unfold wait_until, fuel_of. rewrite while_True_S. unfold bind at 1.
    rewrite (wait_receive_completes _ _ _ request_) by (done || set_solver).
    unfold RequestIterator_look_for_request.
    cbv [bind get id modify ret with_st]. simpl. rewrite Hclient. simpl.
    reflexivity.
  - done.
Qed.

End Requests.

(** * More theorems at sample values *)

Section MoreSamples.
Local Existing Instance sample_common.

(** A lookup that the second of three handlers answers. *)
Lemma query_handlers_first_answer_sample :
  query_handlers
    ([silent_generic_handler]
     ++ echo_generic_handler :: [failing_generic_handler])
    (_HandlerCallDetails "/pkg.Service/Method" [])
  = echo_generic_handler (_HandlerCallDetails "/pkg.Service/Method" []).
Proof.
  apply (query_handlers_first_answer [silent_generic_handler]
           [failing_generic_handler] echo_generic_handler
           (_HandlerCallDetails "/pkg.Service/Method" [])).
  - repeat constructor.
  - discriminate.
Defined.

(** A handler added to the sample server. *)
Lemma add_generic_handlers_goes_last_sample :
  _find_method_handler "/pkg.Service/Method" sample_rpc_event
    (generic_handlers
       (_add_generic_handlers [failing_generic_handler] (sample_server None 0)))
    (interceptor_pipeline
       (_add_generic_handlers [failing_generic_handler] (sample_server None 0)))
  = inr (Some echo_handler).
Proof.
  exact (add_generic_handlers_goes_last (sample_server None 0)
           [failing_generic_handler] "/pkg.Service/Method" sample_rpc_event
           eq_refl).
Defined.

(** A round of the sample server on a new-call event. *)
Lemma serve_request_call_rearms_sample :
  exists s',
    serve_request_call sample_rpc_event (sample_server None 0)
    = inr (s', false)
    /\ stage s' = STARTED
    /\ _REQUEST_CALL_TAG ∈ server_due s'
    /\ request_calls s' = S (request_calls (sample_server None 0)).
Proof.
  apply (proj1 (serve_request_call_rearms sample_rpc_event
                  (sample_server None 0))).
  - reflexivity.
  - simpl. by apply elem_of_singleton.
Defined.

(** A new-call event that failed, and one for a method nobody handles. *)
Lemma handle_call_without_handler_sample :
  _handle_call 0 failed_rpc_event [echo_generic_handler] None [] false
  = ((None, None), [])
  /\ _handle_call 0 sample_rpc_event [silent_generic_handler] None [] true
     = ((Some (_reject_rpc 0 unimplemented "Method not found!"), None), []).
Proof.
  split.
  - exact (proj1 (handle_call_without_handler 0 failed_rpc_event
                    [echo_generic_handler] None [] false)
             (or_introl eq_refl)).
  - exact (proj1 (proj2 (handle_call_without_handler 0 sample_rpc_event
                           [silent_generic_handler] None [] true)
                    "/pkg.Service/Method" eq_refl eq_refl eq_refl)).
Defined.

(** The sample server at its limit of one call. *)
Lemma admission_after_completion_sample :
  concurrency_exceeded_of (sample_server (Some 1%Z) 1%Z) = true
  /\ concurrency_exceeded_of (_on_call_completed (sample_server (Some 1%Z) 1%Z))
     = false.
Proof.
  destruct (admission_after_completion (sample_server (Some 1%Z) 1%Z)
              sample_rpc_event "/pkg.Service/Method" echo_handler 1%Z
              ltac:(simpl; by apply elem_of_singleton)
              eq_refl eq_refl eq_refl eq_refl eq_refl)
    as (Hfull & Hfree & _).
  by split.
Defined.

(** A server that is started and stopped with a grace of five seconds. *)
Lemma server_lifecycle_sample :
  exists p,
    run_server_ops [op_start; op_stop (Some 5%Z)]
      (Server Z [echo_generic_handler] None None) = Some p
    /\ lifecycle p.
Proof.
  eexists. split; [reflexivity |].
  apply (server_lifecycle (Duration := Z) [echo_generic_handler] None None
           [op_start; op_stop (Some 5%Z)]).
  reflexivity.
Defined.

(** The stop of a started server. *)
Lemma stage_moves_sample :
  exists p p',
    run_server_ops [op_start] (Server Z [echo_generic_handler] None None)
    = Some p
    /\ run_server_op (op_stop None) p = Some p'
    /\ (stage (server_state p') = stage (server_state p)
        \/ (stage_step (stage (server_state p)) (stage (server_state p'))
            /\ stage (server_state p) = STARTED)).
Proof.
  eexists _, _. split; [reflexivity |]. split; [reflexivity |].
  apply (stage_moves (Duration := Z) [echo_generic_handler] None None [op_start]
           (op_stop None)); reflexivity.
Defined.

(** Two stops of the sample server, the first one without grace. *)
Lemma stop_coalesces_sample :
  exists p1 p2,
    _stop None sample_process = inr (p1, (0, true))
    /\ _stop (Some 3%Z) p1 = inr (p2, (1, false))
    /\ shutdowns p2 = 1
    /\ shutdown_events (server_state p2) = Some [0; 1].
Proof.
  destruct (stop_coalesces (Duration := Z) sample_process None (Some 3%Z) eq_refl)
    as (p1 & p2 & H1 & H2 & _ & Hshutdowns & _ & Hevents & _).
  exists p1, p2. by repeat split.
Defined.

Lemma sample_process_lifecycle : lifecycle sample_process.
Proof.
  split; simpl; done.
Qed.

(** The sample server is stopped with a grace; the serving loop then finds
    the shutdown and a new-call event that failed. *)
Lemma stop_event_is_set_sample :
  0 ∈ events_set (server_state stopped_process).
Proof.
  apply (stop_event_is_set (Duration := Z) sample_process (Some 3%Z)
           stopping_process 0 false
           [op_serve_shutdown; op_serve_request_call failed_rpc_event]
           stopped_process sample_process_lifecycle);
    vm_compute; reflexivity.
Defined.

(** A call for a method that the bare server does not handle. *)
Lemma rejected_call_is_retired_sample :
  exists s1 s2 w,
    serve_request_call sample_rpc_event bare_server = inr (s1, false)
    /\ heap s1 !! 0 = Some w
    /\ serve_call_event (mkEvent _reject_rpc_tag false None) w s1
       = inr (s2, false)
    /\ rpc_states s2 = rpc_states bare_server.
Proof.
  destruct (rejected_call_is_retired bare_server sample_rpc_event
              "/pkg.Service/Method" false None eq_refl
              ltac:(simpl; by apply elem_of_singleton)
              ltac:(simpl; apply not_elem_of_empty)
              eq_refl eq_refl eq_refl)
    as (s1 & s2 & w & H1 & Hheap & _ & _ & H2 & Hstates & _).
  by exists s1, s2, w.
Defined.

(** A behaviour that aborts with [INTERNAL], on a new call. *)
Lemma abort_sends_code_and_details_sample :
  exists w',
    _call_behavior abort_with_INTERNAL (ArgMessage "request")
      (fun b => Some b) (new_world 0)
    = (Ok (None, false), w')
    /\ statuses w' = [(internal, "out of luck")].
Proof.
  destruct (abort_sends_code_and_details (other_StatusCode "INTERNAL")
              "out of luck" Message abort_with_INTERNAL (ArgMessage "request")
              (fun b => Some b) (Return tt) (rethrow "") (new_world 0)
              (exec (record_invocation (ArgMessage "request")) (new_world 0))
              ltac:(discriminate) eq_refl (fun e => eq_refl) eq_refl)
    as (w' & Hrun & _ & _ & Hstatuses).
  by exists w'.
Defined.

(** A behaviour that raises, on a new call. *)
Lemma application_exception_is_UNKNOWN_sample :
  exists w',
    _call_behavior raising (ArgMessage "request") (fun b => Some b)
      (new_world 0)
    = (Ok (None, false), w')
    /\ statuses w'
       = [(unknown,
           encode ("Exception calling application: "
                   +:+ str_of_exn (ApplicationError 0 "division by zero")))].
Proof.
  destruct (application_exception_is_UNKNOWN
              (ApplicationError 0 "division by zero") Message raising
              (ArgMessage "request") (fun b => Some b) (Return tt)
              (new_world 0)
              (exec (record_invocation (ArgMessage "request")) (new_world 0))
              eq_refl eq_refl ltac:(discriminate)
              ltac:(simpl; apply not_elem_of_nil))
    as (w' & Hrun & Hstatuses & _).
  by exists w'.
Defined.

(** [next] on the request iterator of a cancelled call. *)
Lemma request_iterator_next_sample :
  exists w',
    RequestIterator_next (fun b => Some b) cancelled_call
    = (Raise (RpcError 0), w')
    /\ the_call w' = the_call cancelled_call.
Proof.
  exact (proj1 (request_iterator_next (fun b => Some b) cancelled_call)
           eq_refl).
Defined.

(** A behaviour that sends the initial metadata to a cancelled client. *)
Lemma rpc_error_of_the_module_ends_quietly_sample :
  (_call_behavior sending_metadata (ArgMessage "request") (fun b => Some b)
     cancelled_call).1
  = Ok (None, false).
Proof.
  pose proof (rpc_error_of_the_module_ends_quietly
                (ctx_send_initial_metadata None) Message sending_metadata
                (ArgMessage "request") (fun b => Some b) (Return tt)
                (rethrow "") cancelled_call
                (exec (record_invocation (ArgMessage "request"))
                   cancelled_call)
                (exec (ctx_call (fun b => Some b)
                         (ctx_send_initial_metadata None))
                   (exec (record_invocation (ArgMessage "request"))
                      cancelled_call))
                0 eq_refl (fun e => eq_refl) eq_refl eq_refl) as [Hrun _].
  by rewrite Hrun.
Defined.

(** The first response of a call. *)
Lemma send_response_waits_for_the_send_sample :
  initial_metadata_allowed
    (st (exec (_send_response "response") sending_call)) = false.
Proof.
  pose proof (send_response_waits_for_the_send "response" sending_call
                (_send_response "response" sending_call).1
                (_send_response "response" sending_call).2
                (surjective_pairing _))
    as [_ Hsend].
  destruct (Hsend ltac:(discriminate) eq_refl) as (_ & Hallowed & _).
  exact Hallowed.
Defined.


(** The response of the echo handler. *)
Lemma unary_response_goes_with_the_status_sample :
  exists w',
    _unary_response_in_pool (unary_unary echo_handler)
      (ret (Some (ArgMessage "request"))) (fun b => Some b) (fun m => Some m)
      (new_world 0)
    = (Ok tt, w')
    /\ statused (st w') = true.
Proof.
  destruct (unary_response_goes_with_the_status (unary_unary echo_handler)
              (ret (Some (ArgMessage "request"))) (ArgMessage "request")
              (fun b => Some b) (fun m => Some m) "request"
              (new_world 0) (new_world 0)
              (exec (record_invocation (ArgMessage "request")) (new_world 0))
              eq_refl eq_refl)
    as (w' & Hrun & _ & Hsent).
  exists w'. split; [exact Hrun |].
  by destruct (Hsent ltac:(discriminate)) as (_ & Hstatused & _).
Defined.

(** Of the two callbacks offered in [registering_run], the first is
    registered and called; the second comes after the retirement. *)
Lemma callbacks_are_called_once_sample :
  accepted registering_run (new_world 0) = ["log"]
  /\ fired (run_ops registering_run (new_world 0)) = ["log"].
Proof.
  split; [vm_compute; reflexivity |].
  refine (eq_trans
            (proj2 (proj2 (proj2
               (callbacks_are_called_once registering_run (new_world 0)
                  eq_refl))) [] eq_refl _) _);
    vm_compute; reflexivity.
Defined.

(** The initial metadata of the retired call have been sent. *)
Lemma completion_on_a_retired_call_sample :
  fired
    (exec (serve_event (mkEvent _send_initial_metadata false None))
       retired_call)
  = fired retired_call.
Proof.
  refine (proj1
            (completion_on_a_retired_call
               (mkEvent _send_initial_metadata false None) retired_call
               (serve_event (mkEvent _send_initial_metadata false None)
                  retired_call).1
               (serve_event (mkEvent _send_initial_metadata false None)
                  retired_call).2
               _ ltac:(discriminate)
               (surjective_pairing _))).
  vm_compute. reflexivity.
Defined.

(** A message that does not deserialize. *)
Lemma undeserializable_request_is_internal_sample :
  exists w',
    receive_message (fun _ => None) garbled_message_event receiving_call
    = (Ok (None, Some []), w')
    /\ statuses w' = [(internal, "Exception deserializing request!")].
Proof.
  destruct (undeserializable_request_is_internal (fun _ => None)
              garbled_message_event "garbled" receiving_call eq_refl eq_refl
              ltac:(simpl; by apply elem_of_singleton) ltac:(discriminate))
    as (w' & Hrun & Hstatuses & _).
  by exists w'.
Defined.

(** A message that deserializes. *)
Lemma request_reaches_the_application_sample :
  exists w',
    unary_request sample_rpc_event (fun b => Some b) call_with_request
    = (Ok (Some "hello"), w')
    /\ RequestIterator_next (fun b => Some b) call_with_request
       = (Ok "hello", w').
Proof.
  destruct (request_reaches_the_application sample_rpc_event
              (fun b => Some b) false "hello" "hello" [] call_with_request
              eq_refl eq_refl eq_refl eq_refl)
    as (w' & Hunary & Hnext & _).
  by exists w'.
Defined.

End MoreSamples.
